(** * Corrective-RAG retrieval pipeline: a shallow embedding and its properties

  The development follows the TypeScript sources of the orchestration
  package: [chunking.ts] (segmentation), [vectorStore.ts] (embedding index),
  [hybridSearch.ts] (BM25 and the hybrid ranker) and [correctiveRAG.ts]
  (the corrective retrieval loop); then [tagging.ts] (tags and metadata of
  the chunks), [extraction.ts] (the final extraction and the answers to
  queries), the choice of the chunks in [correctiveRAGPipeline.ts] and the
  command-line arguments of [index.ts].

  Conventions of the embedding:
  - a JavaScript string is a list of code units, here [list ascii] (the
    model covers code units below 256);
  - a JavaScript [number] that the code uses as a count, a size or an index
    is a [Z]; a number that carries a score is an IEEE-754 binary64 value,
    Rocq's primitive [float];
  - an exception is the [None] of an [option]; the language-model service
    is an oracle that answers each prompt from the history of the run;
  - a value parsed from JSON is a tree, and [JSON.parse] is a variable of
    the sections that call it. *)

From Stdlib Require Import ZArith List Ascii String Floats Lia Bool Permutation.
From Stdlib Require Import DecimalString DecimalN.
From stdpp Require Import gmap strings list.
Import ListNotations.
Local Open Scope Z_scope.
Local Open Scope list_scope.

(** ** JavaScript primitives used by the sources *)

Module JS.

Abbreviation str := (list ascii).

(** A string literal of the source. *)
Definition lit (s : string) : str := list_ascii_of_string s.
Arguments lit s%_string.

Definition code (c : ascii) : N := N_of_ascii c.

(** [\s] of a regular expression and the white space of [trim]:
    TAB, LF, VT, FF, CR, SPACE and NBSP (the members below 256). *)
Definition is_space (c : ascii) : bool :=
  let n := code c in
  ((9 <=? n) && (n <=? 13) || (n =? 32) || (n =? 160))%N.

(** Line terminators, for [^] under the [m] flag. *)
Definition is_line_terminator (c : ascii) : bool :=
  let n := code c in ((n =? 10) || (n =? 13))%N.

Definition is_digit (c : ascii) : bool :=
  let n := code c in ((48 <=? n) && (n <=? 57))%N.

(** [\w] is [A-Za-z0-9_]. *)
Definition is_word (c : ascii) : bool :=
  let n := code c in
  ((65 <=? n) && (n <=? 90) || (97 <=? n) && (n <=? 122)
   || (48 <=? n) && (n <=? 57) || (n =? 95))%N.

(** [String.prototype.toLowerCase], on the code units below 256. *)
Definition lower_char (c : ascii) : ascii :=
  let n := code c in
  if ((65 <=? n) && (n <=? 90)
      || (192 <=? n) && (n <=? 222) && negb (n =? 215))%N
  then ascii_of_N (n + 32) else c.

Definition toLowerCase (s : str) : str := map lower_char s.

Fixpoint trimStart (s : str) : str :=
  match s with
  | c :: s' => if is_space c then trimStart s' else s
  | [] => []
  end.

Definition trimEnd (s : str) : str := rev (trimStart (rev s)).

Definition trim (s : str) : str := trimEnd (trimStart s).

(** [x.slice(start, end)] on strings and arrays: negative positions count
    from the end, positions are clamped to the length. *)
Definition clamp_index (len i : Z) : Z :=
  if i <? 0 then Z.max (len + i) 0 else Z.min i len.

Definition slice {A} (l : list A) (start : Z) (stop : option Z) : list A :=
  let len := Z.of_nat (length l) in
  let from := clamp_index len start in
  let to := match stop with Some e => clamp_index len e | None => len end in
  firstn (Z.to_nat (Z.max (to - from) 0)) (skipn (Z.to_nat from) l).

Fixpoint startsWith (p s : str) : bool :=
  match p, s with
  | [], _ => true
  | a :: p', b :: s' => Ascii.eqb a b && startsWith p' s'
  | _ :: _, [] => false
  end.

(** [s.includes(p)]. *)
Fixpoint includes (p s : str) : bool :=
  startsWith p s ||
  match s with
  | [] => false
  | _ :: s' => includes p s'
  end.

(** [s.replace(p, r)] with a string pattern: the first occurrence only. *)
Fixpoint replace (p r s : str) : str :=
  if startsWith p s then r ++ skipn (length p) s
  else match s with
       | [] => []
       | c :: s' => c :: replace p r s'
       end.

(** [s.split(sep)] with a one-character separator string. *)
Fixpoint split_char (sep : ascii) (s : str) : list str :=
  match s with
  | [] => [[]]
  | c :: s' =>
      if Ascii.eqb c sep then [] :: split_char sep s'
      else match split_char sep s' with
           | piece :: rest => (c :: piece) :: rest
           | [] => [[c]]
           end
  end.

(** [Number.prototype.toString] on an integer (decimal digits; the model
    does not cover the exponent notation of magnitudes from 1e21). *)
Definition digits (n : N) : str :=
  list_ascii_of_string (NilEmpty.string_of_uint (N.to_uint n)).

Definition toString (n : Z) : str :=
  if n <? 0 then lit "-" ++ digits (Z.to_N (- n)) else digits (Z.to_N n).

Fixpoint take_while {A} (p : A -> bool) (l : list A) : list A :=
  match l with
  | x :: l' => if p x then x :: take_while p l' else []
  | [] => []
  end.

Definition is_hex_digit (c : ascii) : bool :=
  let n := code c in
  ((48 <=? n) && (n <=? 57) || (65 <=? n) && (n <=? 70)
   || (97 <=? n) && (n <=? 102))%N.

Definition hex_value (c : ascii) : N :=
  let n := code c in
  (if n <=? 57 then n - 48 else if n <=? 70 then n - 55 else n - 87)%N.

Definition decimal_value (ds : str) : N :=
  match NilEmpty.uint_of_string (string_of_list_ascii ds) with
  | Some d => N.of_uint d
  | None => 0%N
  end.

Definition magnitude (s : str) : option N :=
  match s with
  | z :: x :: rest =>
      if Ascii.eqb z "0" && (Ascii.eqb x "x" || Ascii.eqb x "X") then
        match take_while is_hex_digit rest with
        | [] => None
        | hs => Some (fold_left (fun acc c => acc * 16 + hex_value c)%N hs 0%N)
        end
      else
        match take_while is_digit s with
        | [] => None
        | ds => Some (decimal_value ds)
        end
  | _ =>
      match take_while is_digit s with
      | [] => None
      | ds => Some (decimal_value ds)
      end
  end.

(** [parseInt(s)] without a radix; [None] is [NaN]. *)
Definition parseInt (s : str) : option Z :=
  match trimStart s with
  | c :: s' =>
      if Ascii.eqb c "-" then
        match magnitude s' with Some m => Some (- Z.of_N m) | None => None end
      else if Ascii.eqb c "+" then
        match magnitude s' with Some m => Some (Z.of_N m) | None => None end
      else
        match magnitude (c :: s') with Some m => Some (Z.of_N m) | None => None end
  | [] => None
  end.

(** A non-negative integer as a binary64 number. *)
Definition number (n : Z) : float := PrimFloat.of_uint63 (Uint63.of_Z n).

(** [x || 0] on a possibly undefined number: [undefined], [0], [-0] and
    [NaN] are falsy. *)
Definition or_zero (x : option float) : float :=
  match x with
  | Some v => if PrimFloat.eqb v 0 || PrimFloat.is_nan v then 0%float else v
  | None => 0%float
  end.

(** [Math.max(a, b)]. *)
Definition max2 (a b : float) : float :=
  if PrimFloat.is_nan a || PrimFloat.is_nan b then PrimFloat.nan
  else if PrimFloat.ltb a b then b
  else if PrimFloat.ltb b a then a
  else match PrimFloat.classify a with NZero => b | _ => a end.

(** [Math.max(...xs)]. *)
Definition max_of (xs : list float) : float :=
  fold_left max2 xs PrimFloat.neg_infinity.

(** [Array.prototype.sort(cmp)]: a stable insertion sort; [x] moves in
    front of [y] when [cmp(y, x) > 0], and a [NaN] from the comparator
    counts as [+0]. *)
Fixpoint insert_sorted {A} (cmp : A -> A -> float) (x : A) (l : list A) : list A :=
  match l with
  | [] => [x]
  | y :: l' =>
      if PrimFloat.ltb 0 (cmp y x) then x :: y :: l'
      else y :: insert_sorted cmp x l'
  end.

Definition sort {A} (cmp : A -> A -> float) (l : list A) : list A :=
  fold_left (fun acc x => insert_sorted cmp x acc) l [].

End JS.

(** ** Regular expressions

    A backtracking matcher in continuation-passing style, after the
    ECMAScript pattern semantics, for the constructs the sources use. *)

Module Regex.
Import JS.

Inductive regex : Type :=
| Eps
| Chr (p : ascii -> bool)                 (* a character class *)
| Seq (r1 r2 : regex)
| Alt (r1 r2 : regex)
| Rep (min : nat) (max : option nat) (greedy : bool) (r : regex)
| Bol                                     (* [^] under the [m] flag *)
| Bos                                     (* [^] without the [m] flag *)
| Ahead (r : regex)                       (* [(?=r)] *)
| Behind (p : ascii -> bool)              (* [(?<=[p])] *)
| Mark.                                   (* the opening of a capture group *)

(** Where the matcher stands: the code unit before the position, the input
    from the position on, and the inputs recorded at the marks passed so far
    (latest first). *)
Record mstate : Type := MState {
  prev : option ascii;
  rest : str;
  marks : list str
}.

Definition cont : Type := mstate -> option mstate.

Definition or_else {A} (x y : option A) : option A :=
  match x with Some _ => x | None => y end.

(** The quantifier [{min,max}] around a matcher [m], after RepeatMatcher: an
    iteration that is not required and consumes nothing is refused. Each
    iteration lowers [min] or consumes input, so a fuel above [min] plus the
    length of the input is never used up. *)
Fixpoint repeat (m : cont -> cont) (k : cont) (greedy : bool) (fuel min : nat)
    (max : option nat) (x : mstate) {struct fuel} : option mstate :=
  match fuel with
  | O => None
  | S fuel' =>
      match max with
      | Some O => k x
      | _ =>
          let d : cont := fun y =>
            if Nat.eqb min 0 && Nat.eqb (length (rest y)) (length (rest x))
            then None
            else repeat m k greedy fuel' (Nat.pred min) (option_map Nat.pred max) y in
          if negb (Nat.eqb min 0) then m d x
          else if greedy then or_else (m d x) (k x)
          else or_else (k x) (m d x)
      end
  end.

Fixpoint run (r : regex) (k : cont) (x : mstate) {struct r} : option mstate :=
  match r with
  | Eps => k x
  | Chr p =>
      match rest x with
      | c :: s' => if p c then k (MState (Some c) s' (marks x)) else None
      | [] => None
      end
  | Seq r1 r2 => run r1 (run r2 k) x
  | Alt r1 r2 => or_else (run r1 k x) (run r2 k x)
  | Rep min max greedy r1 =>
      repeat (run r1) k greedy (min + length (rest x) + 1)%nat min max x
  | Bol =>
      match prev x with
      | None => k x
      | Some c => if is_line_terminator c then k x else None
      end
  | Bos =>
      match prev x with
      | None => k x
      | Some _ => None
      end
  | Ahead r1 =>
      match run r1 Some x with
      | Some _ => k x
      | None => None
      end
  | Behind p =>
      match prev x with
      | Some c => if p c then k x else None
      | None => None
      end
  | Mark => k (MState (prev x) (rest x) (rest x :: marks x))
  end.

Definition plus (r : regex) : regex := Rep 1 None true r.
Definition star (r : regex) : regex := Rep 0 None true r.
Definition lazy_plus (r : regex) : regex := Rep 1 None false r.
Definition char (c : ascii) : regex := Chr (Ascii.eqb c).

(** A match attempt at one position: the state at the end of the match. *)
Definition match_here (r : regex) (before : option ascii) (s : str) : option mstate :=
  run r Some (MState before s []).

(** The number of code units of a match that started on [s]. *)
Definition consumed (s : str) (y : mstate) : nat := (length s - length (rest y))%nat.

(** The code unit before the position [n] code units into [s]. *)
Definition prev_after (before : option ascii) (s : str) (n : nat) : option ascii :=
  match n with
  | O => before
  | S n' => match nth_error s n' with Some c => Some c | None => before end
  end.

(** The leftmost match at or after the position: its offset and end state. *)
Fixpoint search (r : regex) (before : option ascii) (s : str) : option (nat * mstate) :=
  match match_here r before s with
  | Some y => Some (O, y)
  | None =>
      match s with
      | c :: s' =>
          match search r (Some c) s' with
          | Some (off, y) => Some (S off, y)
          | None => None
          end
      | [] => None
      end
  end.

(** One match of a global scan: its index in the whole input and its text. *)
Record found : Type := Found { index : nat; text : str; groups : list str }.

(** The text of each mark up to the end of the match (latest mark first). *)
Definition group_texts (y : mstate) : list str :=
  map (fun at_mark => firstn (length at_mark - length (rest y))%nat at_mark) (marks y).

(** [while ((m = re.exec(s)) !== null)] with the [g] flag: every match
    moves [lastIndex] to its end, so an empty match repeats forever; that
    divergence is [None]. *)
Fixpoint exec_loop (fuel : nat) (r : regex) (at_index : nat)
    (before : option ascii) (s : str) : option (list found) :=
  match fuel with
  | O => None
  | S fuel' =>
      match search r before s with
      | None => Some []
      | Some (off, y) =>
          let from := skipn off s in
          let n := consumed from y in
          if Nat.eqb n 0 then None
          else
            match exec_loop fuel' r (at_index + off + n)
                    (prev_after before s (off + n)) (skipn n from) with
            | Some more => Some (Found (at_index + off)%nat (firstn n from) (group_texts y) :: more)
            | None => None
            end
      end
  end.

Definition exec_all (r : regex) (s : str) : option (list found) :=
  exec_loop (S (length s)) r 0 None s.

(** [s.matchAll(re)]: as above, but an empty match advances by one. *)
Fixpoint matchAll_loop (fuel : nat) (r : regex) (at_index : nat)
    (before : option ascii) (s : str) : list found :=
  match fuel with
  | O => []
  | S fuel' =>
      match search r before s with
      | None => []
      | Some (off, y) =>
          let from := skipn off s in
          let n := consumed from y in
          let step := if Nat.eqb n 0 then 1%nat else n in
          Found (at_index + off)%nat (firstn n from) (group_texts y) ::
          (if (length from <? step)%nat then []
           else matchAll_loop fuel' r (at_index + off + step)
                  (prev_after before s (off + step)) (skipn step from))
      end
  end.

Definition matchAll (r : regex) (s : str) : list found :=
  matchAll_loop (S (length s)) r 0 None s.

(** [s.match(re)] without the [g] flag: the first match only. *)
Definition match_first (r : regex) (s : str) : option found :=
  match search r None s with
  | Some (off, y) =>
      let from := skipn off s in
      Some (Found off (firstn (consumed from y) from) (group_texts y))
  | None => None
  end.

(** [s.split(re)]: [cur] holds, reversed, the code units of the piece in
    progress; a match that ends where the piece began is skipped. *)
Fixpoint split_loop (fuel : nat) (r : regex) (before : option ascii)
    (cur : str) (s : str) : list str :=
  match fuel with
  | O => [rev cur ++ s]
  | S fuel' =>
      match s with
      | [] => [rev cur]
      | c :: s' =>
          match match_here r before s with
          | Some y =>
              let n := consumed s y in
              if Nat.eqb n 0 && Nat.eqb (length cur) 0
              then split_loop fuel' r (Some c) (c :: cur) s'
              else rev cur :: split_loop fuel' r (prev_after before s n) [] (skipn n s)
          | None => split_loop fuel' r (Some c) (c :: cur) s'
          end
      end
  end.

Definition split (r : regex) (s : str) : list str :=
  match s with
  | [] => match match_here r None [] with Some _ => [] | None => [[]] end
  | _ => split_loop (2 * length s + 1) r None [] s
  end.

End Regex.

(** ** The data model ([types.ts]) *)

Module Types.
Import JS.

Record Chunk : Type := {
  header : str;
  content : str;
  charCount : option Z;
  containsTable : option bool
}.

(** [TaggedChunk extends Chunk]. *)
Record TaggedChunk : Type := {
  chunk :> Chunk;
  chunkId : Z;
  tags : list str
}.

Inductive Score : Type := high | medium | low.

Record RelevanceGrade : Type := {
  relevant : bool;
  score : Score;
  reason : str
}.

Record SearchResult : Type := {
  result_chunkId : str;
  result_score : float;
  result_header : str;
  result_content : str;
  result_tags : list str;
  relevanceGrade : option RelevanceGrade
}.

Record CorrectiveRAGResult : Type := {
  query : str;
  finalQuery : str;
  iterations : Z;
  relevantChunks : list SearchResult;
  totalFound : Z
}.

Record ChunkingConfig : Type := {
  minChunkSize : Z;
  maxChunkSize : Z;
  overlap : Z
}.

Definition len {A} (l : list A) : Z := Z.of_nat (length l).

(** Truthiness of a string and of an optional boolean. *)
Definition nonempty (s : str) : bool := match s with [] => false | _ => true end.
Definition is_true (b : option bool) : bool := match b with Some true => true | _ => false end.

End Types.

(** ** The segmentation engine ([chunking.ts]) *)

Module Chunking.
Import JS Regex Types.

Definition LF : ascii := ascii_of_N 10.
Definition CR : ascii := ascii_of_N 13.
Definition is_pipe (c : ascii) : bool := Ascii.eqb c "|".
Definition not_LF (c : ascii) : bool := negb (Ascii.eqb c LF).
Definition LF_or_CR (c : ascii) : bool := Ascii.eqb c LF || Ascii.eqb c CR.
Definition separator_char (c : ascii) : bool :=
  Ascii.eqb c "-" || Ascii.eqb c ":" || is_space c || Ascii.eqb c "|".
Definition any_char (c : ascii) : bool := true.
Definition not_line_terminator (c : ascii) : bool := negb (is_line_terminator c).
Definition sentence_end (c : ascii) : bool :=
  Ascii.eqb c "." || Ascii.eqb c "!" || Ascii.eqb c "?".

(** [\|[^\n]+\|[\n\r]+] *)
Definition table_row : regex :=
  Seq (Chr is_pipe) (Seq (plus (Chr not_LF)) (Seq (Chr is_pipe) (plus (Chr LF_or_CR)))).

(** The table pattern of [extractTables], under the [g] flag: a first row,
    the separator row [\|[-:\s|]+\|[\n\r]+], then any number of rows. *)
Definition tablePattern : regex :=
  Seq table_row
    (Seq (Chr is_pipe) (Seq (plus (Chr separator_char)) (Seq (Chr is_pipe)
      (Seq (plus (Chr LF_or_CR)) (star table_row))))).

(** [#{1,3}\s+] *)
Definition heading_marker : regex :=
  Seq (Rep 1 (Some 3%nat) true (char "#")) (plus (Chr is_space)).

(** [/(^#{1,3}\s+.+?)(?=\n#{1,3}\s+|\Z)/gms]: under [s] the dot matches
    every code unit; [\Z] is not an anchor in JavaScript but the letter Z. *)
Definition headerPattern : regex :=
  Seq (Seq Bol (Seq heading_marker (lazy_plus (Chr any_char))))
      (Ahead (Alt (Seq (char LF) heading_marker) (char "Z"))).

(** [/^(#{1,3}\s+)(.+)/]: the mark opens the second group, which runs to
    the end of the match. *)
Definition headerLine : regex :=
  Seq Bos (Seq heading_marker (Seq Mark (plus (Chr not_line_terminator)))).

(** [/\n\n+/], [/(?<=[.!?])\s+/] and [/\s+/]. *)
Definition paragraph_break : regex := Seq (char LF) (plus (char LF)).
Definition sentence_break : regex := Seq (Behind sentence_end) (plus (Chr is_space)).
Definition word_break : regex := plus (Chr is_space).

Record TableRange : Type := { start : Z; stop : Z }.

(** [extractTables]: the ranges of the tables ([None]: the loop does not end). *)
Definition extractTables (markdownText : str) : option (list (str * TableRange)) :=
  match exec_all tablePattern markdownText with
  | Some found =>
      Some (map (fun m =>
                   (text m, {| start := Z.of_nat (index m);
                               stop := Z.of_nat (index m) + len (text m) |})) found)
  | None => None
  end.

(** The text that seeds the next chunk after [currentChunk] was closed. *)
Definition overlapText (currentChunk : str) (overlap : Z) : str :=
  if len currentChunk >? overlap then slice currentChunk (- overlap) None
  else currentChunk.

(** One turn of a packing loop over the units of one granularity: [joiner]
    separates units inside a chunk, [extra] is the constant added in the
    size test, [oversized] handles a unit that does not fit an empty chunk
    and yields the chunks to push and the new [currentChunk]. *)
Definition pack_step (joiner : str) (extra maxSize overlap : Z)
    (oversized : str -> option (list str * str))
    (state : list str * str) (unit : str) : option (list str * str) :=
  let '(chunks, currentChunk) := state in
  if len currentChunk + len unit + extra <=? maxSize then
    Some (chunks, currentChunk ++ (if nonempty currentChunk then joiner else []) ++ unit)
  else if nonempty currentChunk then
    Some (chunks ++ [currentChunk], overlapText currentChunk overlap ++ joiner ++ unit)
  else
    match oversized unit with
    | Some (pushed, next) => Some (chunks ++ pushed, next)
    | None => None
    end.

Fixpoint pack_loop (joiner : str) (extra maxSize overlap : Z)
    (oversized : str -> option (list str * str))
    (state : list str * str) (units : list str) : option (list str * str) :=
  match units with
  | [] => Some state
  | unit :: units' =>
      match pack_step joiner extra maxSize overlap oversized state unit with
      | Some state' => pack_loop joiner extra maxSize overlap oversized state' units'
      | None => None
      end
  end.

(** [if (currentChunk) chunks.push(currentChunk); return chunks]. *)
Definition pack_finish (state : list str * str) : list str :=
  let '(chunks, currentChunk) := state in
  if nonempty currentChunk then chunks ++ [currentChunk] else chunks.

Definition pack (joiner : str) (extra maxSize overlap : Z)
    (oversized : str -> option (list str * str)) (units : list str) : option (list str) :=
  match pack_loop joiner extra maxSize overlap oversized ([], []) units with
  | Some state => Some (pack_finish state)
  | None => None
  end.

(** [chunks.push(...subChunks.slice(0, -1));
     currentChunk = subChunks[subChunks.length - 1] || '']. *)
Definition carry_last (subChunks : list str) : list str * str :=
  (slice subChunks 0 (Some (-1)), List.last subChunks []).

(** [chunks.push(word.slice(0, maxSize)); currentChunk = word.slice(maxSize)]. *)
Definition hard_cut (maxSize : Z) (word : str) : option (list str * str) :=
  Some ([slice word 0 (Some maxSize)], slice word maxSize None).

(** [recursiveChunkWithOverlap]; every recursive call is on one unit of a
    text that has several, so a fuel above the length of the text is never
    used up ([None] is reserved for that). *)
Fixpoint recursiveChunkWithOverlap_fuel (fuel : nat) (text : str)
    (maxSize overlap : Z) : option (list str) :=
  match fuel with
  | O => None
  | S fuel' =>
      if len text <=? maxSize then Some [text]
      else
        let recurse unit :=
          match recursiveChunkWithOverlap_fuel fuel' unit maxSize overlap with
          | Some subChunks => Some (carry_last subChunks)
          | None => None
          end in
        let paragraphs := split paragraph_break text in
        if len paragraphs >? 1 then
          pack (lit (String LF (String LF ""))) 2 maxSize overlap recurse paragraphs
        else
          let sentences := split sentence_break text in
          if len sentences >? 1 then
            pack (lit " ") 1 maxSize overlap recurse sentences
          else
            pack (lit " ") 1 maxSize overlap (hard_cut maxSize) (split word_break text)
  end.

Definition recursiveChunkWithOverlap (text : str) (maxSize overlap : Z)
    : option (list str) :=
  recursiveChunkWithOverlap_fuel (S (length text)) text maxSize overlap.

(** The [map] callbacks that number the pieces. *)
Fixpoint mapi_from {A B} (i : Z) (f : A -> Z -> B) (l : list A) : list B :=
  match l with
  | [] => []
  | x :: l' => f x i :: mapi_from (i + 1) f l'
  end.

Definition mapi {A B} (f : A -> Z -> B) (l : list A) : list B := mapi_from 0 f l.

Definition splitLargeChunk (chunkContent header : str) (maxSize overlap : Z)
    : option (list Chunk) :=
  match recursiveChunkWithOverlap chunkContent maxSize overlap with
  | Some splitTexts =>
      Some (mapi (fun text index =>
                    {| header := if len splitTexts >? 1
                                 then header ++ lit " (Part " ++ toString (index + 1) ++ lit ")"
                                 else header;
                       content := trim text;
                       charCount := Some (len (trim text));
                       containsTable := Some false |}) splitTexts)
  | None => None
  end.

(** The body of [for (const match of matches)]. *)
Definition rawChunk (tableRanges : list TableRange) (m : found) : list Chunk :=
  let chunkText := trim (text m) in
  if negb (nonempty chunkText) then []
  else
    let header :=
      match match_first headerLine chunkText with
      | Some headerMatch => trim (nth 0 (groups headerMatch) [])
      | None => lit "Unknown"
      end in
    let chunkStart := Z.of_nat (index m) in
    let chunkEnd := chunkStart + len chunkText in
    let containsTable :=
      existsb (fun r =>
                 (chunkStart <=? start r) && (start r <? chunkEnd)
                 || (chunkStart <? stop r) && (stop r <=? chunkEnd)) tableRanges in
    [{| header := header; content := chunkText;
        charCount := Some (len chunkText); containsTable := Some containsTable |}].

(** The inner [while (j < rawChunks.length && combinedContent.length <
    minChunkSize)]; [pending] is [rawChunks] from index [j] on. *)
Fixpoint combine (minChunkSize : Z) (pending : list Chunk) (j : nat)
    (combinedContent combinedHeader : str) : str * str * nat :=
  match pending with
  | [] => (combinedContent, combinedHeader, j)
  | next :: pending' =>
      if len combinedContent <? minChunkSize then
        if is_true (containsTable next) then (combinedContent, combinedHeader, j)
        else combine minChunkSize pending' (S j)
               (combinedContent ++ lit (String LF (String LF "")) ++ content next)
               (combinedHeader ++ lit " + " ++ header next)
      else (combinedContent, combinedHeader, j)
  end.

Definition below (c : option Z) (bound : Z) : bool :=
  match c with Some n => n <? bound | None => false end.
Definition above (c : option Z) (bound : Z) : bool :=
  match c with Some n => n >? bound | None => false end.

(** The outer [while (i < rawChunks.length)]; [i] grows on every turn, so a
    fuel above the number of raw chunks is never used up. *)
Fixpoint process (fuel : nat) (config : ChunkingConfig) (rawChunks : list Chunk)
    (i : nat) (processedChunks : list Chunk) : option (list Chunk) :=
  match fuel with
  | O => None
  | S fuel' =>
      match nth_error rawChunks i with
      | None => Some processedChunks
      | Some current =>
          if is_true (containsTable current) then
            process fuel' config rawChunks (S i) (processedChunks ++ [current])
          else if below (charCount current) (minChunkSize config) then
            let '(combinedContent, combinedHeader, j) :=
              combine (minChunkSize config) (skipn (S i) rawChunks) (S i)
                (content current) (header current) in
            if len combinedContent >? maxChunkSize config then
              match splitLargeChunk combinedContent combinedHeader
                      (maxChunkSize config) (overlap config) with
              | Some splitChunks =>
                  process fuel' config rawChunks j (processedChunks ++ splitChunks)
              | None => None
              end
            else
              process fuel' config rawChunks j
                (processedChunks ++
                 [{| header := combinedHeader; content := combinedContent;
                     charCount := Some (len combinedContent);
                     containsTable := Some false |}])
          else if above (charCount current) (maxChunkSize config) then
            match splitLargeChunk (content current) (header current)
                    (maxChunkSize config) (overlap config) with
            | Some splitChunks =>
                process fuel' config rawChunks (S i) (processedChunks ++ splitChunks)
            | None => None
            end
          else process fuel' config rawChunks (S i) (processedChunks ++ [current])
      end
  end.

(** [chunkDocument]. *)
Definition chunkDocument (markdownText : str) (config : ChunkingConfig)
    : option (list Chunk) :=
  if negb (nonempty markdownText) || (len (trim markdownText) =? 0) then Some []
  else
    match extractTables markdownText with
    | None => None
    | Some tables =>
        let tableRanges := map snd tables in
        let matches := matchAll headerPattern markdownText in
        if len matches =? 0 then
          match recursiveChunkWithOverlap markdownText
                  (maxChunkSize config) (overlap config) with
          | Some chunkTexts =>
              Some (mapi (fun text index =>
                            {| header := lit "Chunk " ++ toString (index + 1);
                               content := text;
                               charCount := Some (len text);
                               containsTable := Some false |}) chunkTexts)
          | None => None
          end
        else
          let rawChunks := flat_map (rawChunk tableRanges) matches in
          process (S (length rawChunks)) config rawChunks 0 []
    end.

End Chunking.

(** ** The embedding index ([vectorStore.ts]) *)

Module VectorStoreM.
Import JS Types.
Local Open Scope float_scope.

(** [cosineSimilarity]; [None] is the thrown length error. *)
Definition cosineSimilarity (vec1 vec2 : list float) : option float :=
  if negb (Nat.eqb (length vec1) (length vec2)) then None
  else
    let '(dotProduct, norm1, norm2) :=
      fold_left (fun '(dotProduct, norm1, norm2) '(a, b) =>
                   (dotProduct + a * b, norm1 + a * a, norm2 + b * b))
                (combine vec1 vec2) (0, 0, 0) in
    Some (dotProduct / (PrimFloat.sqrt norm1 * PrimFloat.sqrt norm2)).

(** [generateSimpleEmbedding]: character frequencies in 300 bins,
    divided by their Euclidean norm. *)
Definition generateSimpleEmbedding (text : str) : list float :=
  let normalized := toLowerCase text in
  let embedding :=
    fold_left (fun embedding c =>
                 alter (fun v => v + 1) (N.to_nat (code c mod 300)) embedding)
              normalized (replicate 300 0) in
  let magnitude :=
    PrimFloat.sqrt (fold_left (fun sum val => sum + val * val) embedding 0) in
  map (fun val => val / magnitude) embedding.

Record VectorStore : Type := {
  chunks : list TaggedChunk;
  embeddings : list (list float)
}.

Definition new : VectorStore := {| chunks := []; embeddings := [] |}.

(** [addChunks] replaces the chunks and computes one embedding for each. *)
Definition addChunks (store : VectorStore) (added : list TaggedChunk) : VectorStore :=
  {| chunks := added;
     embeddings := map (fun c : TaggedChunk => generateSimpleEmbedding (content c)) added |}.

(** An optional [tagFilter] in a condition: absent and empty are falsy. *)
Definition given (tagFilter : option str) : option str :=
  match tagFilter with
  | Some (c :: f) => Some (c :: f)
  | _ => None
  end.

(** [tags.includes(tag)]. *)
Definition has_tag (tags : list str) (tag : str) : bool := bool_decide (tag ∈ tags).

(** [`chunk_${chunk.chunkId}`]. *)
Definition chunkKey (id : Z) : str := lit "chunk_" ++ toString id.

(** The loop that scores the stored embeddings against the query. *)
Fixpoint similarities (store : VectorStore) (queryEmbedding : list float)
    (tagFilter : option str) (i : nat) (pending : list (list float))
    : option (list (nat * float)) :=
  match pending with
  | [] => Some []
  | embedding :: pending' =>
      let scored :=
        similarity ← cosineSimilarity queryEmbedding embedding;
        scores ← similarities store queryEmbedding tagFilter (S i) pending';
        Some ((i, similarity) :: scores) in
      match given tagFilter with
      | Some tag =>
          chunk ← chunks store !! i;
          if negb (has_tag (tags chunk) tag)
          then similarities store queryEmbedding tagFilter (S i) pending'
          else scored
      | None => scored
      end
  end.

Definition descending {A} (f : A -> float) (a b : A) : float := f b - f a.

(** [semanticSearch]. *)
Definition semanticSearch (store : VectorStore) (query : str) (topK : Z)
    (tagFilter : option str) : option (list SearchResult) :=
  let queryEmbedding := generateSimpleEmbedding query in
  scores ← similarities store queryEmbedding tagFilter 0 (embeddings store);
  let topResults := slice (sort (descending snd) scores) 0 (Some topK) in
  mapM (fun '(index, score) =>
          chunk ← chunks store !! index;
          Some {| result_chunkId := chunkKey (chunkId chunk);
                  result_score := score;
                  result_header := header chunk;
                  result_content := content chunk;
                  result_tags := tags chunk;
                  relevanceGrade := None |}) topResults.

(** [getChunkById]. *)
Definition getChunkById (store : VectorStore) (key : str) : option TaggedChunk :=
  match parseInt (replace (lit "chunk_") [] key) with
  | Some id => List.find (fun c : TaggedChunk => chunkId c =? id)%Z (chunks store)
  | None => None
  end.

Definition getAllChunks (store : VectorStore) : list TaggedChunk := chunks store.

End VectorStoreM.

(** ** The lexical index and the hybrid ranker ([hybridSearch.ts]) *)

Module BM25M.
Import JS Regex Types.
Local Open Scope float_scope.

Record BM25 : Type := {
  documents : list (list str);
  avgDocLength : float;
  docLengths : list Z;
  idf : gmap str float;
  k1 : float;
  b : float
}.

Definition new : BM25 :=
  {| documents := []; avgDocLength := 0; docLengths := []; idf := ∅;
     k1 := 1.5; b := 0.75 |}.

(** [tokenize]: lower case, [/[^\w\s]/g] to a space, split at [/\s+/],
    empty tokens dropped. *)
Definition tokenize (text : str) : list str :=
  List.filter (fun token => 0 <? length token)%nat
    (split (plus (Chr is_space))
       (map (fun c => if negb (is_word c || is_space c) then " "%char else c)
            (toLowerCase text))).

(** The operands of the division that yields [avgDocLength]. *)
Definition average_operands (docLengths : list Z) : float * float :=
  (fold_left (fun a b => a + b) (map number docLengths) 0,
   number (Z.of_nat (length docLengths))).

Section Initialize.
Variable Math_log : float -> float.

(** [calculateIDF]: document frequencies, then one entry per term; entries
    of an earlier build that are not overwritten stay. *)
Definition calculateIDF (documents : list (list str)) (idf : gmap str float)
    : gmap str float :=
  let N := number (Z.of_nat (length documents)) in
  let termDocCount : gmap str Z :=
    fold_left (fun counts doc =>
                 fold_left (fun counts term =>
                              <[term := (default 0 (counts !! term) + 1)%Z]> counts)
                           (remove_dups doc) counts)
              documents ∅ in
  ((fun docCount : Z =>
      Math_log ((N - number docCount + 0.5) / (number docCount + 0.5) + 1))
     <$> termDocCount) ∪ idf.

(** [initialize]. *)
Definition initialize (index : BM25) (docs : list str) : BM25 :=
  let documents := map tokenize docs in
  let docLengths := map (fun doc => Z.of_nat (length doc)) documents in
  let '(total, count) := average_operands docLengths in
  {| documents := documents;
     avgDocLength := total / count;
     docLengths := docLengths;
     idf := calculateIDF documents (idf index);
     k1 := k1 index;
     b := b index |}.

End Initialize.

(** [calculateScore]. *)
Definition calculateScore (index : BM25) (queryTerms : list str) (docIndex : nat)
    (doc : list str) : float :=
  let docLength :=
    match docLengths index !! docIndex with
    | Some n => number n
    | None => PrimFloat.nan
    end in
  fold_left
    (fun score term =>
       let tf := number (Z.of_nat (length (List.filter (fun t => bool_decide (t = term)) doc))) in
       let idf := or_zero (idf index !! term) in
       let numerator := tf * (k1 index + 1) in
       let denominator :=
         tf + k1 index * (1 - b index + b index * (docLength / avgDocLength index)) in
       score + idf * (numerator / denominator))
    queryTerms 0.

(** [getScores]. *)
Definition getScores (index : BM25) (query : str) : list float :=
  let queryTerms := tokenize query in
  imap (fun i doc => calculateScore index queryTerms i doc) (documents index).

End BM25M.

Module HybridSearch.
Import JS Types VectorStoreM.
Local Open Scope float_scope.

Record HybridSearcher : Type := {
  vectorStore : VectorStore;
  bm25 : BM25M.BM25;
  allDocuments : list str
}.

Definition new (store : VectorStore) : HybridSearcher :=
  {| vectorStore := store; bm25 := BM25M.new; allDocuments := [] |}.

Definition initialize (Math_log : float -> float) (searcher : HybridSearcher)
    : HybridSearcher :=
  let docs := map (fun c : TaggedChunk => content c) (getAllChunks (vectorStore searcher)) in
  {| vectorStore := vectorStore searcher;
     bm25 := BM25M.initialize Math_log (bm25 searcher) docs;
     allDocuments := docs |}.

(** [xs.length > 0 ? Math.max(...xs) : 0]. *)
Definition max_or_zero (xs : list float) : float :=
  if (0 <? length xs)%nat then max_of xs else 0.

(** [max > 0 ? x / max : 0]. *)
Definition normalized (max x : float) : float :=
  if PrimFloat.ltb 0 max then x / max else 0.

(** The indices of the chunks that pass the tag filter. *)
Definition candidateIndices (allChunks : list TaggedChunk) (tagFilter : option str)
    : list nat :=
  map fst
    (List.filter (fun '(_, chunk) =>
               match given tagFilter with
               | Some tag => has_tag (tags chunk) tag
               | None => true
               end)
            (imap (fun idx chunk => (idx, chunk)) allChunks)).

(** [search]; [None] is a thrown error. *)
Definition search (searcher : HybridSearcher) (query : str) (topK : Z)
    (alpha : float) (tagFilter : option str) : option (list SearchResult) :=
  semanticResults ← semanticSearch (vectorStore searcher) query (topK * 2) tagFilter;
  let bm25Scores := BM25M.getScores (bm25 searcher) query in
  let maxDist := max_or_zero (map result_score semanticResults) in
  let semanticScoreMap : gmap str float :=
    fold_left (fun scores result =>
                 <[result_chunkId result := normalized maxDist (result_score result)]> scores)
              semanticResults ∅ in
  let allChunks := getAllChunks (vectorStore searcher) in
  let candidates := candidateIndices allChunks tagFilter in
  let maxBM25 := max_or_zero (map (fun i => or_zero (bm25Scores !! i)) candidates) in
  combinedScores ← mapM (fun index =>
      chunk ← allChunks !! index;
      let key := chunkKey (chunkId chunk) in
      let semScore := or_zero (semanticScoreMap !! key) in
      let bm25Score := normalized maxBM25 (or_zero (bm25Scores !! index)) in
      Some (key, alpha * semScore + (1 - alpha) * bm25Score)) candidates;
  let topChunks := slice (sort (descending snd) combinedScores) 0 (Some topK) in
  mapM (fun '(key, score) =>
          getChunkById (vectorStore searcher) key ≫= fun chunk : TaggedChunk =>
          Some {| result_chunkId := key;
                  result_score := score;
                  result_header := header chunk;
                  result_content := content chunk;
                  result_tags := tags chunk;
                  relevanceGrade := None |}) topChunks.

End HybridSearch.

(** ** The corrective retrieval controller ([correctiveRAG.ts]) *)

Module CorrectiveRAG.
Import JS Types VectorStoreM HybridSearch.

(** What one [chat.completions.create] call comes to inside the [try]:
    the call throws, or the response cannot be read up to its first choice,
    or [response.choices[0]?.message?.content] is read. *)
Inductive completion : Type :=
| Failure
| Message (body : option str).

(** What a run does that can be observed from outside. *)
Inductive event : Type :=
| Searched (query : str) (topK : Z) (results : list SearchResult)
| FellBack (query : str) (topK : Z) (results : list SearchResult)
| Graded (prompt : str)
| Rewrote (prompt : str)
| Counted (relevantCount total : Z).

(** The language-model service: the answer to a prompt, given what the run
    did before. *)
Definition service : Type := list event -> str -> completion.

(** The three fixed parts of the grading prompt. *)
Definition grading_opening : str :=
  lit "You are a grading expert. Is this chunk relevant to the query?

Query: ".

Definition grading_middle : str :=
  lit "

Chunk:
".

Definition grading_closing : str :=
  lit "

Format:
RELEVANT: yes or no
SCORE: high, medium, or low
REASON: brief explanation (1 sentence)
".

Definition gradingPrompt (chunkContent query : str) : str :=
  grading_opening ++ query ++ grading_middle ++
  slice chunkContent 0 (Some 1000) ++ grading_closing.

Definition parse_score (scoreStr : str) : option Score :=
  if bool_decide (scoreStr = lit "high") then Some high
  else if bool_decide (scoreStr = lit "medium") then Some medium
  else if bool_decide (scoreStr = lit "low") then Some low
  else None.

(** The body of [for (const line of result.split('\n'))]. *)
Definition read_line (grade : RelevanceGrade) (line : str) : RelevanceGrade :=
  if startsWith (lit "RELEVANT:") line then
    {| relevant := includes (lit "yes") (toLowerCase line);
       score := score grade; reason := reason grade |}
  else if startsWith (lit "SCORE:") line then
    match parse_score (toLowerCase (trim (replace (lit "SCORE:") [] line))) with
    | Some s => {| relevant := relevant grade; score := s; reason := reason grade |}
    | None => grade
    end
  else if startsWith (lit "REASON:") line then
    {| relevant := relevant grade; score := score grade;
       reason := trim (replace (lit "REASON:") [] line) |}
  else grade.

(** [gradeChunkRelevance], given the answer of the service to its prompt. *)
Definition gradeChunkRelevance (answer : completion) : RelevanceGrade :=
  match answer with
  | Message body =>
      let result := default [] body in
      fold_left read_line (split_char (ascii_of_N 10) result)
        {| relevant := false; score := low; reason := lit "Unknown" |}
  | Failure =>
      {| relevant := true; score := medium; reason := lit "Error during grading" |}
  end.

Definition rewritePrompt (originalQuery : str) (feedback : option str) : str :=
  match feedback with
  | Some (c :: f) =>
      lit "Original query failed to retrieve relevant results.

Original: " ++ originalQuery ++ lit "
Feedback: " ++ (c :: f) ++ lit "

Rewrite for better retrieval. Return only the rewritten query."
  | _ =>
      lit "Improve this query for better retrieval:

" ++ originalQuery ++ lit "

Return only the improved query."
  end.

(** [rewriteQuery], given the answer of the service to its prompt. *)
Definition rewriteQuery (answer : completion) (originalQuery : str) : str :=
  match answer with
  | Message (Some body) =>
      match trim body with
      | [] => originalQuery
      | rewritten => rewritten
      end
  | Message None => originalQuery
  | Failure => originalQuery
  end.

Definition accepted (grade : RelevanceGrade) : bool :=
  relevant grade &&
  match score grade with high | medium => true | low => false end.

Definition graded (chunk : SearchResult) (grade : RelevanceGrade) : SearchResult :=
  {| result_chunkId := result_chunkId chunk;
     result_score := result_score chunk;
     result_header := result_header chunk;
     result_content := result_content chunk;
     result_tags := result_tags chunk;
     relevanceGrade := Some grade |}.

(** The variables of [correctiveRAGRetrieval], and the trace of the run. *)
Record state : Type := {
  currentQuery : str;
  iteration : Z;
  allRelevantChunks : list SearchResult;
  trace : list event
}.

Definition record (e : event) (st : state) : state :=
  {| currentQuery := currentQuery st; iteration := iteration st;
     allRelevantChunks := allRelevantChunks st; trace := trace st ++ [e] |}.

Section Retrieval.
Variable groq : service.
Variable hybridSearcher : HybridSearcher.
Variable query : str.
Variable maxIterations topK : Z.

(** The body of [for (const chunk of retrievedChunks)]; the second
    component is [relevantCount]. *)
Definition grade_chunk (acc : state * Z) (chunk : SearchResult) : state * Z :=
  let '(st, relevantCount) := acc in
  let prompt := gradingPrompt (result_content chunk) query in
  let grade := gradeChunkRelevance (groq (trace st) prompt) in
  let st := record (Graded prompt) st in
  let chunk := graded chunk grade in
  if accepted grade then
    if negb (existsb (fun c => bool_decide (result_chunkId c = result_chunkId chunk))
               (allRelevantChunks st))
    then ({| currentQuery := currentQuery st; iteration := iteration st;
             allRelevantChunks := allRelevantChunks st ++ [chunk];
             trace := trace st |}, relevantCount + 1)
    else (st, relevantCount)
  else (st, relevantCount).

(** [currentQuery = await rewriteQuery(groqClient, from, config, feedback)]. *)
Definition rewrite (from feedback : str) (st : state) : state :=
  let prompt := rewritePrompt from (Some feedback) in
  let rewritten := rewriteQuery (groq (trace st) prompt) from in
  record (Rewrote prompt)
    {| currentQuery := rewritten; iteration := iteration st;
       allRelevantChunks := allRelevantChunks st; trace := trace st |}.

(** [iteration++]. *)
Definition advance (st : state) : state :=
  {| currentQuery := currentQuery st; iteration := iteration st + 1;
     allRelevantChunks := allRelevantChunks st; trace := trace st |}.

(** One turn of the [while] loop from the search on; the flag tells
    whether the loop goes on ([false] is the [break]). *)
Definition examine (st : state) (retrievedChunks : list SearchResult) : state * bool :=
  let st := record (Searched (currentQuery st) topK retrievedChunks) st in
  if len retrievedChunks =? 0 then
    (rewrite (currentQuery st) (lit "No results found") st, true)
  else
    let '(st, relevantCount) := fold_left grade_chunk retrievedChunks (st, 0) in
    let st := record (Counted relevantCount (len (allRelevantChunks st))) st in
    if len (allRelevantChunks st) >=? 3 then (st, false)
    else if iteration st <? maxIterations then
      let feedback :=
        lit "Only found " ++ toString (len (allRelevantChunks st)) ++
        lit " relevant chunks. Need more specific information." in
      (rewrite query feedback st, true)
    else (st, true).

(** One turn of the [while] loop; [None] is an error thrown by the search. *)
Definition turn (st : state) : option (state * bool) :=
  let st := advance st in
  retrievedChunks ← search hybridSearcher (currentQuery st) topK 0.5 None;
  Some (examine st retrievedChunks).

(** [while (iteration < maxIterations)]; the counter grows on every turn,
    so a fuel above [maxIterations] is never used up. *)
Fixpoint loop (fuel : nat) (st : state) : option state :=
  match fuel with
  | O => None
  | S fuel' =>
      if iteration st <? maxIterations then
        match turn st with
        | Some (st', true) => loop fuel' st'
        | Some (st', false) => Some st'
        | None => None
        end
      else Some st
  end.

Definition initial : state :=
  {| currentQuery := query; iteration := 0; allRelevantChunks := []; trace := [] |}.

(** The fallback after the loop. *)
Definition fallback (st : state) : option state :=
  if len (allRelevantChunks st) =? 0 then
    fallbackResults ← search hybridSearcher query topK 0.5 None;
    Some (record (FellBack query topK fallbackResults)
            {| currentQuery := currentQuery st; iteration := iteration st;
               allRelevantChunks := allRelevantChunks st ++ fallbackResults;
               trace := trace st |})
  else Some st.

(** [correctiveRAGRetrieval]: the result and the trace of the run. *)
Definition correctiveRAGRetrieval : option (CorrectiveRAGResult * list event) :=
  st ← loop (S (Z.to_nat maxIterations)) initial;
  st ← fallback st;
  Some ({| Types.query := query;
           finalQuery := currentQuery st;
           iterations := iteration st;
           relevantChunks := allRelevantChunks st;
           totalFound := len (allRelevantChunks st) |}, trace st).

End Retrieval.

End CorrectiveRAG.

(** ** Values parsed from JSON *)

Module Json.
Import JS Types.

(** What [JSON.parse] returns. *)
#[warnings="-register-all"] Inductive json : Type :=
| JNull
| JBool (b : bool)
| JNumber (x : float)
| JString (s : str)
| JArray (items : list json)
| JObject (fields : list (str * json)).

(** What an expression yields: a value, or [undefined] ([None]). *)
Definition value : Type := option json.

(** Truthiness, for [v || d], [v && w] and [if (v)]. *)
Definition truthy (v : value) : bool :=
  match v with
  | None | Some JNull => false
  | Some (JBool b) => b
  | Some (JNumber x) => negb (PrimFloat.eqb x 0 || PrimFloat.is_nan x)
  | Some (JString s) => nonempty s
  | Some (JArray _) | Some (JObject _) => true
  end.

(** [data.name] for a name that no built-in prototype defines: on an object
    it is the own property of that name, on [null] it is a TypeError
    ([None]), on every other value it is [undefined]. *)
Definition get (data : json) (name : string) : option value :=
  match data with
  | JNull => None
  | JObject fields =>
      Some (option_map snd (List.find (fun field => bool_decide (fst field = lit name)) fields))
  | _ => Some None
  end.

(** Whether the conversion of a value to a string throws, as in a template
    literal, in [join] and in a property key: an object parsed from JSON
    throws when it has an own [toString], which is never callable (the
    inherited [valueOf] returns the object); an array is joined, and its
    items other than [null] are converted in turn. *)
Fixpoint unprintable (data : json) : bool :=
  match data with
  | JArray items => existsb unprintable items
  | JObject fields => existsb (fun field => bool_decide (fst field = lit "toString")) fields
  | _ => false
  end.

(** [Array.isArray(v) ? v : []]. *)
Definition array_or_empty (v : value) : list json :=
  match v with
  | Some (JArray items) => items
  | _ => []
  end.

(** [v || null]. *)
Definition or_null (v : value) : json :=
  match v with
  | Some data => if truthy v then data else JNull
  | None => JNull
  end.

End Json.

(** ** The fences around a JSON answer *)

Module Fences.
Import JS Regex Types.

(** A letter under the [i] flag. *)
Definition letter (lower upper : ascii) : regex :=
  Chr (fun c => Ascii.eqb c lower || Ascii.eqb c upper).

Definition backticks : regex := Seq (char "`") (Seq (char "`") (char "`")).

Definition optional (r : regex) : regex := Rep 0 (Some 1%nat) true r.

(** [/^```(?:json)?\s*\n?/i] *)
Definition opening_fence : regex :=
  Seq Bos
    (Seq backticks
       (Seq (optional (Seq (letter "j" "J") (Seq (letter "s" "S")
                        (Seq (letter "o" "O") (letter "n" "N")))))
          (Seq (star (Chr is_space)) (optional (char (ascii_of_N 10)))))).

(** [/\n?```\s*$/i] up to its [$]. *)
Definition closing_fence : regex :=
  Seq (optional (char (ascii_of_N 10))) (Seq backticks (star (Chr is_space))).

(** [$] without the [m] flag as the last term of a pattern: the match is
    accepted only where the input ends. *)
Definition at_end : cont :=
  fun y => match rest y with [] => Some y | _ => None end.

(** The offset of the leftmost match that reaches the end of the input. *)
Fixpoint search_to_end (r : regex) (before : option ascii) (s : str) : option nat :=
  match run r at_end (MState before s []) with
  | Some _ => Some O
  | None =>
      match s with
      | c :: s' => option_map S (search_to_end r (Some c) s')
      | [] => None
      end
  end.

(** [s.replace(re, '')] without the [g] flag: the first match is cut out. *)
Definition remove_first (r : regex) (s : str) : str :=
  match search r None s with
  | Some (off, y) => firstn off s ++ rest y
  | None => s
  end.

(** The same for a pattern that ends in [$]. *)
Definition remove_to_end (r : regex) (s : str) : str :=
  match search_to_end r None s with
  | Some off => firstn off s
  | None => s
  end.

(** [let cleanedText = result.trim();
     cleanedText = cleanedText.replace(/^```(?:json)?\s*\n?/i, '');
     cleanedText = cleanedText.replace(/\n?```\s*$/i, '')]. *)
Definition cleaned (result : str) : str :=
  remove_to_end closing_fence (remove_first opening_fence (trim result)).

End Fences.

(** ** Tagging and metadata ([tagging.ts]) *)

Module Tagging.
Import JS Types CorrectiveRAG Json Fences.

(** A text of a prompt between double quotes. *)
Definition quoted (s : string) : str := ascii_of_N 34 :: lit s ++ [ascii_of_N 34].

(** [TaggedChunk] as the tagging builds it: the tags are the items of the
    parsed array, whatever they are. *)
Record TaggedChunk : Type := {
  chunk : Chunk;
  chunkId : Z;
  tags : list json
}.

(** [DocumentMetadata]; [JNull] is [null]. *)
Record DocumentMetadata : Type := {
  authors : json;
  date : json
}.

(** What [tagSingleChunk] returns. *)
Record Tags : Type := {
  found_tags : list json;
  found_authors : json;
  found_date : json
}.

Definition no_tags : Tags :=
  {| found_tags := []; found_authors := JNull; found_date := JNull |}.

(** The JSON format that both prompts ask for, with its three examples. *)
Definition format (tags authors date : str) : str :=
  lit "{
  " ++ quoted "tags" ++ lit ": [" ++ tags ++ lit "],
  " ++ quoted "authors" ++ lit ": " ++ authors ++ lit ",
  " ++ quoted "date" ++ lit ": " ++ date ++ lit "
}".

Definition taggingPrompt (chunkContent : str) : str :=
  lit "Analyze this text chunk from a research paper and return ONLY a valid JSON object.

Assign tags based on content:
- <summary>: abstract, introduction, conclusion
- <research_methods>: methodology, study design, data collection
- <findings_conclusion>: results, findings, conclusions
- <metadata>: authors, dates, affiliations

Extract metadata if present:
- Authors: full names of authors if found. generally found close to the start of the document
- Date: publication date if found

Return JSON in this exact format:
" ++ format (quoted "<tag1>" ++ lit ", " ++ quoted "<tag2>")
            (quoted "author names or null") (quoted "date or null") ++ lit "

IMPORTANT: Return ONLY the JSON object with no markdown formatting, no code blocks, no additional text.

Text:
" ++ slice chunkContent 0 (Some 2000).

Definition enhancedPrompt (chunkContent : str) : str :=
  lit "Extract metadata from this research paper chunk. Return ONLY a valid JSON object.

Look for:
- Author names (full names, usually at the beginning)
- Publication date (year, month, or full date)
- Content tags

Return JSON in this exact format:
" ++ format (quoted "<summary>" ++ lit ", " ++ quoted "<research_methods>" ++ lit ", "
             ++ quoted "<findings_conclusion>" ++ lit ", " ++ quoted "<metadata>")
            (quoted "comma-separated full names or null")
            (quoted "publication date (YYYY, MM/YYYY, or DD/MM/YYYY) or null") ++ lit "

IMPORTANT: Return ONLY the JSON object with no markdown formatting, no code blocks, no additional text.

Text:
" ++ slice chunkContent 0 (Some 3000).

(** [response.choices[0]?.message?.content || '']. *)
Definition content_of (body : option str) : str := default [] body.

(** The body of [for (const line of result.split('\n'))] in the fallback of
    [tagSingleChunk]. *)
Definition read_line (found : Tags) (line : str) : Tags :=
  if startsWith (lit "TAGS:") line then
    let tagsStr := trim (replace (lit "TAGS:") [] line) in
    {| found_tags :=
         map JString
           (List.filter (fun t => (0 <? length t)%nat) (map trim (split_char "," tagsStr)));
       found_authors := found_authors found; found_date := found_date found |}
  else if startsWith (lit "AUTHORS:") line then
    let authorsStr := trim (replace (lit "AUTHORS:") [] line) in
    if negb (bool_decide (toLowerCase authorsStr = lit "none"))
    then {| found_tags := found_tags found; found_authors := JString authorsStr;
            found_date := found_date found |}
    else found
  else if startsWith (lit "DATE:") line then
    let dateStr := trim (replace (lit "DATE:") [] line) in
    if negb (bool_decide (toLowerCase dateStr = lit "none"))
    then {| found_tags := found_tags found; found_authors := found_authors found;
            found_date := JString dateStr |}
    else found
  else found.

Section Parser.
(** [JSON.parse]; [None] is its SyntaxError. *)
Variable JSON_parse : str -> option json.

(** [tagSingleChunk], given the answer of the service to its prompt. *)
Definition tagSingleChunk (answer : completion) : Tags :=
  match answer with
  | Failure => no_tags
  | Message body =>
      let result := content_of body in
      match JSON_parse (cleaned result) with
      | None => fold_left read_line (split_char (ascii_of_N 10) result) no_tags
      | Some parsedData =>
          match get parsedData "tags", get parsedData "authors", get parsedData "date" with
          | Some tags, Some authors, Some date =>
              {| found_tags := array_or_empty tags;
                 found_authors := or_null authors;
                 found_date := or_null date |}
          | _, _, _ => no_tags
          end
      end
  end.

(** The variables of [tagChunksAndExtractMetadata]. *)
Record state : Type := {
  documentMetadata : DocumentMetadata;
  taggedChunks : list TaggedChunk
}.

Definition push (chunk : Chunk) (i : Z) (tags : list json) (st : state) : state :=
  {| documentMetadata := documentMetadata st;
     taggedChunks := taggedChunks st ++ [{| chunk := chunk; chunkId := i; tags := tags |}] |}.

(** [if (found && !documentMetadata.authors) { documentMetadata.authors =
    found; logger.info(`Found authors: ${found}`) }]: the flag tells whether
    the template literal threw, after the assignment. *)
Definition keep_authors (found : value) (st : state) : state * bool :=
  if truthy found && negb (truthy (Some (authors (documentMetadata st)))) then
    match found with
    | Some data =>
        ({| documentMetadata := {| authors := data; date := date (documentMetadata st) |};
            taggedChunks := taggedChunks st |}, unprintable data)
    | None => (st, false)
    end
  else (st, false).

Definition keep_date (found : value) (st : state) : state * bool :=
  if truthy found && negb (truthy (Some (date (documentMetadata st)))) then
    match found with
    | Some data =>
        ({| documentMetadata := {| authors := authors (documentMetadata st); date := data |};
            taggedChunks := taggedChunks st |}, unprintable data)
    | None => (st, false)
    end
  else (st, false).

(** Whether [tags?.join(', ')] throws: [undefined] and [null] stop the
    chain, an array is joined, and no other value has a callable [join]. *)
Definition join_throws (tags : value) : bool :=
  match tags with
  | None | Some JNull => false
  | Some (JArray items) => existsb unprintable items
  | Some _ => true
  end.

(** The inner [try] of the first pass, after [JSON.parse]: the state, and
    whether a TypeError was thrown on the way. *)
Definition first_pass_try (parsedData : json) (chunk : Chunk) (i : Z) (st : state)
    : state * bool :=
  match get parsedData "authors" with
  | None => (st, true)
  | Some found_authors =>
      let '(st, thrown) := keep_authors found_authors st in
      if thrown then (st, true)
      else
        match get parsedData "date" with
        | None => (st, true)
        | Some found_date =>
            let '(st, thrown) := keep_date found_date st in
            if thrown then (st, true)
            else
              match get parsedData "tags" with
              | None => (st, true)
              | Some tags =>
                  (push chunk i (array_or_empty tags) st, join_throws tags)
              end
        end
  end.

(** One turn of the first loop, given the answer of the service. *)
Definition first_pass (answer : completion) (chunk : Chunk) (i : Z) (st : state) : state :=
  match answer with
  | Failure => push chunk i [] st
  | Message body =>
      match JSON_parse (cleaned (content_of body)) with
      | None => push chunk i [] st
      | Some parsedData =>
          let '(st, thrown) := first_pass_try parsedData chunk i st in
          if thrown then push chunk i [] st else st
      end
  end.

(** One turn of the second loop, given the answer of the service. *)
Definition second_pass (answer : completion) (chunk : Chunk) (i : Z) (st : state) : state :=
  let found := tagSingleChunk answer in
  let '(st, thrown) := keep_authors (Some (found_authors found)) st in
  if thrown then push chunk i [] st
  else
    let '(st, thrown) := keep_date (Some (found_date found)) st in
    if thrown then push chunk i [] st
    else
      let st := push chunk i (found_tags found) st in
      if existsb unprintable (found_tags found) then push chunk i [] st else st.

(** The service, by the index of the chunk it is asked about. *)
Variable groq : nat -> str -> completion.

(** The two loops in one: the first [Math.min(3, chunks.length)] chunks
    take the first pass. *)
Fixpoint passes (i : nat) (pending : list Chunk) (st : state) : state :=
  match pending with
  | [] => st
  | chunk :: pending' =>
      let st :=
        if (i <? 3)%nat
        then first_pass (groq i (enhancedPrompt (content chunk))) chunk (Z.of_nat i) st
        else second_pass (groq i (taggingPrompt (content chunk))) chunk (Z.of_nat i) st in
      passes (S i) pending' st
  end.

(** [tagChunksAndExtractMetadata]; [None] is the TypeError of the tag
    count, where an unprintable tag is used as a property key. *)
Definition tagChunksAndExtractMetadata (chunks : list Chunk)
    : option (list TaggedChunk * DocumentMetadata) :=
  let st := passes 0 chunks
              {| documentMetadata := {| authors := JNull; date := JNull |};
                 taggedChunks := [] |} in
  if existsb (fun tagged => existsb unprintable (tags tagged)) (taggedChunks st)
  then None
  else Some (taggedChunks st, documentMetadata st).

End Parser.

End Tagging.

(** ** Extraction and answers ([extraction.ts]) *)

Module Extraction.
Import JS Types VectorStoreM HybridSearch CorrectiveRAG Json Fences.

(** [ExtractionResult]: each field is the parsed value, or a default text. *)
Record ExtractionResult : Type := {
  authors : json;
  date : json;
  documentType : json;
  summary : json;
  methods : json;
  findings : json
}.

Record QueryAnswerResult : Type := {
  answered_query : str;
  answer : str;
  sourceChunks : list SearchResult
}.

(** [parts.join(sep)]. *)
Fixpoint join (sep : str) (parts : list str) : str :=
  match parts with
  | [] => []
  | [part] => part
  | part :: parts' => part ++ sep ++ join sep parts'
  end.

Definition separator : str := lit "

---

".

(** [result.relevantChunks.slice(0, count).map(c => c.content.slice(0,
    width)).join('\n\n---\n\n')]. *)
Definition context (result : CorrectiveRAGResult) (count width : Z) : str :=
  join separator
    (map (fun c => slice (result_content c) 0 (Some width))
       (slice (relevantChunks result) 0 (Some count))).

(** The queries of the six sections, in the order of [Object.entries]. *)
Definition queries : list str :=
  [lit "Who are the authors of this paper? List all author names.";
   lit "What is the publication date or year of this paper?";
   lit "What type of document is this? Examples: case study, clinical trial, review article, meta-analysis, research article, technical workshop paper, etc.";
   lit "What is the abstract, main purpose, and overview of this paper?";
   lit "What research methods, study design, and analytical approaches were used?";
   lit "What are the key findings, discussions, overall results, results from tables and graphs and conclusions?"].

Definition quoted (s : string) : str := Tagging.quoted s.

(** A line of the format that the final prompt asks for. *)
Definition field (name text : string) : str :=
  lit "  " ++ quoted name ++ lit ": " ++ quoted text.

Definition instructions : str :=
  lit "You are a research paper analyst. Extract information from the provided context chunks and return ONLY a valid JSON object.

Based on the context provided, extract the information and respond with a JSON object in this exact format:

{
" ++ field "authors" "comma-separated list of author names" ++ lit ",
" ++ field "date" "publication date (year, month/year, or full date)" ++ lit ",
" ++ field "documentType" "type of document (e.g., meta-analysis, research article, case study, etc.)" ++ lit ",
" ++ field "summary" "2-3 sentence summary of the document's main purpose and overview" ++ lit ",
" ++ field "methods" "Give bullet points for study design, data sources, sample size, and analytical methods and give a brief sumamary of the research methods" ++ lit ",
" ++ field "findings" "Add bullet points and summarise primary outcomes, infernce from graphs and tables, statistical significance, conclusions, and implications" ++ lit "
}

IMPORTANT: Return ONLY the JSON object with no markdown formatting, no code blocks, no additional text.
".

(** A section of the final prompt. *)
Definition section (title : string) (text : str) : str :=
  lit "
---
" ++ lit title ++ lit " CONTEXT:
" ++ text ++ lit "
".

Definition finalPrompt (results : list CorrectiveRAGResult) : str :=
  let at_ i := nth i results
                 {| Types.query := []; finalQuery := []; iterations := 0;
                    relevantChunks := []; totalFound := 0 |} in
  instructions
  ++ section "AUTHORS" (slice (context (at_ 0%nat) 3 2000) 0 (Some 2000))
  ++ section "DATE" (slice (context (at_ 1%nat) 3 2000) 0 (Some 2000))
  ++ section "DOCUMENT TYPE" (slice (context (at_ 2%nat) 3 2500) 0 (Some 3000))
  ++ section "SUMMARY" (slice (context (at_ 3%nat) 3 2500) 0 (Some 4000))
  ++ section "METHODS" (slice (context (at_ 4%nat) 3 2500) 0 (Some 4000))
  ++ section "FINDINGS" (slice (context (at_ 5%nat) 3 2500) 0 (Some 3000)).

(** [parsedData] before the answer is parsed. *)
Definition unparsed : json :=
  JObject [(lit "documentType", JString (lit "Not extracted"));
           (lit "date", JString (lit "Not found"));
           (lit "summary", JString (lit "Not extracted"));
           (lit "methods", JString (lit "Not extracted"));
           (lit "findings", JString (lit "Not extracted"))].

(** [v || 'text']. *)
Definition or_text (v : value) (text : string) : json :=
  match v with
  | Some data => if truthy v then data else JString (lit text)
  | None => JString (lit text)
  end.

(** The record built from [parsedData]; [None] is the TypeError of a
    property read on [null]. *)
Definition extraction_of (parsedData : json) : option ExtractionResult :=
  authors ← get parsedData "authors";
  date ← get parsedData "date";
  documentType ← get parsedData "documentType";
  summary ← get parsedData "summary";
  methods ← get parsedData "methods";
  findings ← get parsedData "findings";
  Some {| authors := or_text authors "Not found";
          date := or_text date "Not found";
          documentType := or_text documentType "Not extracted";
          summary := or_text summary "Not extracted";
          methods := or_text methods "Not extracted";
          findings := or_text findings "Not extracted" |}.

Definition answerPrompt (query context : str) : str :=
  lit "Based on the following document sections, answer the user's question comprehensively and accurately.

Question: " ++ query ++ lit "

Relevant Document Sections:
" ++ context ++ lit "

Provide a detailed answer based only on the information in the document sections above. If the information is not sufficient to answer the question, state that clearly.".

Section Service.
(** [JSON.parse]; [None] is its SyntaxError. *)
Variable JSON_parse : str -> option json.
Variable groq : service.
Variable hybridSearcher : HybridSearcher.

(** The retrievals of [for (const [section, query] of
    Object.entries(queries))], one after the other; the service sees what
    the earlier ones did. [None] is an error thrown by a search. *)
Fixpoint retrievals (history : list event) (pending : list str)
    : option (list CorrectiveRAGResult * list event) :=
  match pending with
  | [] => Some ([], history)
  | query :: pending' =>
      match correctiveRAGRetrieval (fun seen => groq (history ++ seen))
              hybridSearcher query 2 5 with
      | Some (result, tr) =>
          match retrievals (history ++ tr) pending' with
          | Some (results, history') => Some (result :: results, history')
          | None => None
          end
      | None => None
      end
  end.

(** [extractDocumentInformation]; [None] is a thrown error. *)
Definition extractDocumentInformation : option ExtractionResult :=
  match retrievals [] queries with
  | Some (results, history) =>
      match groq history (finalPrompt results) with
      | Failure => None
      | Message body =>
          let extractionText := default [] body in
          let parsedData :=
            match JSON_parse (cleaned extractionText) with
            | Some data => data
            | None => unparsed
            end in
          extraction_of parsedData
      end
  | None => None
  end.

(** [answerQuery]; [None] is a thrown error. *)
Definition answerQuery (query : str) : option QueryAnswerResult :=
  match correctiveRAGRetrieval groq hybridSearcher query 3 5 with
  | Some (ragResult, tr) =>
      let context :=
        join separator
          (map (fun c => slice (result_content c) 0 (Some 2000))
             (slice (relevantChunks ragResult) 0 (Some 5))) in
      match groq tr (answerPrompt query context) with
      | Failure => None
      | Message body =>
          let answer :=
            match body with
            | Some (c :: text) => c :: text
            | _ => lit "Unable to generate answer"
            end in
          Some {| answered_query := query; answer := answer;
                  sourceChunks := relevantChunks ragResult |}
      end
  | None => None
  end.

End Service.

End Extraction.

(** ** The pipeline ([correctiveRAGPipeline.ts]) and its command line ([index.ts]) *)

Module Pipeline.
Import JS Types Chunking.

(** Step 2 of [runCorrectiveRAGPipeline] and of [runQueryMode]: the chunks
    of the markdown text, or those of the HTML text when the markdown gives
    exactly one chunk; [None] is the thrown error. *)
Definition chunks_of_document (markdown html : str) (config : ChunkingConfig)
    : option (list Chunk) :=
  match chunkDocument markdown config with
  | Some chunks =>
      if len chunks =? 1 then
        match chunkDocument html config with
        | Some chunks => if len chunks =? 0 then None else Some chunks
        | None => None
        end
      else Some chunks
  | None => None
  end.

(** The configuration that [main] passes. *)
Definition chunkingConfig : ChunkingConfig :=
  {| minChunkSize := 1000; maxChunkSize := 8000; overlap := 200 |}.

End Pipeline.

Module Cli.
Import JS Types.

(** What [parseArgs] returns. *)
Record Args : Type := {
  pdfPath : str;
  doclingApiUrl : option str;
  groqApiKey : str;
  outputPath : option str;
  query : option str
}.

(** The variables of the option loop; [None] is [undefined]. *)
Record options : Type := {
  opt_doclingApiUrl : option str;
  opt_groqApiKey : option str;
  opt_outputPath : option str;
  opt_query : option str
}.

Inductive outcome : Type :=
| Exit (code : Z)
| Parsed (args : Args).

(** The [switch] on an option and its value. *)
Definition set_option (key : str) (value : option str) (opts : options) : options :=
  if bool_decide (key = lit "--api-url") then
    {| opt_doclingApiUrl := value; opt_groqApiKey := opt_groqApiKey opts;
       opt_outputPath := opt_outputPath opts; opt_query := opt_query opts |}
  else if bool_decide (key = lit "--groq-key") then
    {| opt_doclingApiUrl := opt_doclingApiUrl opts; opt_groqApiKey := value;
       opt_outputPath := opt_outputPath opts; opt_query := opt_query opts |}
  else if bool_decide (key = lit "--output") then
    {| opt_doclingApiUrl := opt_doclingApiUrl opts; opt_groqApiKey := opt_groqApiKey opts;
       opt_outputPath := value; opt_query := opt_query opts |}
  else if bool_decide (key = lit "--query") then
    {| opt_doclingApiUrl := opt_doclingApiUrl opts; opt_groqApiKey := opt_groqApiKey opts;
       opt_outputPath := opt_outputPath opts; opt_query := value |}
  else opts.

(** [for (let i = 1; i < args.length; i += 2)] on the arguments from index
    1 on: [args[i + 1]] is [undefined] past the end. *)
Fixpoint read_options (rest : list str) (opts : options) : options :=
  match rest with
  | [] => opts
  | [key] => set_option key None opts
  | key :: value :: rest' => read_options rest' (set_option key (Some value) opts)
  end.

(** [parseArgs], given [process.argv.slice(2)] and [process.env.GROQ_API_KEY]. *)
Definition parseArgs (GROQ_API_KEY : option str) (args : list str) : outcome :=
  match args with
  | [] => Exit 0
  | pdfPath :: rest =>
      if bool_decide (lit "--help" ∈ args) || bool_decide (lit "-h" ∈ args) then Exit 0
      else
        let opts :=
          read_options rest
            {| opt_doclingApiUrl := Some (lit "http://localhost:8000");
               opt_groqApiKey := Some (match GROQ_API_KEY with
                                       | Some (c :: key) => c :: key
                                       | _ => []
                                       end);
               opt_outputPath := None; opt_query := None |} in
        match opt_groqApiKey opts with
        | Some (c :: key) =>
            Parsed {| pdfPath := pdfPath; doclingApiUrl := opt_doclingApiUrl opts;
                      groqApiKey := c :: key; outputPath := opt_outputPath opts;
                      query := opt_query opts |}
        | _ => Exit 1
        end
  end.

End Cli.

(** * The vocabulary of the properties *)

Module Spec.
Import JS Regex Types VectorStoreM HybridSearch CorrectiveRAG.

(** ** Regular expressions and chunks *)

(** A continuation is entered on a suffix of the input of the matcher. *)
Definition forward (m : cont -> cont) : Prop :=
  forall (k : cont) (x y : mstate),
    m k x = Some y ->
    exists x', rest x' `suffix_of` rest x /\ k x' = Some y.

(** A matcher looks at its continuation on the states ahead only. *)
Definition local (m : cont -> cont) : Prop :=
  forall (k1 k2 : cont) (x : mstate),
    (forall y, (length (rest y) <= length (rest x))%nat -> k1 y = k2 y) ->
    m k1 x = m k2 x.

(** The invariant of a chunk. *)
Definition counted (c : Chunk) : Prop := charCount c = Some (len (content c)).

(** A table of three rows, and nothing else. *)
Definition small_table : str := lit "|a|b|
|-|-|
|c|d|
".

Definition tight_config : ChunkingConfig :=
  {| minChunkSize := 1; maxChunkSize := 10; overlap := 2 |}.

(** ** Searches *)

(** Whether a chunk passes the tag filter of a search. *)
Definition passes (f : option str) (c : TaggedChunk) : bool :=
  match given f with
  | Some tag => has_tag (tags c) tag
  | None => true
  end.

Definition candidate_pairs (cs : list TaggedChunk) (f : option str)
    : list (nat * TaggedChunk) :=
  List.filter (fun '(_, c) => passes f c) (imap (fun idx c => (idx, c)) cs).

(** What a result of the hybrid search says about the chunk [c] that was
    ranked and the chunk [c'] that [getChunkById] read back for it. *)
Definition result_of (cs : list TaggedChunk) (f : option str) (r : SearchResult) : Prop :=
  relevanceGrade r = None /\
  exists c c' : TaggedChunk,
    c ∈ cs /\ passes f c = true /\ c' ∈ cs /\ chunkId c' = chunkId c /\
    result_chunkId r = chunkKey (chunkId c) /\
    result_tags r = tags c' /\ result_content r = content c' /\
    result_header r = header c'.

Definition embedding_of (c : TaggedChunk) : list float := generateSimpleEmbedding (content c).

(** The result that stands for a chunk ranked with a given score. *)
Definition result_for (score : float) (c : TaggedChunk) : SearchResult :=
  {| result_chunkId := chunkKey (chunkId c); result_score := score;
     result_header := header c; result_content := content c;
     result_tags := tags c; relevanceGrade := None |}.

(** A searcher over the chunks [cs], whatever its lexical index holds. *)
Definition searcher_over (bm : BM25M.BM25) (docs : list str) (s0 : VectorStore)
    (cs : list TaggedChunk) : HybridSearcher :=
  {| vectorStore := addChunks s0 cs; bm25 := bm; allDocuments := docs |}.

Definition plain_chunk (id : Z) (text : string) (labels : list string) : TaggedChunk :=
  {| chunk := {| header := lit "Section"; content := lit text;
                 charCount := Some (len (lit text)); containsTable := Some false |};
     chunkId := id; tags := map lit labels |}.

Definition three_chunks : list TaggedChunk :=
  [plain_chunk 0 "Machine learning in healthcare" ["summary"];
   plain_chunk 1 "Deep neural networks were trained" ["methods"];
   plain_chunk 2 "The model achieved high accuracy" ["findings"]].

(** The store of the tests of the controller: three chunks, and a lexical
    index that was never built. *)
Definition test_searcher : HybridSearcher :=
  searcher_over BM25M.new [] VectorStoreM.new three_chunks.

(** A store of one chunk. *)
Definition one_chunk : list TaggedChunk :=
  [plain_chunk 0 "Machine learning in healthcare" ["summary"]].

Definition lone_searcher : HybridSearcher :=
  searcher_over BM25M.new [] VectorStoreM.new one_chunk.

(** ** Runs of the controller *)

(** A service whose every call fails. *)
Definition failing_service : service := fun _ _ => Failure.

(** A service that approves every chunk. *)
Definition approving_service : service :=
  fun _ _ => Message (Some (lit "RELEVANT: yes
SCORE: high
REASON: on topic")).

(** The results of the searches of the loop, in order. *)
Definition searches (tr : list event) : list (list SearchResult) :=
  flat_map (fun e => match e with Searched _ _ rs => [rs] | _ => [] end) tr.

(** The prompts sent to the grader, in order. *)
Definition grading_prompts (tr : list event) : list str :=
  flat_map (fun e => match e with Graded p => [p] | _ => [] end) tr.

(** An event after which the loop does not stop for sufficiency. *)
Definition quiet (e : event) : Prop :=
  match e with Counted _ total => total < 3 | _ => True end.

(** Nothing follows a count that reached the threshold. *)
Definition settled (tr : list event) : Prop :=
  forall pre c t post, tr = pre ++ Counted c t :: post -> 3 <= t -> post = [].

(** The grading prompt for a retrieved chunk. *)
Definition prompt_of (query : str) (c : SearchResult) : str :=
  gradingPrompt (result_content c) query.

(** An event that is not a search. *)
Definition silent (e : event) : Prop :=
  match e with
  | Searched _ _ _ | FellBack _ _ _ => False
  | _ => True
  end.

(** A search event holds what the hybrid search returned for its query. *)
Definition faithful (searcher : HybridSearcher) (topK : Z) (e : event) : Prop :=
  match e with
  | Searched q k rs | FellBack q k rs =>
      k = topK /\ search searcher q k 0.5 None = Some rs
  | _ => True
  end.

(** What holds of the state between two turns. *)
Record invariant (searcher : HybridSearcher) (query : str) (maxIterations topK : Z)
    (st : state) : Prop := {
  inv_count : len (searches (trace st)) = iteration st;
  inv_bound : 0 <= iteration st <= Z.max maxIterations 0;
  inv_grades : grading_prompts (trace st)
               = flat_map (map (prompt_of query)) (searches (trace st));
  inv_keys : NoDup (result_chunkId <$> allRelevantChunks st);
  inv_faithful : Forall (faithful searcher topK) (trace st)
}.

(** How a turn ends: the loop goes on after quiet events only, and it
    breaks right after a count of at least three. *)
Definition ends (go : bool) (st : state) : Prop :=
  if go then Forall quiet (trace st)
  else exists pre c, trace st = pre ++ [Counted c (len (allRelevantChunks st))] /\
                     Forall quiet pre /\ 3 <= len (allRelevantChunks st).

(** Evaluates a run and gives its result and its trace as the witnesses. *)
Ltac run_to_the_end run :=
  let outcome := eval vm_compute in run in
  match outcome with
  | Some (?result, ?tr) => exists result, tr
  end.

End Spec.

(** ** Sections, headings and tables *)

Module SegmentationTerms.
Import JS Regex Types Chunking.


(** The sections cut at the headings, before they are merged and split. *)
Definition rawChunks (tables : list (str * TableRange)) (markdownText : str) : list Chunk :=
  flat_map (rawChunk (map snd tables)) (matchAll headerPattern markdownText).

(** The text starts with a line break and a heading marker, or with the
    letter Z: what the lookahead of the header pattern asks for. *)
Definition heading_or_Z_ahead (s : str) : Prop :=
  (exists s', s = LF :: "#"%char :: s') \/ (exists s', s = "Z"%char :: s').

(** A line break with a [#] right after it. *)
Fixpoint heading_inside (s : str) : bool :=
  match s with
  | c :: s' =>
      (Ascii.eqb c LF && match s' with d :: _ => Ascii.eqb d "#" | [] => false end)
      || heading_inside s'
  | [] => false
  end.

(** The matches of a scan lie one after the other from [from] on. *)
Fixpoint chain (from : nat) (found : list found) : Prop :=
  match found with
  | [] => True
  | m :: found' =>
      (from <= index m)%nat /\ (0 < length (text m))%nat /\
      chain (index m + length (text m)) found'
  end.

(** The text does not start with a [#]. *)
Definition no_hash_first (s : str) : Prop :=
  match s with c :: _ => Ascii.eqb "#" c = false | [] => True end.

(** A table sits in the text where its range says. *)
Definition sits_in (markdownText : str) (table : str * TableRange) : Prop :=
  let '(content, range) := table in
  0 <= start range < stop range /\ stop range <= len markdownText /\
  content = slice markdownText (start range) (Some (stop range)).

(** Ranges that follow one another without overlap, from [from] on. *)
Fixpoint in_a_row (from : Z) (ranges : list TableRange) : Prop :=
  match ranges with
  | [] => True
  | r :: ranges' => from <= start r /\ start r < stop r /\ in_a_row (stop r) ranges'
  end.

Definition headed_document : str := lit "# Data
|a|b|
|-|-|
|c|d|

# Notes
Zero or more remarks.
".

Definition usual_config : ChunkingConfig :=
  {| minChunkSize := 1000; maxChunkSize := 8000; overlap := 200 |}.

Definition titled_note : str := lit "# Title
A short body.".

End SegmentationTerms.

(** ** The trace of the corrective loop *)

Module RetrievalTerms.
Import JS Types VectorStoreM HybridSearch CorrectiveRAG Spec.

(** The prompts sent to the rewriter, in order. *)
Definition rewrite_prompts (tr : list event) : list str :=
  flat_map (fun e => match e with Rewrote p => [p] | _ => [] end) tr.

(** The queries of the searches of the loop, in order. *)
Definition searched_queries (tr : list event) : list str :=
  flat_map (fun e => match e with Searched q _ _ => [q] | _ => [] end) tr.

(** A returned chunk that is a result [r] of a search of the loop with an
    accepting grade attached. *)
Definition accepted_from (tr : list event) (c : SearchResult) : Prop :=
  exists rs r g, In rs (searches tr) /\ In r rs /\ c = graded r g /\ accepted g = true.

End RetrievalTerms.

(** ** The answer of the grader *)

Module GradingTerms.
Import JS Types CorrectiveRAG.

(** The lines of the answer of the grader. *)
Definition answer_lines (body : option str) : list str :=
  split_char (ascii_of_N 10) (default [] body).

(** A line that says the chunk is relevant. *)
Definition says_relevant (line : str) : Prop :=
  startsWith (lit "RELEVANT:") line = true /\
  includes (lit "yes") (toLowerCase line) = true.

(** A line that gives one of the two scores that count. *)
Definition scores_well (line : str) : Prop :=
  startsWith (lit "SCORE:") line = true /\
  (parse_score (toLowerCase (trim (replace (lit "SCORE:") [] line))) = Some high \/
   parse_score (toLowerCase (trim (replace (lit "SCORE:") [] line))) = Some medium).

End GradingTerms.

(** ** Tokens *)

Module LexicalTerms.
Import JS Regex Types.

(** A lower-case letter of the basic alphabet, a digit or an underscore. *)
Definition is_token_char (c : ascii) : bool :=
  let n := code c in
  ((97 <=? n) && (n <=? 122) || (48 <=? n) && (n <=? 57) || (n =? 95))%N.

End LexicalTerms.

(** ** Tagged chunks and metadata *)

Module TaggingTerms.
Import JS Types CorrectiveRAG Json Fences Tagging.

Definition untagged (c : Chunk) (i : Z) : TaggedChunk :=
  {| chunk := c; chunkId := i; tags := [] |}.

(** What the tagging leaves for the chunk [c] of index [i]: one entry, and
    for any of the first three chunks possibly a second one, without tags. *)
Definition entry_of (i : nat) (c : Chunk) (out : list TaggedChunk) : Prop :=
  exists tags,
    out = [{| chunk := c; chunkId := Z.of_nat i; tags := tags |}] \/
    ((i < 3)%nat /\
     out = [{| chunk := c; chunkId := Z.of_nat i; tags := tags |}; untagged c (Z.of_nat i)]).

(** The entries of the chunks, one chunk after the other, from index [i]. *)
Fixpoint in_order (i : nat) (chunks : list Chunk) (tagged : list TaggedChunk) : Prop :=
  match chunks with
  | [] => tagged = []
  | c :: chunks' =>
      exists out rest,
        tagged = out ++ rest /\ entry_of i c out /\ in_order (S i) chunks' rest
  end.

(** The value for [authors] that the answer about a chunk offers: in the
    first pass the property of the parsed answer, in the second pass what
    [tagSingleChunk] reports. *)
Definition offered_authors (JSON_parse : str -> option json) (first : bool)
    (answer : completion) : value :=
  if first then
    match answer with
    | Message body =>
        match JSON_parse (cleaned (content_of body)) with
        | Some data => match get data "authors" with Some v => v | None => None end
        | None => None
        end
    | Failure => None
    end
  else Some (found_authors (tagSingleChunk JSON_parse answer)).

(** The answers about the chunks, with their pass, from index [i]. *)
Definition offers (JSON_parse : str -> option json) (groq : nat -> str -> completion)
    (i : nat) (chunks : list Chunk) : list value :=
  imap (fun k c =>
          if (i + k <? 3)%nat
          then offered_authors JSON_parse true (groq (i + k)%nat (enhancedPrompt (content c)))
          else offered_authors JSON_parse false (groq (i + k)%nat (taggingPrompt (content c))))
       chunks.

Definition first_truthy (vs : list value) : json :=
  match List.find truthy vs with
  | Some (Some data) => data
  | _ => JNull
  end.

(** A text as [trim] leaves it. *)
Definition trimmed (s : str) : Prop := trim s = s.

(** What one turn of a loop appends: an entry, or an entry and an untagged
    one; the latter past the first pass only with a tag that cannot be
    printed. *)
Definition turn_out (i : nat) (c : Chunk) (out : list TaggedChunk) : Prop :=
  exists tags,
    out = [{| chunk := c; chunkId := Z.of_nat i; tags := tags |}] \/
    (((i < 3)%nat \/ existsb unprintable tags = true) /\
     out = [{| chunk := c; chunkId := Z.of_nat i; tags := tags |}; untagged c (Z.of_nat i)]).

(** The entries that the two loops append, in order. *)
Fixpoint appended (i : nat) (chunks : list Chunk) (tagged : list TaggedChunk) : Prop :=
  match chunks with
  | [] => tagged = []
  | c :: chunks' =>
      exists out rest,
        tagged = out ++ rest /\ turn_out i c out /\ appended (S i) chunks' rest
  end.

(** What holds of the tags and of a metadata value read from lines. *)
Definition plain_tag (t : json) : Prop :=
  exists s, t = JString s /\ s <> [] /\ trimmed s.

Definition plain_text (v : json) : Prop :=
  v = JNull \/ exists s, v = JString s /\ trimmed s /\ toLowerCase s <> lit "none".

(** [authors] after an answer that offers [v]: the first value that is
    truthy stays. *)
Definition kept (current : json) (v : value) : json :=
  if truthy (Some current) then current
  else match v with
       | Some data => if truthy v then data else current
       | None => current
       end.

(** A service that gives the same answer to every request. *)
Definition answers_with (body : str) : nat -> str -> completion :=
  fun _ _ => Message (Some body).

(** A parser that reads the same value from every text. *)
Definition parses_to (data : json) : str -> option json := fun _ => Some data.

Definition sample_chunk : Chunk :=
  {| header := lit "Introduction"; content := lit "A study of chunking.";
     charCount := None; containsTable := None |}.

End TaggingTerms.

(** ** Extraction and answers *)

Module ExtractionTerms.
Import JS Types VectorStoreM HybridSearch CorrectiveRAG Json Fences Extraction.

(** The record that stands for an answer that could not be parsed. *)
Definition defaults : ExtractionResult :=
  {| authors := JString (lit "Not found");
     date := JString (lit "Not found");
     documentType := JString (lit "Not extracted");
     summary := JString (lit "Not extracted");
     methods := JString (lit "Not extracted");
     findings := JString (lit "Not extracted") |}.

(** Every field of an extraction is truthy. *)
Definition filled (r : ExtractionResult) : Prop :=
  truthy (Some (authors r)) = true /\ truthy (Some (date r)) = true /\
  truthy (Some (documentType r)) = true /\ truthy (Some (summary r)) = true /\
  truthy (Some (methods r)) = true /\ truthy (Some (findings r)) = true.

(** The context that [answerQuery] shows to the service. *)
Definition answer_context (ragResult : CorrectiveRAGResult) : str :=
  join separator
    (map (fun c => slice (result_content c) 0 (Some 2000))
       (slice (relevantChunks ragResult) 0 (Some 5))).

End ExtractionTerms.

(** ** Command-line arguments *)

Module CliTerms.
Import JS Types Cli.

(** The arguments are read without help being asked for. *)
Definition no_help (args : list str) : Prop :=
  (lit "--help" ∉ args) /\ (lit "-h" ∉ args).

Definition sample_arguments : list str :=
  [lit "--groq-key"; lit "old"; lit "--output"; lit "out.json"].

End CliTerms.

(** * Properties *)

(** ** Numbers as text, slices and sorting *)

Module JSFacts.
Import JS.

Lemma digit_not_space (c : ascii) : is_digit c = true -> is_space c = false.
Proof.
  unfold is_digit, is_space. intros H.
  apply andb_true_iff in H as [H1 H2].
  apply N.leb_le in H1. apply N.leb_le in H2.
  repeat (apply orb_false_iff; split);
    [apply andb_false_iff; right; apply N.leb_gt | apply N.eqb_neq ..]; lia.
Qed.

Lemma digit_not (c d : ascii) : is_digit c = true -> is_digit d = false -> Ascii.eqb c d = false.
Proof.
  intros Hc Hd. destruct (Ascii.eqb_spec c d) as [->|]; [congruence | reflexivity].
Qed.

Lemma uint_digits (d : Decimal.uint) :
  Forall (fun c => is_digit c = true) (list_ascii_of_string (NilEmpty.string_of_uint d)).
Proof.
  induction d; simpl; constructor; auto.
Qed.

Lemma digits_all (n : N) : Forall (fun c => is_digit c = true) (digits n).
Proof. apply uint_digits. Qed.

Lemma digits_nonempty (n : N) : digits n <> [].
Proof.
  unfold digits. intros H.
  destruct (N.to_uint n) eqn:E; simpl in H; try discriminate.
  pose proof (Unsigned.of_to n) as R. rewrite E in R. simpl in R. subst n.
  discriminate.
Qed.

Lemma take_while_all {A} (p : A -> bool) (l : list A) :
  Forall (fun x => p x = true) l -> take_while p l = l.
Proof.
  induction 1 as [|x l Hx _ IH]; simpl; [reflexivity|]. now rewrite Hx, IH.
Qed.

Lemma decimal_value_digits (n : N) : decimal_value (digits n) = n.
Proof.
  unfold decimal_value, digits.
  rewrite string_of_list_ascii_of_string, NilEmpty.usu.
  apply Unsigned.of_to.
Qed.

Lemma magnitude_digits (n : N) : magnitude (digits n) = Some n.
Proof.
  pose proof (digits_all n) as Hall.
  pose proof (digits_nonempty n) as Hne.
  pose proof (decimal_value_digits n) as Hval.
  pose proof (take_while_all is_digit _ Hall) as Htw.
  destruct (digits n) as [|z [|x r]]; [congruence | |].
  - unfold magnitude. rewrite Htw. now rewrite Hval.
  - unfold magnitude.
    assert (Hx : is_digit x = true).
    { inversion Hall as [|? ? _ Hr]; subst. now inversion Hr. }
    rewrite (digit_not x "x" Hx eq_refl), (digit_not x "X" Hx eq_refl).
    rewrite andb_false_r. rewrite Htw. now rewrite Hval.
Qed.

(** Reading back a printed integer gives the integer. *)
Lemma parseInt_toString (n : Z) : parseInt (toString n) = Some n.
Proof.
  unfold toString. destruct (Z.ltb_spec n 0) as [Hneg|Hpos].
  - unfold parseInt. simpl. rewrite magnitude_digits. f_equal. lia.
  - pose proof (digits_all (Z.to_N n)) as Hall.
    pose proof (digits_nonempty (Z.to_N n)) as Hne.
    pose proof (magnitude_digits (Z.to_N n)) as Hmag.
    destruct (digits (Z.to_N n)) as [|c s]; [congruence|].
    assert (Hc : is_digit c = true) by now inversion Hall.
    unfold parseInt. cbn [trimStart]. rewrite (digit_not_space c Hc).
    rewrite (digit_not c "-" Hc eq_refl), (digit_not c "+" Hc eq_refl).
    rewrite Hmag. f_equal. lia.
Qed.

Lemma toString_inj (a b : Z) : toString a = toString b -> a = b.
Proof.
  intros H. pose proof (parseInt_toString a) as Ha.
  rewrite H, parseInt_toString in Ha. congruence.
Qed.

(** [slice] keeps a contiguous part. *)
Lemma slice_sublist {A} (l : list A) (a : Z) (b : option Z) : slice l a b `sublist_of` l.
Proof.
  unfold slice. etransitivity; [apply sublist_take | apply sublist_drop].
Qed.

Lemma slice_prefix {A} (l : list A) (k : Z) :
  0 <= k -> slice l 0 (Some k) = firstn (Z.to_nat k) l.
Proof.
  intros Hk. unfold slice, clamp_index.
  destruct (Z.ltb_spec k 0); [lia|].
  change (0 <? 0) with false. cbv iota.
  replace (Z.min 0 (Z.of_nat (length l))) with 0 by lia.
  change (Z.to_nat 0) with O. rewrite skipn_O, Z.sub_0_r.
  destruct (Z.le_ge_cases k (Z.of_nat (length l))).
  - rewrite Z.min_l, Z.max_l by lia. reflexivity.
  - rewrite Z.min_r, Z.max_l by lia.
    rewrite Nat2Z.id. rewrite !firstn_all2; [reflexivity | lia | lia].
Qed.

Lemma prefix_nonempty {A} (l : list A) (k : Z) :
  1 <= k -> l <> [] -> slice l 0 (Some k) <> [].
Proof.
  intros Hk Hl. rewrite slice_prefix by lia.
  destruct l; [congruence|].
  destruct (Z.to_nat k) eqn:E; [lia | discriminate].
Qed.

Lemma insert_sorted_perm {A} (cmp : A -> A -> float) (x : A) (l : list A) :
  Permutation (insert_sorted cmp x l) (x :: l).
Proof.
  induction l as [|y l IH]; simpl; [reflexivity|].
  destruct (PrimFloat.ltb 0 (cmp y x)); [reflexivity|].
  rewrite IH. apply perm_swap.
Qed.

Lemma sort_acc_perm {A} (cmp : A -> A -> float) (l acc : list A) :
  Permutation (fold_left (fun acc x => insert_sorted cmp x acc) l acc) (acc ++ l).
Proof.
  revert acc. induction l as [|x l IH]; intros acc; simpl.
  - now rewrite app_nil_r.
  - rewrite IH, insert_sorted_perm. apply Permutation_middle.
Qed.

(** Sorting rearranges and neither drops nor repeats an element. *)
Lemma sort_perm {A} (cmp : A -> A -> float) (l : list A) : Permutation (sort cmp l) l.
Proof. unfold sort. now rewrite sort_acc_perm. Qed.

(** When no comparison among the elements is positive, the order stays. *)
Lemma sort_keeps_order_on {A} (P : A -> Prop) (cmp : A -> A -> float) (l : list A) :
  (forall x y, P x -> P y -> PrimFloat.ltb 0 (cmp x y) = false) ->
  Forall P l -> sort cmp l = l.
Proof.
  intros Hcmp.
  assert (Hins : forall x acc, P x -> Forall P acc -> insert_sorted cmp x acc = acc ++ [x]).
  { intros x acc Hx Hacc. induction Hacc as [|y acc Hy _ IH]; simpl; [reflexivity|].
    now rewrite (Hcmp y x Hy Hx), IH. }
  assert (Hfold : forall l acc, Forall P l -> Forall P acc ->
             fold_left (fun acc x => insert_sorted cmp x acc) l acc = acc ++ l).
  { clear l. intros l acc Hl. revert acc. induction Hl as [|x l Hx _ IH]; intros acc Hacc; simpl.
    - now rewrite app_nil_r.
    - rewrite (Hins x acc Hx Hacc), IH, <- app_assoc; [reflexivity|].
      apply Forall_app. split; [exact Hacc | now constructor]. }
  intros Hl. apply (Hfold l [] Hl). constructor.
Qed.

Lemma slice_map {A B} (g : A -> B) (l : list A) a b :
  slice (map g l) a b = map g (slice l a b).
Proof. unfold slice. rewrite length_map, skipn_map, firstn_map. reflexivity. Qed.

End JSFacts.

(** ** Regular expressions *)

Module RegexFacts.
Import JS Regex Spec.

Lemma repeat_forward (m : cont -> cont) (greedy : bool) :
  forward m -> forall fuel min max, forward (fun k => repeat m k greedy fuel min max).
Proof.
  intros Hm fuel. induction fuel as [|fuel IH]; intros min max k x y H; [discriminate|].
  cbn [repeat] in H.
  assert (Hk : k x = Some y -> exists x', rest x' `suffix_of` rest x /\ k x' = Some y)
    by eauto.
  assert (Hstep : forall d : cont,
             d = (fun y0 =>
                    if Nat.eqb min 0 && Nat.eqb (length (rest y0)) (length (rest x))
                    then None
                    else repeat m k greedy fuel (Nat.pred min) (option_map Nat.pred max) y0) ->
             m d x = Some y ->
             exists x', rest x' `suffix_of` rest x /\ k x' = Some y).
  { intros d -> H1. apply Hm in H1 as (x1 & Hl & H1).
    destruct (_ && _); [discriminate|].
    apply IH in H1 as (x' & Hl' & H1). exists x'. split; [now transitivity (rest x1) | exact H1]. }
  destruct max as [[|n]|]; [now apply Hk | |]; cbv zeta in H;
    (destruct (negb (Nat.eqb min 0)); [now apply (Hstep _ eq_refl)|]);
    (destruct greedy; unfold or_else in H;
     [ destruct (m _ x) eqn:E; [rewrite <- H in *; now apply (Hstep _ eq_refl) | now apply Hk]
     | destruct (k x) eqn:E; [rewrite <- H in *; now apply Hk | now apply (Hstep _ eq_refl)] ]).
Qed.

(** A match never moves backwards. *)
Lemma run_forward (r : regex) : forward (run r).
Proof.
  induction r as [|p|r1 IH1 r2 IH2|r1 IH1 r2 IH2|min max greedy r1 IH1| | |r1 IH1|p|];
    intros k x y H; cbn [run] in H.
  - eauto.
  - destruct (rest x) as [|c s'] eqn:E; [discriminate|].
    destruct (p c); [|discriminate].
    eexists; split; [|exact H]. cbn. now apply suffix_cons_r.
  - apply IH1 in H as (x1 & Hl1 & H). apply IH2 in H as (x2 & Hl2 & H).
    exists x2. split; [now transitivity (rest x1) | exact H].
  - unfold or_else in H. destruct (run r1 k x) eqn:E.
    + rewrite <- H in *. now apply IH1.
    + now apply IH2.
  - now apply (repeat_forward (run r1) greedy IH1) in H.
  - destruct (prev x) as [c|]; [destruct (is_line_terminator c); [|discriminate]|]; eauto.
  - destruct (prev x); [discriminate|]. eauto.
  - destruct (run r1 Some x); [|discriminate]. eauto.
  - destruct (prev x) as [c|]; [|discriminate]. destruct (p c); [|discriminate]. eauto.
  - eexists; split; [|exact H]. reflexivity.
Qed.

(** The end of a match is a suffix of the input it started on. *)
Lemma match_here_suffix (r : regex) (before : option ascii) (s : str) (y : mstate) :
  match_here r before s = Some y -> rest y `suffix_of` s.
Proof.
  unfold match_here. intros H. apply run_forward in H as (x' & Hs & H).
  injection H as <-. exact Hs.
Qed.

Lemma run_shorter (r : regex) (k : cont) (x y : mstate) :
  run r k x = Some y ->
  exists x', (length (rest x') <= length (rest x))%nat /\ k x' = Some y.
Proof.
  intros H. apply run_forward in H as (x' & Hs & H). exists x'.
  split; [now apply suffix_length | exact H].
Qed.

Lemma repeat_local (m : cont -> cont) (greedy : bool) :
  local m -> forall fuel min max, local (fun k => repeat m k greedy fuel min max).
Proof.
  intros Hm fuel. induction fuel as [|fuel IH]; intros min max k1 k2 x Hk; [reflexivity|].
  cbn [repeat]. rewrite (Hk x) by lia.
  assert (Hd : m (fun y =>
                   if Nat.eqb min 0 && Nat.eqb (length (rest y)) (length (rest x))
                   then None
                   else repeat m k1 greedy fuel (Nat.pred min) (option_map Nat.pred max) y) x
             = m (fun y =>
                   if Nat.eqb min 0 && Nat.eqb (length (rest y)) (length (rest x))
                   then None
                   else repeat m k2 greedy fuel (Nat.pred min) (option_map Nat.pred max) y) x).
  { apply Hm. intros y Hy. destruct (_ && _); [reflexivity|].
    apply IH. intros z Hz. apply Hk. lia. }
  cbv zeta. now rewrite Hd.
Qed.

Lemma run_local (r : regex) : local (run r).
Proof.
  induction r as [|p|r1 IH1 r2 IH2|r1 IH1 r2 IH2|min max greedy r1 IH1| | |r1 IH1|p|];
    intros k1 k2 x Hk; cbn [run].
  - apply Hk. lia.
  - destruct (rest x) as [|c s'] eqn:E; [reflexivity|].
    destruct (p c); [|reflexivity]. apply Hk. cbn. lia.
  - apply IH1. intros y Hy. apply IH2. intros z Hz. apply Hk. lia.
  - now rewrite (IH1 k1 k2 x Hk), (IH2 k1 k2 x Hk).
  - now apply (repeat_local (run r1) greedy IH1).
  - rewrite (Hk x) by lia. reflexivity.
  - rewrite (Hk x) by lia. reflexivity.
  - rewrite (Hk x) by lia. reflexivity.
  - rewrite (Hk x) by lia. reflexivity.
  - apply Hk. cbn. lia.
Qed.

(** The fuel of a quantifier is never used up: above the number of
    required iterations plus the length of the input, more fuel changes
    nothing. *)
Lemma repeat_fuel (m : cont -> cont) (k : cont) (greedy : bool) :
  local m ->
  forall fuel1 fuel2 min max x,
    (min + length (rest x) < fuel1)%nat -> (min + length (rest x) < fuel2)%nat ->
    repeat m k greedy fuel1 min max x = repeat m k greedy fuel2 min max x.
Proof.
  intros Hm fuel1. induction fuel1 as [|fuel1 IH]; intros fuel2 min max x H1 H2; [lia|].
  destruct fuel2 as [|fuel2]; [lia|]. cbn [repeat].
  assert (Hd : m (fun y =>
                   if Nat.eqb min 0 && Nat.eqb (length (rest y)) (length (rest x))
                   then None
                   else repeat m k greedy fuel1 (Nat.pred min) (option_map Nat.pred max) y) x
             = m (fun y =>
                   if Nat.eqb min 0 && Nat.eqb (length (rest y)) (length (rest x))
                   then None
                   else repeat m k greedy fuel2 (Nat.pred min) (option_map Nat.pred max) y) x).
  { apply Hm. intros y Hy.
    destruct (Nat.eqb_spec min 0) as [Hmin|Hmin];
      destruct (Nat.eqb_spec (length (rest y)) (length (rest x))) as [Hlen|Hlen];
      cbn [andb]; try reflexivity; apply IH; lia. }
  cbv zeta. now rewrite Hd.
Qed.

Lemma run_repeat_fuel (min : nat) (max : option nat) (greedy : bool) (r : regex)
    (k : cont) (x : mstate) (extra : nat) :
  run (Rep min max greedy r) k x
  = repeat (run r) k greedy (min + length (rest x) + 1 + extra) min max x.
Proof. cbn [run]. apply repeat_fuel; [apply run_local | lia | lia]. Qed.


(** A pattern that starts with a character class consumes input. *)
Lemma leading_class_consumes (p : ascii -> bool) (r : regex) (before : option ascii)
    (s : str) (y : mstate) :
  match_here (Seq (Chr p) r) before s = Some y -> (0 < consumed s y)%nat.
Proof.
  unfold match_here, consumed. cbn [run rest]. intros H.
  destruct s as [|c s']; [discriminate|]. destruct (p c); [|discriminate].
  apply run_shorter in H as (x' & Hl & H). injection H as <-. cbn in *. lia.
Qed.

Lemma search_offset (r : regex) (before : option ascii) (s : str) (off : nat) (y : mstate) :
  search r before s = Some (off, y) ->
  (off <= length s)%nat /\
  match_here r (prev_after before s off) (skipn off s) = Some y.
Proof.
  revert before off. induction s as [|c s IH]; intros before off H; cbn [search] in H.
  - destruct (match_here r before []) eqn:E; [|discriminate].
    injection H as <- <-. split; [cbn; lia | exact E].
  - destruct (match_here r before (c :: s)) eqn:E.
    + injection H as <- <-. split; [cbn; lia | exact E].
    + destruct (search r (Some c) s) as [[off' y']|] eqn:E'; [|discriminate].
      injection H as <- <-. apply IH in E' as [Hl Hm]. split; [cbn; lia|].
      cbn [skipn]. replace (prev_after before (c :: s) (S off')) with (prev_after (Some c) s off');
        [exact Hm|].
      destruct off' as [|n]; [reflexivity|]. cbn.
      destruct (nth_error s n) eqn:En; [reflexivity|].
      apply nth_error_None in En. cbn in Hl. lia.
Qed.

(** A global scan ends when every match consumes input. *)
Lemma exec_loop_total (r : regex) :
  (forall before s y, match_here r before s = Some y -> (0 < consumed s y)%nat) ->
  forall fuel at_index before s,
    (length s < fuel)%nat -> is_Some (exec_loop fuel r at_index before s).
Proof.
  intros Hr fuel. induction fuel as [|fuel IH]; intros at_index before s Hfuel; [lia|].
  cbn [exec_loop]. destruct (search r before s) as [[off y]|] eqn:E; [|eauto].
  apply search_offset in E as [Hoff Hm].
  pose proof (Hr _ _ _ Hm) as Hpos. cbv zeta.
  destruct (Nat.eqb_spec (consumed (skipn off s) y) 0) as [H0|_]; [lia|].
  match goal with |- context [exec_loop fuel r ?a ?b ?c] =>
    destruct (IH a b c) as [more Hmore] end.
  - unfold consumed in *. rewrite !length_drop in *. lia.
  - rewrite Hmore. eauto.
Qed.

(** The fuel of [matchAll] is never used up. *)
Lemma matchAll_loop_fuel (r : regex) :
  forall fuel1 fuel2 at_index before s,
    (length s < fuel1)%nat -> (length s < fuel2)%nat ->
    matchAll_loop fuel1 r at_index before s = matchAll_loop fuel2 r at_index before s.
Proof.
  intros fuel1. induction fuel1 as [|fuel1 IH]; intros fuel2 at_index before s H1 H2; [lia|].
  destruct fuel2 as [|fuel2]; [lia|]. cbn [matchAll_loop].
  destruct (search r before s) as [[off y]|] eqn:E; [|reflexivity].
  apply search_offset in E as [Hoff _]. cbv zeta. f_equal.
  destruct (Nat.ltb_spec (length (skipn off s))
              (if Nat.eqb (consumed (skipn off s) y) 0 then 1 else consumed (skipn off s) y))%nat
    as [|Hfit]; [reflexivity|].
  apply IH; rewrite !length_drop in *;
    destruct (Nat.eqb_spec (consumed (skipn off s) y) 0); lia.
Qed.

(** The fuel of [split] is never used up. *)
Lemma split_loop_fuel (r : regex) :
  forall fuel1 fuel2 before cur s,
    (2 * length s + Nat.min 1 (length cur) < fuel1)%nat ->
    (2 * length s + Nat.min 1 (length cur) < fuel2)%nat ->
    split_loop fuel1 r before cur s = split_loop fuel2 r before cur s.
Proof.
  intros fuel1. induction fuel1 as [|fuel1 IH]; intros fuel2 before cur s H1 H2; [lia|].
  destruct fuel2 as [|fuel2]; [lia|]. cbn [split_loop].
  destruct s as [|c s']; [reflexivity|]. cbn [length] in H1, H2.
  assert (Hadvance : split_loop fuel1 r (Some c) (c :: cur) s'
                     = split_loop fuel2 r (Some c) (c :: cur) s')
    by (apply IH; cbn [length]; lia).
  destruct (match_here r before (c :: s')) as [y|]; [|exact Hadvance].
  cbv zeta. destruct (Nat.eqb_spec (consumed (c :: s') y) 0) as [Hn|Hn];
    destruct (Nat.eqb_spec (length cur) 0) as [Hc|Hc]; cbn [andb];
    try exact Hadvance; f_equal; apply IH; rewrite ?length_drop; cbn [length]; lia.
Qed.

Lemma split_fuel (r : regex) (s : str) (extra : nat) :
  s <> [] -> split r s = split_loop (2 * length s + 1 + extra) r None [] s.
Proof.
  intros Hs. unfold split. destruct s as [|c s']; [congruence|].
  apply split_loop_fuel; cbn [length]; lia.
Qed.

Lemma matchAll_fuel (r : regex) (s : str) (extra : nat) :
  matchAll r s = matchAll_loop (S (length s) + extra) r 0 None s.
Proof. apply matchAll_loop_fuel; lia. Qed.

End RegexFacts.

(** ** The segmentation engine *)

Module ChunkingFacts.
Import JS Regex Types Chunking Spec RegexFacts.

(** The pieces of a split are no longer than the text, and shorter when
    there are several. *)
Lemma split_loop_bound (r : regex) (fuel : nat) :
  forall (before : option ascii) (cur s : str),
    Forall (fun p => (length p <= length cur + length s)%nat)
      (split_loop fuel r before cur s) /\
    ((1 < length (split_loop fuel r before cur s))%nat ->
     Forall (fun p => (length p < length cur + length s)%nat)
       (split_loop fuel r before cur s)).
Proof.
  induction fuel as [|fuel IH]; intros before cur s; cbn [split_loop].
  - split; [|cbn; lia]. constructor; [|constructor].
    rewrite length_app, length_rev. lia.
  - destruct s as [|c s'].
    + split; [|cbn; lia]. constructor; [|constructor]. rewrite length_rev. lia.
    + assert (Hadvance :
        Forall (fun p => (length p <= length cur + length (c :: s'))%nat)
          (split_loop fuel r (Some c) (c :: cur) s') /\
        ((1 < length (split_loop fuel r (Some c) (c :: cur) s'))%nat ->
         Forall (fun p => (length p < length cur + length (c :: s'))%nat)
           (split_loop fuel r (Some c) (c :: cur) s'))).
      { destruct (IH (Some c) (c :: cur) s') as [HA HB]. cbn [length] in *.
        split; [|intros H; specialize (HB H)];
          (eapply Forall_impl; [eassumption|]); cbn; intros; lia. }
      destruct (match_here r before (c :: s')) as [y|]; [|exact Hadvance].
      cbv zeta. destruct (_ && _) eqn:Eskip; [exact Hadvance|].
      set (n := consumed (c :: s') y) in *.
      destruct (IH (prev_after before (c :: s') n) [] (skipn n (c :: s'))) as [HA _].
      assert (Hlt : Forall (fun p => (length p < length cur + length (c :: s'))%nat)
                      (rev cur :: split_loop fuel r (prev_after before (c :: s') n) []
                                    (skipn n (c :: s')))).
      { constructor; [rewrite length_rev; cbn; lia|].
        eapply Forall_impl; [exact HA|]. cbn beta. intros p Hp.
        cbn [length] in Hp. rewrite length_drop in Hp.
        apply andb_false_iff in Eskip as [E|E]; apply Nat.eqb_neq in E; cbn [length] in *; lia. }
      split; [|intros _; exact Hlt].
      eapply Forall_impl; [exact Hlt|]. cbn. intros; lia.
Qed.

Lemma split_shorter (r : regex) (s : str) :
  (1 < length (split r s))%nat ->
  Forall (fun p => (length p < length s)%nat) (split r s).
Proof.
  unfold split. destruct s as [|c s'].
  - destruct (match_here r None []); cbn; lia.
  - intros H. now apply (split_loop_bound r _ None [] (c :: s')).
Qed.

Lemma pack_loop_total (joiner : str) (extra maxSize overlap : Z)
    (oversized : str -> option (list str * str)) (units : list str) :
  (forall u, In u units -> is_Some (oversized u)) ->
  forall state, is_Some (pack_loop joiner extra maxSize overlap oversized state units).
Proof.
  induction units as [|u units IH]; intros Hall state; cbn [pack_loop]; [eauto|].
  assert (Hstep : is_Some (pack_step joiner extra maxSize overlap oversized state u)).
  { unfold pack_step. destruct state as [chunks currentChunk].
    destruct (_ <=? _); [eauto|]. destruct (nonempty currentChunk); [eauto|].
    destruct (Hall u (or_introl eq_refl)) as [[pushed next] ->]. eauto. }
  destruct Hstep as [state' ->]. apply IH. intros u' Hu'. apply Hall. now right.
Qed.

Lemma pack_total (joiner : str) (extra maxSize overlap : Z)
    (oversized : str -> option (list str * str)) (units : list str) :
  (forall u, In u units -> is_Some (oversized u)) ->
  is_Some (pack joiner extra maxSize overlap oversized units).
Proof.
  intros Hall. unfold pack.
  destruct (pack_loop_total joiner extra maxSize overlap oversized units Hall ([], []))
    as [state ->]. eauto.
Qed.

(** The recursive splitter returns on every text. *)
Lemma recursiveChunkWithOverlap_fuel_total (maxSize overlap : Z) (fuel : nat) :
  forall text, (length text < fuel)%nat ->
    is_Some (recursiveChunkWithOverlap_fuel fuel text maxSize overlap).
Proof.
  induction fuel as [|fuel IH]; intros text Hfuel; [lia|].
  cbn [recursiveChunkWithOverlap_fuel].
  destruct (len text <=? maxSize); [eauto|]. cbv zeta.
  assert (Hrec : forall units,
             Forall (fun p => (length p < length text)%nat) units ->
             forall u, In u units ->
               is_Some (match recursiveChunkWithOverlap_fuel fuel u maxSize overlap with
                        | Some subChunks => Some (carry_last subChunks)
                        | None => None
                        end)).
  { intros units Hunits u Hu. rewrite Forall_forall in Hunits.
    apply list_elem_of_In in Hu. specialize (Hunits u Hu).
    destruct (IH u ltac:(lia)) as [sub ->]. eauto. }
  destruct (Z.gtb_spec (len (split paragraph_break text)) 1) as [Hp|_].
  - apply pack_total, Hrec, split_shorter. unfold len in Hp. lia.
  - destruct (Z.gtb_spec (len (split sentence_break text)) 1) as [Hs|_].
    + apply pack_total, Hrec, split_shorter. unfold len in Hs. lia.
    + apply pack_total. intros u _. unfold hard_cut. eauto.
Qed.

Lemma recursiveChunkWithOverlap_total (text : str) (maxSize overlap : Z) :
  is_Some (recursiveChunkWithOverlap text maxSize overlap).
Proof. apply recursiveChunkWithOverlap_fuel_total. lia. Qed.

(** The table scan returns on every text. *)
Lemma extractTables_total (markdownText : str) : is_Some (extractTables markdownText).
Proof.
  unfold extractTables, exec_all.
  destruct (exec_loop_total tablePattern) with (fuel := S (length markdownText))
    (at_index := 0%nat) (before := @None ascii) (s := markdownText) as [found ->];
    [|lia|eauto].
  intros before s y H. unfold tablePattern, table_row in H.
  unfold match_here in H. cbn [run] in H.
  unfold consumed. destruct s as [|c s']; [discriminate|]. cbn [rest] in H.
  destruct (is_pipe c); [|discriminate].
  apply (run_shorter (plus (Chr not_LF))) in H as (x1 & Hl1 & H).
  change (run (Chr is_pipe) ?k x1) with (run (Seq (Chr is_pipe) Eps) k x1) in H.
  apply (run_shorter (Chr is_pipe)) in H as (x2 & Hl2 & H).
  apply (run_shorter (plus (Chr LF_or_CR))) in H as (x3 & Hl3 & H).
  apply (run_shorter (Chr is_pipe)) in H as (x4 & Hl4 & H).
  apply (run_shorter (plus (Chr separator_char))) in H as (x5 & Hl5 & H).
  apply (run_shorter (Chr is_pipe)) in H as (x6 & Hl6 & H).
  apply (run_shorter (plus (Chr LF_or_CR))) in H as (x7 & Hl7 & H).
  apply (run_shorter (star _)) in H as (x8 & Hl8 & H).
  injection H as <-. cbn [rest length] in *. lia.
Qed.


Lemma mapi_from_counted (f : str -> Z -> Chunk) (l : list str) (i : Z) :
  (forall text index, counted (f text index)) -> Forall counted (mapi_from i f l).
Proof.
  intros Hf. revert i. induction l as [|x l IH]; intros i; cbn [mapi_from]; constructor; auto.
Qed.

Lemma splitLargeChunk_counted (chunkContent header : str) (maxSize overlap : Z) :
  exists chunks, splitLargeChunk chunkContent header maxSize overlap = Some chunks /\
                 Forall counted chunks.
Proof.
  unfold splitLargeChunk.
  destruct (recursiveChunkWithOverlap_total chunkContent maxSize overlap) as [texts ->].
  eexists. split; [reflexivity|]. apply mapi_from_counted. intros; reflexivity.
Qed.

Lemma rawChunk_counted (tableRanges : list TableRange) (m : found) :
  Forall counted (rawChunk tableRanges m).
Proof.
  unfold rawChunk. destruct (negb _); [constructor|]. repeat constructor.
Qed.

Lemma combine_index (minChunkSize : Z) (pending : list Chunk) :
  forall j combinedContent combinedHeader,
    (j <= snd (combine minChunkSize pending j combinedContent combinedHeader))%nat.
Proof.
  induction pending as [|next pending IH]; intros j cc ch; cbn [combine]; [cbn; lia|].
  destruct (_ <? _); [|cbn; lia]. destruct (is_true _); [cbn; lia|].
  etransitivity; [|apply IH]. lia.
Qed.

(** The merge and split loop returns, and keeps the invariant. *)
Lemma process_counted (config : ChunkingConfig) (rawChunks : list Chunk) :
  Forall counted rawChunks ->
  forall fuel i processedChunks,
    (length rawChunks - i < fuel)%nat -> Forall counted processedChunks ->
    exists chunks, process fuel config rawChunks i processedChunks = Some chunks /\
                   Forall counted chunks.
Proof.
  intros Hraw fuel. induction fuel as [|fuel IH]; intros i processed Hfuel Hdone; [lia|].
  cbn [process]. destruct (nth_error rawChunks i) as [current|] eqn:Ei; [|eauto].
  assert (Hi : (i < length rawChunks)%nat) by (apply nth_error_Some; congruence).
  assert (Hcur : counted current).
  { rewrite Forall_forall in Hraw. apply Hraw, list_elem_of_In. eapply nth_error_In, Ei. }
  destruct (is_true (containsTable current)).
  { apply IH; [lia|]. apply Forall_app. split; [exact Hdone | now constructor]. }
  destruct (below (charCount current) (minChunkSize config)).
  { destruct (combine (minChunkSize config) (skipn (S i) rawChunks) (S i)
                (content current) (header current)) as [[cc ch] j] eqn:Ec.
    pose proof (combine_index (minChunkSize config) (skipn (S i) rawChunks) (S i)
                  (content current) (header current)) as Hj.
    rewrite Ec in Hj. cbn [snd] in Hj.
    destruct (len cc >? maxChunkSize config).
    - destruct (splitLargeChunk_counted cc ch (maxChunkSize config) (overlap config))
        as (split & -> & Hsplit).
      apply IH; [lia|]. apply Forall_app. split; assumption.
    - apply IH; [lia|]. apply Forall_app. split; [exact Hdone|]. repeat constructor. }
  destruct (above (charCount current) (maxChunkSize config)).
  { destruct (splitLargeChunk_counted (content current) (header current)
                (maxChunkSize config) (overlap config)) as (split & -> & Hsplit).
    apply IH; [lia|]. apply Forall_app. split; assumption. }
  apply IH; [lia|]. apply Forall_app. split; [exact Hdone | now constructor].
Qed.

End ChunkingFacts.

(** ** The embedding index and the hybrid ranker *)

Module SearchFacts.
Import JS Types VectorStoreM HybridSearch Spec JSFacts.

Lemma embedding_length (text : str) : length (generateSimpleEmbedding text) = 300%nat.
Proof.
  unfold generateSimpleEmbedding. rewrite length_map.
  generalize (toLowerCase text). intros s.
  assert (H : forall (acc : list float),
             length (fold_left (fun embedding c =>
                        alter (fun v => (v + 1)%float) (N.to_nat (code c mod 300)) embedding)
                      s acc) = length acc).
  { induction s as [|c s IH]; intros acc; simpl; [reflexivity|].
    rewrite IH. apply length_alter. }
  rewrite H. apply length_replicate.
Qed.

Lemma cosine_defined (vec1 vec2 : list float) :
  length vec1 = length vec2 -> is_Some (cosineSimilarity vec1 vec2).
Proof.
  intros H. unfold cosineSimilarity. rewrite H, Nat.eqb_refl. simpl.
  destruct (fold_left _ _ _) as [[? ?] ?]. eauto.
Qed.

Lemma similarities_total (store : VectorStore) (qe : list float) (f : option str) :
  length qe = 300%nat ->
  forall (pending : list (list float)) (i : nat),
    Forall (fun e => length e = 300%nat) pending ->
    (i + length pending <= length (chunks store))%nat ->
    exists scores, similarities store qe f i pending = Some scores /\
                   Forall (fun p => (fst p < length (chunks store))%nat) scores.
Proof.
  intros Hq pending. induction pending as [|e pending IH]; intros i Hall Hlen.
  - exists []. split; [reflexivity | constructor].
  - inversion Hall as [|? ? He Hrest]; subst. simpl in Hlen.
    destruct (IH (S i) Hrest ltac:(lia)) as (scores & Hs & Hidx).
    destruct (cosine_defined qe e ltac:(congruence)) as [sim Hsim].
    destruct (lookup_lt_is_Some_2 (chunks store) i ltac:(lia)) as [c Hc].
    cbn [similarities]. rewrite Hsim, Hs, Hc. simpl.
    destruct (given f) as [tag|].
    + destruct (has_tag (tags c) tag); simpl.
      * eexists; split; [reflexivity|]. constructor; [simpl; lia | assumption].
      * eexists; split; [reflexivity | assumption].
    + eexists; split; [reflexivity|]. constructor; [simpl; lia | assumption].
Qed.



Lemma semanticSearch_total (s0 : VectorStore) (cs : list TaggedChunk) (q : str)
    (k : Z) (f : option str) :
  is_Some (semanticSearch (addChunks s0 cs) q k f).
Proof.
  unfold semanticSearch.
  destruct (similarities_total (addChunks s0 cs) (generateSimpleEmbedding q) f
              (embedding_length q) (embeddings (addChunks s0 cs)) 0)
    as (scores & Hs & Hidx).
  { simpl. apply Forall_forall. intros e He.
    apply list_elem_of_fmap in He as (c & -> & _). apply embedding_length. }
  { simpl. rewrite length_map. lia. }
  rewrite Hs. simpl. apply mapM_is_Some. apply Forall_forall.
  intros [index score] Hin.
  assert (Hin' : (index, score) ∈ scores).
  { eapply elem_of_Permutation_proper; [symmetry; apply (sort_perm (descending snd))|].
    eapply elem_of_sublist; [exact Hin | apply slice_sublist]. }
  rewrite Forall_forall in Hidx. specialize (Hidx _ Hin'). simpl in Hidx.
  destruct (lookup_lt_is_Some_2 cs index Hidx) as [c Hc].
  simpl. rewrite Hc. simpl. eauto.
Qed.

Lemma candidateIndices_pairs (cs : list TaggedChunk) (f : option str) :
  candidateIndices cs f = fst <$> candidate_pairs cs f.
Proof. reflexivity. Qed.

Lemma candidate_pairs_spec (cs : list TaggedChunk) (f : option str) (p : nat * TaggedChunk) :
  p ∈ candidate_pairs cs f -> cs !! fst p = Some (snd p) /\ passes f (snd p) = true.
Proof.
  unfold candidate_pairs. rewrite list_elem_of_In, filter_In, <- list_elem_of_In.
  intros [Hin Hp]. destruct p as [i c]. split; [|exact Hp].
  apply list_elem_of_lookup in Hin as [j Hj].
  rewrite list_lookup_imap in Hj.
  destruct (cs !! j) eqn:E; simpl in Hj; [|discriminate].
  injection Hj as -> ->. exact E.
Qed.

Lemma filter_imap_snd (P : TaggedChunk -> bool) (cs : list TaggedChunk) (g : nat -> nat) :
  snd <$> List.filter (fun '(_, c) => P c) (imap (fun idx c => (g idx, c)) cs)
  = List.filter P cs.
Proof.
  revert g. induction cs as [|c cs IH]; intros g; [reflexivity|].
  cbn [imap List.filter]. specialize (IH (g ∘ S)).
  destruct (P c); cbn; [f_equal|]; exact IH.
Qed.

Lemma candidate_pairs_chunks (cs : list TaggedChunk) (f : option str) :
  snd <$> candidate_pairs cs f = List.filter (passes f) cs.
Proof. apply (filter_imap_snd (passes f) cs (fun i => i)). Qed.

Lemma filter_sublist {A} (P : A -> bool) (l : list A) : List.filter P l `sublist_of` l.
Proof.
  induction l as [|x l IH]; simpl; [constructor|].
  destruct (P x); [now constructor | now apply sublist_cons].
Qed.

(** Chunks with the same identifier are the same chunk when identifiers
    are not repeated. *)
Lemma same_id_same_chunk (cs : list TaggedChunk) (c c' : TaggedChunk) :
  NoDup (chunkId <$> cs) -> c ∈ cs -> c' ∈ cs -> chunkId c = chunkId c' -> c = c'.
Proof.
  intros Hnd Hc Hc' Hid.
  apply list_elem_of_lookup in Hc as [i Hi]. apply list_elem_of_lookup in Hc' as [j Hj].
  assert (i = j).
  { eapply (NoDup_lookup _ i j (chunkId c) Hnd); rewrite list_lookup_fmap.
    - now rewrite Hi.
    - rewrite Hj. simpl. now rewrite Hid. }
  subst j. congruence.
Qed.

Lemma chunkKey_inj (a b : Z) : chunkKey a = chunkKey b -> a = b.
Proof. unfold chunkKey. intros H. apply app_inv_head in H. now apply toString_inj. Qed.

Lemma getChunkById_key (store : VectorStore) (id : Z) :
  getChunkById store (chunkKey id)
  = List.find (fun c : TaggedChunk => chunkId c =? id) (chunks store).
Proof.
  unfold getChunkById.
  change (replace (lit "chunk_") [] (chunkKey id)) with (toString id).
  now rewrite parseInt_toString.
Qed.

Lemma find_member (cs : list TaggedChunk) (c : TaggedChunk) :
  c ∈ cs ->
  exists c', List.find (fun x : TaggedChunk => chunkId x =? chunkId c) cs = Some c'
             /\ c' ∈ cs /\ chunkId c' = chunkId c.
Proof.
  intros Hc.
  destruct (List.find (fun x : TaggedChunk => chunkId x =? chunkId c) cs) as [c'|] eqn:E.
  - apply find_some in E as [Hin Heq]. exists c'. split; [reflexivity|].
    split; [now apply list_elem_of_In | now apply Z.eqb_eq].
  - exfalso. apply list_elem_of_In in Hc.
    pose proof (find_none _ _ E _ Hc) as Hn. simpl in Hn.
    rewrite Z.eqb_refl in Hn. discriminate.
Qed.

Lemma slice_length_eq {A B} (l : list A) (l' : list B) a b :
  length l = length l' -> length (slice l a b) = length (slice l' a b).
Proof.
  intros H. unfold slice. rewrite !length_take, !length_drop, H. reflexivity.
Qed.

Lemma mapM_lookup {A B} (cs : list A) (g : nat -> A -> B) (L : list (nat * A)) :
  Forall (fun p => cs !! fst p = Some (snd p)) L ->
  mapM (fun index => chunk ← cs !! index; Some (g index chunk)) (fst <$> L)
  = Some ((fun p => g (fst p) (snd p)) <$> L).
Proof.
  intros H. apply mapM_Some. induction H as [|p L Hp _ IH]; simpl; constructor.
  - rewrite Hp. reflexivity.
  - exact IH.
Qed.


Lemma Forall2_results {A B} (R : A -> B -> Prop) (P : A -> Prop) (Q : B -> Prop)
    (ka : A -> str) (kb : B -> str) (l : list A) (k : list B) :
  Forall2 R l k -> Forall P l ->
  (forall x r, P x -> R x r -> Q r /\ kb r = ka x) ->
  Forall Q k /\ kb <$> k = ka <$> l.
Proof.
  intros H2 HP Hstep. induction H2 as [|x r l k HR _ IH]; [split; [constructor | reflexivity]|].
  inversion HP as [|? ? Hx Hl]; subst.
  destruct (Hstep x r Hx HR) as [Hq Hk]. destruct (IH Hl) as [HQ Hmap].
  split; [now constructor | rewrite !fmap_cons; now rewrite Hk, Hmap].
Qed.

Lemma search_spec (bm : BM25M.BM25) (docs : list str) (s0 : VectorStore)
    (cs : list TaggedChunk) (q : str) (k : Z) (alpha : float) (f : option str) :
  exists rs,
    search {| vectorStore := addChunks s0 cs; bm25 := bm; allDocuments := docs |}
      q k alpha f = Some rs /\
    length rs = length (slice (List.filter (passes f) cs) 0 (Some k)) /\
    Forall (result_of cs f) rs /\
    (NoDup (chunkId <$> cs) -> NoDup (result_chunkId <$> rs)).
Proof.
  unfold search.
  destruct (semanticSearch_total s0 cs q (k * 2) f) as [sem Hsem].
  cbn [vectorStore bm25]. rewrite Hsem. cbn [mbind option_bind].
  cbv zeta. unfold getAllChunks. cbn [chunks addChunks].
  rewrite candidateIndices_pairs.
  pose proof (candidate_pairs_spec cs f) as Hpairs.
  erewrite mapM_lookup;
    [|apply Forall_forall; intros p Hp; now apply Hpairs].
  cbn [mbind option_bind].
  match goal with
  | |- context [slice (sort (descending snd) ?comb) 0 (Some k)] =>
      set (combined := comb); set (top := slice (sort (descending snd) combined) 0 (Some k))
  end.
  assert (Hmem : forall x, x ∈ top -> exists p, p ∈ candidate_pairs cs f /\
                                        fst x = chunkKey (chunkId (snd p))).
  { intros x Hx.
    assert (Hx' : x ∈ combined).
    { eapply elem_of_Permutation_proper; [symmetry; apply (sort_perm (descending snd))|].
      eapply elem_of_sublist; [exact Hx | apply slice_sublist]. }
    apply list_elem_of_fmap in Hx' as (p & -> & Hp). exists p. split; [exact Hp | reflexivity]. }
  assert (Hkeys : fst <$> combined = (fun c : TaggedChunk => chunkKey (chunkId c)) <$> List.filter (passes f) cs).
  { rewrite <- candidate_pairs_chunks. unfold combined.
    rewrite <- !list_fmap_compose. reflexivity. }
  assert (Hlen : length top = length (slice (List.filter (passes f) cs) 0 (Some k))).
  { apply slice_length_eq. rewrite (Permutation_length (sort_perm _ _)).
    rewrite <- (length_fmap fst), Hkeys, length_fmap. reflexivity. }
  assert (Hnd : NoDup (chunkId <$> cs) -> NoDup (fst <$> top)).
  { intros Hids. apply (sublist_NoDup _ (fst <$> sort (descending snd) combined)).
    - apply (NoDup_Permutation_proper _ _ (fmap_Permutation fst _ _ (sort_perm _ combined))).
      rewrite Hkeys. rewrite (list_fmap_compose chunkId chunkKey).
      apply NoDup_fmap_2; [intros a b; apply chunkKey_inj|].
      apply (sublist_NoDup _ (chunkId <$> cs)); [exact Hids|].
      apply fmap_sublist, filter_sublist.
    - apply fmap_sublist, slice_sublist. }
  assert (Hsome : Forall (fun x : str * float =>
             exists c c' : TaggedChunk, c ∈ cs /\ passes f c = true /\ c' ∈ cs /\
               chunkId c' = chunkId c /\ fst x = chunkKey (chunkId c) /\
               getChunkById (addChunks s0 cs) (fst x) = Some c') top).
  { apply Forall_forall. intros x Hx. destruct (Hmem x Hx) as (p & Hp & Hkey).
    destruct (Hpairs p Hp) as [Hlook Hpass].
    assert (Hin : snd p ∈ cs) by (apply list_elem_of_lookup; eauto).
    destruct (find_member cs (snd p) Hin) as (c' & Hfind & Hc' & Hid).
    exists (snd p), c'. repeat split; try assumption.
    rewrite Hkey, getChunkById_key. exact Hfind. }
  destruct (mapM_is_Some_2
              (fun '(key, score) =>
                 getChunkById (addChunks s0 cs) key ≫= fun chunk : TaggedChunk =>
                 Some {| result_chunkId := key; result_score := score;
                         result_header := header chunk; result_content := content chunk;
                         result_tags := tags chunk; relevanceGrade := None |}) top)
    as [rs Hrs].
  { eapply Forall_impl; [exact Hsome|]. intros [key score] (c & c' & _ & _ & _ & _ & _ & Hg).
    simpl in *. rewrite Hg. simpl. eauto. }
  exists rs. split; [exact Hrs|].
  apply mapM_Some_1 in Hrs.
  destruct (Forall2_results _ _ (result_of cs f) fst result_chunkId top rs Hrs Hsome) as [HQ Hmap].
  { intros [key score] r (c & c' & Hc & Hp & Hc' & Hid & Hkey & Hg) Hr.
    simpl in *. rewrite Hg in Hr. simpl in Hr. injection Hr as <-.
    split; [|reflexivity]. split; [reflexivity|].
    exists c, c'. simpl. repeat split; assumption. }
  split; [|split].
  - rewrite <- Hlen. symmetry. eapply Forall2_length; eassumption.
  - exact HQ.
  - intros Hids. rewrite Hmap. now apply Hnd.
Qed.

End SearchFacts.

(** ** The corrective retrieval loop *)

Module RetrievalFacts.
Import JS Types VectorStoreM HybridSearch CorrectiveRAG Spec JSFacts SearchFacts.

Section Run.
Variable groq : service.
Variable bm : BM25M.BM25.
Variable docs : list str.
Variable s0 : VectorStore.
Variable cs : list TaggedChunk.
Variable query : str.
Variable maxIterations topK : Z.

Let searcher : HybridSearcher :=
  {| vectorStore := addChunks s0 cs; bm25 := bm; allDocuments := docs |}.

Local Abbreviation prompt_of := (Spec.prompt_of query).
Local Abbreviation invariant := (Spec.invariant searcher query maxIterations topK).

Lemma searches_app tr1 tr2 : searches (tr1 ++ tr2) = searches tr1 ++ searches tr2.
Proof. apply flat_map_app. Qed.

Lemma grading_prompts_app tr1 tr2 :
  grading_prompts (tr1 ++ tr2) = grading_prompts tr1 ++ grading_prompts tr2.
Proof. apply flat_map_app. Qed.

Lemma existsb_key (key : str) (l : list SearchResult) :
  existsb (fun c => bool_decide (result_chunkId c = key)) l = false ->
  key ∉ result_chunkId <$> l.
Proof.
  induction l as [|x l IH]; cbn [existsb]; intros H.
  - apply not_elem_of_nil.
  - apply orb_false_iff in H as [Hx Hl]. apply bool_decide_eq_false in Hx.
    rewrite fmap_cons. apply not_elem_of_cons. split; [congruence | now apply IH].
Qed.

Lemma grade_chunk_spec (st : state) (n : Z) (c : SearchResult) :
  let st' := fst (grade_chunk groq query (st, n) c) in
  trace st' = trace st ++ [Graded (prompt_of c)] /\
  iteration st' = iteration st /\
  currentQuery st' = currentQuery st /\
  (NoDup (result_chunkId <$> allRelevantChunks st) ->
   NoDup (result_chunkId <$> allRelevantChunks st')).
Proof.
  unfold grade_chunk. cbv zeta. cbn [fst].
  destruct (accepted _); [|now simpl].
  destruct (negb _) eqn:E; [|now simpl].
  cbn. repeat split. intros Hnd.
  rewrite fmap_app. apply NoDup_app. split; [exact Hnd|]. split.
  - intros x Hx Hx'. apply list_elem_of_singleton in Hx'. subst x.
    revert Hx. apply existsb_key. now apply negb_true_iff in E.
  - apply NoDup_singleton.
Qed.

Lemma grade_all_spec (rs : list SearchResult) (st : state) (n : Z) :
  let st' := fst (fold_left (grade_chunk groq query) rs (st, n)) in
  trace st' = trace st ++ (Graded <$> (prompt_of <$> rs)) /\
  iteration st' = iteration st /\
  currentQuery st' = currentQuery st /\
  (NoDup (result_chunkId <$> allRelevantChunks st) ->
   NoDup (result_chunkId <$> allRelevantChunks st')).
Proof.
  revert st n. induction rs as [|c rs IH]; intros st n.
  - simpl. rewrite app_nil_r. auto.
  - cbn [fold_left].
    destruct (grade_chunk groq query (st, n) c) as [st1 n1] eqn:E.
    pose proof (grade_chunk_spec st n c) as H1. rewrite E in H1. cbn [fst] in H1.
    destruct H1 as (Ht & Hi & Hq & Hk).
    destruct (IH st1 n1) as (Ht' & Hi' & Hq' & Hk').
    cbv zeta. rewrite Ht', Ht, Hi', Hi, Hq', Hq, <- app_assoc.
    rewrite !fmap_cons. repeat split; auto.
Qed.


Lemma searches_graded (ps : list str) : searches (Graded <$> ps) = [].
Proof. induction ps as [|p ps IH]; [reflexivity | exact IH]. Qed.

Lemma grading_prompts_graded (ps : list str) : grading_prompts (Graded <$> ps) = ps.
Proof.
  induction ps as [|p ps IH]; [reflexivity|].
  rewrite fmap_cons. unfold grading_prompts in *. cbn [flat_map app]. now rewrite IH.
Qed.

Lemma quiet_graded (ps : list str) : Forall quiet (Graded <$> ps).
Proof. induction ps; constructor; [exact I | assumption]. Qed.

Lemma examine_spec (st : state) (rs : list SearchResult) :
  let st' := fst (examine groq query maxIterations topK st rs) in
  let go := snd (examine groq query maxIterations topK st rs) in
  iteration st' = iteration st /\
  searches (trace st') = searches (trace st) ++ [rs] /\
  grading_prompts (trace st') = grading_prompts (trace st) ++ (prompt_of <$> rs) /\
  (NoDup (result_chunkId <$> allRelevantChunks st) ->
   NoDup (result_chunkId <$> allRelevantChunks st')) /\
  (Forall quiet (trace st) -> ends go st').
Proof.
  unfold examine. cbv zeta.
  destruct (Z.eqb_spec (len rs) 0) as [Hempty|Hsome].
  - assert (rs = []) as -> by (destruct rs; [reflexivity | unfold len in Hempty; simpl in Hempty; lia]).
    cbn. rewrite !searches_app, !grading_prompts_app. cbn. rewrite !app_nil_r.
    repeat split; auto. intros Hq. rewrite <- app_assoc.
    apply Forall_app; split; [exact Hq | repeat constructor].
  - set (st1 := record (Searched (currentQuery st) topK rs) st).
    destruct (fold_left (grade_chunk groq query) rs (st1, 0)) as [st2 n] eqn:E.
    pose proof (grade_all_spec rs st1 0) as H. rewrite E in H. cbn [fst] in H.
    destruct H as (Ht & Hi & Hq & Hk).
    assert (Htr : trace st2 = trace st ++ Searched (currentQuery st) topK rs
                               :: (Graded <$> (prompt_of <$> rs))).
    { rewrite Ht. unfold st1. cbn. now rewrite <- app_assoc. }
    assert (Hquiet : Forall quiet (trace st) -> Forall quiet (trace st2)).
    { intros Hqt. rewrite Htr. apply Forall_app; split; [exact Hqt|].
      constructor; [exact I | apply quiet_graded]. }
    assert (Hs : searches (trace st2) = searches (trace st) ++ [rs]).
    { rewrite Htr, searches_app. cbn. now rewrite searches_graded. }
    assert (Hg : grading_prompts (trace st2)
                 = grading_prompts (trace st) ++ (prompt_of <$> rs)).
    { rewrite Htr, grading_prompts_app. cbn. now rewrite grading_prompts_graded. }
    cbn [record allRelevantChunks iteration].
    destruct (Z.geb_spec (len (allRelevantChunks st2)) 3) as [Henough|Hfew].
    + cbn. rewrite searches_app, grading_prompts_app. cbn. rewrite !app_nil_r.
      repeat split; auto.
      intros Hqt. exists (trace st2), n. repeat split; auto; lia.
    + destruct (iteration st2 <? maxIterations).
      * cbn. rewrite !searches_app, !grading_prompts_app. cbn. rewrite !app_nil_r.
        repeat split; auto. intros Hqt. rewrite <- app_assoc.
        apply Forall_app; split; [auto|]. repeat constructor. simpl. lia.
      * cbn. rewrite searches_app, grading_prompts_app. cbn. rewrite !app_nil_r.
        repeat split; auto. intros Hqt.
        apply Forall_app; split; [auto|]. repeat constructor. simpl. lia.
Qed.


Lemma silent_graded (ps : list str) : Forall silent (Graded <$> ps).
Proof. induction ps; constructor; [exact I | assumption]. Qed.

(** The events of a turn: its search first, and no other search. *)
Lemma examine_trace (st : state) (rs : list SearchResult) :
  exists tail,
    trace (fst (examine groq query maxIterations topK st rs))
    = trace st ++ Searched (currentQuery st) topK rs :: tail /\
    Forall silent tail.
Proof.
  unfold examine. cbv zeta.
  destruct (len rs =? 0).
  - eexists. cbn. rewrite <- app_assoc. split; [reflexivity|]. repeat constructor.
  - set (st1 := record (Searched (currentQuery st) topK rs) st).
    destruct (fold_left (grade_chunk groq query) rs (st1, 0)) as [st2 n] eqn:E.
    pose proof (grade_all_spec rs st1 0) as H. rewrite E in H. cbn [fst] in H.
    destruct H as (Ht & _).
    assert (Htr : trace st2 = trace st ++ Searched (currentQuery st) topK rs
                               :: (Graded <$> (prompt_of <$> rs))).
    { rewrite Ht. unfold st1. cbn. now rewrite <- app_assoc. }
    cbn [record allRelevantChunks iteration].
    destruct (_ >=? 3); [|destruct (_ <? _)]; eexists; cbn; rewrite Htr, <- ?app_assoc;
      (split; [cbn; reflexivity|]);
      (apply Forall_app; split; [apply silent_graded | repeat constructor]).
Qed.

Lemma silent_faithful (e : event) : silent e -> faithful searcher topK e.
Proof. now destruct e. Qed.

Lemma turn_spec (st : state) :
  invariant st -> Forall quiet (trace st) -> iteration st < maxIterations ->
  exists st' go,
    turn groq searcher query maxIterations topK st = Some (st', go) /\
    invariant st' /\ ends go st' /\ iteration st' = iteration st + 1.
Proof.
  intros [Hc Hb Hg Hk Hf] Hq Hlt. unfold turn. cbv zeta.
  destruct (search_spec bm docs s0 cs (currentQuery (advance st)) topK 0.5 None)
    as (rs & Hrs & _).
  fold searcher in Hrs. rewrite Hrs. cbn [mbind option_bind].
  pose proof (examine_spec (advance st) rs) as H. cbv zeta in H.
  destruct (examine_trace (advance st) rs) as (tail & Htail & Hsilent).
  destruct (examine groq query maxIterations topK (advance st) rs) as [st' go].
  cbn [fst snd] in H, Htail. destruct H as (Hi & Hs & Hp & Hn & He).
  exists st', go. split; [reflexivity|].
  cbn [advance iteration trace allRelevantChunks] in *.
  split; [|split; [now apply He | exact Hi]].
  constructor.
  - rewrite Hs, Hi. unfold len in *. rewrite length_app. simpl. lia.
  - lia.
  - rewrite Hs, Hp, Hg, flat_map_app. cbn. now rewrite app_nil_r.
  - now apply Hn.
  - rewrite Htail. apply Forall_app. split; [exact Hf|].
    constructor; [split; [reflexivity | exact Hrs]|].
    eapply Forall_impl; [exact Hsilent | apply silent_faithful].
Qed.

Lemma loop_spec (fuel : nat) (st : state) :
  invariant st -> Forall quiet (trace st) ->
  (Z.to_nat (maxIterations - iteration st) < fuel)%nat ->
  exists st' go,
    loop groq searcher query maxIterations topK fuel st = Some st' /\
    invariant st' /\ ends go st'.
Proof.
  revert st. induction fuel as [|fuel IH]; intros st Hinv Hq Hfuel; [lia|].
  cbn [loop]. destruct (Z.ltb_spec (iteration st) maxIterations) as [Hlt|Hge].
  - destruct (turn_spec st Hinv Hq Hlt) as (st1 & go & Ht & Hinv1 & Hends & Hi).
    rewrite Ht. destruct go.
    + apply IH; [exact Hinv1 | exact Hends | lia].
    + exists st1, false. auto.
  - exists st, true. auto.
Qed.

Lemma initial_invariant : invariant (initial query).
Proof. constructor; cbn; [reflexivity | lia | reflexivity | constructor | constructor]. Qed.

Lemma quiet_settled (pre last : list event) :
  Forall quiet pre -> (length last <= 1)%nat -> settled (pre ++ last).
Proof.
  intros Hq Hlast before c t post Heq Ht.
  destruct post as [|e post _] using rev_ind; [reflexivity|]. exfalso.
  destruct last as [|l [|? ?]]; [| |simpl in Hlast; lia].
  - rewrite app_nil_r in Heq. subst pre.
    apply Forall_app in Hq as [_ Hq]. inversion Hq as [|? ? Hc _]; subst. simpl in Hc. lia.
  - change (before ++ Counted c t :: post ++ [e])
      with (before ++ (Counted c t :: post) ++ [e]) in Heq.
    rewrite app_assoc in Heq. apply app_inj_tail in Heq as [Heq _]. subst pre.
    apply Forall_app in Hq as [_ Hq]. inversion Hq as [|? ? Hc _]; subst. simpl in Hc. lia.
Qed.

Lemma ends_settled (go : bool) (st : state) : ends go st -> settled (trace st).
Proof.
  destruct go; simpl.
  - intros H. rewrite <- (app_nil_r (trace st)). apply quiet_settled; [exact H | simpl; lia].
  - intros (pre & c & -> & Hq & _). apply quiet_settled; [exact Hq | simpl; lia].
Qed.

Lemma filter_all {A} (l : list A) : List.filter (fun _ => true) l = l.
Proof. induction l as [|x l IH]; simpl; [reflexivity | now rewrite IH]. Qed.

(** The facts about a whole run. *)
Lemma retrieval_spec :
  exists st result tr,
    loop groq searcher query maxIterations topK (S (Z.to_nat maxIterations)) (initial query)
      = Some st /\
    correctiveRAGRetrieval groq searcher query maxIterations topK = Some (result, tr) /\
    iterations result = len (searches tr) /\
    0 <= iterations result <= Z.max maxIterations 0 /\
    grading_prompts tr = flat_map (map prompt_of) (searches tr) /\
    settled tr /\
    Forall (faithful searcher topK) tr /\
    (forall pre c t, tr = pre ++ [Counted c t] -> 3 <= t -> len (relevantChunks result) = t) /\
    totalFound result = len (relevantChunks result) /\
    (NoDup (chunkId <$> cs) -> NoDup (result_chunkId <$> relevantChunks result)) /\
    (allRelevantChunks st = [] ->
     exists fallbackResults,
       search searcher query topK 0.5 None = Some fallbackResults /\
       relevantChunks result = fallbackResults /\
       tr = trace st ++ [FellBack query topK fallbackResults] /\
       Forall (fun r => relevanceGrade r = None) fallbackResults) /\
    (allRelevantChunks st <> [] -> relevantChunks result = allRelevantChunks st /\ tr = trace st) /\
    (cs <> [] -> 1 <= topK -> relevantChunks result <> []).
Proof.
  destruct (loop_spec (S (Z.to_nat maxIterations)) (initial query) initial_invariant)
    as (st & go & Hloop & [Hc Hb Hg Hk Hf] & Hends).
  { constructor. } { cbn. lia. }
  destruct (search_spec bm docs s0 cs query topK 0.5 None) as (fb & Hfb & Hlen & Hres & Hnd).
  fold searcher in Hfb.
  unfold correctiveRAGRetrieval. rewrite Hloop. cbn [mbind option_bind]. unfold fallback.
  destruct (allRelevantChunks st) as [|r rest] eqn:Hall.
  - change (len [] =? 0) with true. cbv iota. rewrite Hfb. cbn [mbind option_bind].
    eexists st, _, _. split; [reflexivity|]. split; [reflexivity|].
    cbn [iterations relevantChunks totalFound record trace allRelevantChunks iteration app].
    rewrite !searches_app, !grading_prompts_app. cbn [searches grading_prompts flat_map app].
    rewrite !app_nil_r.
    assert (Hquiet : Forall quiet (trace st)).
    { destruct go; [exact Hends|]. destruct Hends as (? & ? & _ & _ & Hthree).
      rewrite Hall in Hthree. unfold len in Hthree. simpl in Hthree. lia. }
    split_and!; auto; try lia.
    + apply quiet_settled; [exact Hquiet | simpl; lia].
    + apply Forall_app. split; [exact Hf|]. repeat constructor. exact Hfb.
    + intros pre c t Heq _. apply app_inj_tail in Heq as [_ Heq]. discriminate.
    + intros _. exists fb. split_and!; auto.
      eapply Forall_impl; [exact Hres|]. now intros ? [? _].
    + congruence.
    + intros Hcs Htop Hnil. subst fb. simpl in Hlen.
      unfold passes in Hlen. cbn [given] in Hlen. rewrite filter_all in Hlen.
      apply (prefix_nonempty cs topK Htop Hcs). now apply nil_length_inv.
  - assert (Hnz : (len (r :: rest) =? 0) = false)
      by (apply Z.eqb_neq; unfold len; simpl; lia).
    rewrite Hnz.
    eexists st, _, _. split; [reflexivity|]. split; [reflexivity|].
    cbn [iterations relevantChunks totalFound].
    rewrite Hall. split_and!; auto; try lia.
    + now apply (ends_settled go).
    + intros pre c t Heq Ht. destruct go; simpl in Hends.
      * rewrite Heq in Hends. apply Forall_app in Hends as [_ Hends].
        inversion Hends as [|? ? Hq _]; subst. simpl in Hq. lia.
      * destruct Hends as (pre' & c' & Htr & _ & _). rewrite Htr in Heq.
        apply app_inj_tail in Heq as [_ Heq]. rewrite Hall in Heq.
        injection Heq as _ <-. reflexivity.
    + discriminate.
Qed.

End Run.
End RetrievalFacts.

(** ** Similarities that are not numbers *)

Module NaNFacts.
Local Open Scope float_scope.

Lemma is_nan_spec (x : float) : Prim2SF x = S754_nan -> x = nan.
Proof. intros H. apply Prim2SF_inj. rewrite H. reflexivity. Qed.

Lemma nan_mul (y : float) : nan * y = nan.
Proof. apply is_nan_spec. rewrite mul_spec. reflexivity. Qed.

Lemma add_nan (x : float) : x + nan = nan.
Proof.
  apply is_nan_spec. rewrite add_spec.
  change (Prim2SF nan) with S754_nan. now destruct (Prim2SF x).
Qed.

Lemma nan_div (y : float) : nan / y = nan.
Proof. apply is_nan_spec. rewrite div_spec. reflexivity. Qed.


Import JS JSFacts Types VectorStoreM Spec SearchFacts.

Lemma dot_stays_nan (e : list float) (n : nat) (n1 n2 : float) :
  exists a b,
    fold_left (fun '(dotProduct, norm1, norm2) '(x, y) =>
                 (dotProduct + x * y, norm1 + x * x, norm2 + y * y))
      (combine (replicate n nan) e) (nan, n1, n2) = (nan, a, b).
Proof.
  revert n n1 n2. induction e as [|y e IH]; intros n n1 n2.
  - destruct n; simpl; eauto.
  - destruct n as [|n]; [simpl; eauto|].
    cbn [replicate combine fold_left]. rewrite nan_mul, add_nan. apply IH.
Qed.

Lemma cosine_nan (e : list float) :
  length e = 300%nat -> cosineSimilarity (replicate 300 nan) e = Some nan.
Proof.
  intros He. unfold cosineSimilarity. rewrite length_replicate, He. cbn [Nat.eqb negb].
  destruct e as [|y e]; [discriminate|].
  change (replicate 300 nan) with (nan :: replicate 299 nan).
  cbn [combine fold_left]. rewrite nan_mul, add_nan.
  destruct (dot_stays_nan e 299 (0 + nan * nan) (0 + y * y)) as (a & b & ->).
  now rewrite nan_div.
Qed.

Lemma empty_query_embedding : generateSimpleEmbedding [] = replicate 300 nan.
Proof. vm_compute. reflexivity. Qed.


Lemma similarities_nan (s0 : VectorStore) (cs : list TaggedChunk) (f : option str) :
  forall pre rest, cs = pre ++ rest ->
    similarities (addChunks s0 cs) (replicate 300 nan) f (length pre)
      (map embedding_of rest)
    = Some (map (fun p => (fst p, nan))
              (List.filter (fun '(_, c) => passes f c)
                 (imap (fun idx c => (length pre + idx, c)%nat) rest))).
Proof.
  intros pre rest. revert pre. induction rest as [|c rest IH]; intros pre Hcs; [reflexivity|].
  cbn [map similarities imap List.filter].
  rewrite cosine_nan by apply embedding_length.
  specialize (IH (pre ++ [c])). rewrite <- app_assoc in IH. specialize (IH Hcs).
  rewrite length_app in IH. cbn [length] in IH.
  replace (length pre + 1)%nat with (S (length pre)) in IH by lia.
  rewrite IH.
  assert (Hext : imap (fun idx c0 => (S (length pre) + idx, c0)%nat) rest
                 = imap ((fun idx c0 => (length pre + idx, c0)%nat) ∘ S) rest).
  { apply imap_ext. intros i x _. simpl. f_equal. lia. }
  rewrite Hext. rewrite Nat.add_0_r.
  assert (Hc : chunks (addChunks s0 cs) !! length pre = Some c).
  { cbn. rewrite Hcs. apply list_lookup_middle. reflexivity. }
  rewrite Hc. cbn [mbind option_bind].
  destruct (passes f c) eqn:Hpass; unfold passes in Hpass;
    destruct (given f) as [tag|]; try rewrite Hpass; try discriminate; reflexivity.
Qed.

Lemma semanticSearch_empty_query (s0 : VectorStore) (cs : list TaggedChunk)
    (topK : Z) (f : option str) :
  semanticSearch (addChunks s0 cs) [] topK f
  = Some (map (result_for nan) (slice (List.filter (passes f) cs) 0 (Some topK))).
Proof.
  unfold semanticSearch. rewrite empty_query_embedding.
  pose proof (similarities_nan s0 cs f [] cs eq_refl) as Hs.
  cbn [length Nat.add] in Hs. fold (candidate_pairs cs f) in Hs.
  change (embeddings (addChunks s0 cs)) with (map embedding_of cs).
  rewrite Hs. cbn [mbind option_bind].
  rewrite (sort_keeps_order_on (fun p => snd p = nan)).
  - rewrite slice_map, <- candidate_pairs_chunks.
    change (snd <$> candidate_pairs cs f) with (map snd (candidate_pairs cs f)).
    rewrite slice_map, map_map.
    assert (Hlook : Forall (fun p => cs !! fst p = Some (snd p))
                      (slice (candidate_pairs cs f) 0 (Some topK))).
    { apply Forall_forall. intros p Hp. apply (candidate_pairs_spec cs f).
      eapply elem_of_sublist; [exact Hp | apply slice_sublist]. }
    apply mapM_Some. induction Hlook as [|p L Hp _ IH]; cbn [map]; constructor.
    + cbn. rewrite Hp. reflexivity.
    + exact IH.
  - intros x y Hx Hy. unfold descending. rewrite Hx, Hy. reflexivity.
  - apply Forall_forall. intros p Hp. apply list_elem_of_fmap in Hp as (? & -> & _). reflexivity.
Qed.

End NaNFacts.

(** * Main results *)

Module SegmentationClaims.
Import JS Regex Types Chunking Spec RegexFacts ChunkingFacts.

(** *** C2: tables in a document without headings *)

(** C2 (the code at the failing input): the text is one table, detected as
    the range 0 to 18, with no heading; the fallback splits it at its white
    space into three chunks, each holding a part of the table, and none
    holding the table. *)
Theorem C2_headerless_table_is_split :
  extractTables small_table = Some [(small_table, {| start := 0; stop := 18 |})] /\
  matchAll headerPattern small_table = [] /\
  exists chunks,
    chunkDocument small_table tight_config = Some chunks /\
    map content chunks = [lit "|a|b|"; lit "b| |-|-|"; lit "-| |c|d| "] /\
    map containsTable chunks = [Some false; Some false; Some false] /\
    forallb (fun c => negb (includes (trim small_table) (content c))) chunks = true.
Proof.
  split; [vm_compute; reflexivity|]. split; [vm_compute; reflexivity|].
  let outcome := eval vm_compute in (chunkDocument small_table tight_config) in
  match outcome with
  | Some ?chunks => exists chunks
  end.
  split_and!; vm_compute; reflexivity.
Qed.

(** *** C8: the character count of a chunk *)

(** C8: the segmentation returns on every text and configuration, and every
    chunk it returns carries the length of its content as its [charCount];
    so does every chunk that [splitLargeChunk] makes of a large section,
    whose content is the trimmed piece. *)
Theorem C8_charCount_is_length (markdownText : str) (config : ChunkingConfig) :
  (exists chunks,
     chunkDocument markdownText config = Some chunks /\
     Forall (fun c => charCount c = Some (len (content c))) chunks) /\
  (forall chunkContent header,
     exists pieces chunks,
       recursiveChunkWithOverlap chunkContent (maxChunkSize config) (overlap config)
         = Some pieces /\
       splitLargeChunk chunkContent header (maxChunkSize config) (overlap config)
         = Some chunks /\
       map content chunks = map trim pieces /\
       Forall (fun c => charCount c = Some (len (content c))) chunks).
Proof.
  split; [|intros chunkContent header; unfold splitLargeChunk;
           destruct (recursiveChunkWithOverlap_total chunkContent (maxChunkSize config)
                       (overlap config)) as [pieces ->];
           eexists _, _; split; [reflexivity|]; split; [reflexivity|];
           split; [|apply mapi_from_counted; intros; reflexivity];
           unfold mapi; generalize 0; generalize (len pieces >? 1);
           induction pieces as [|piece pieces IH]; intros many i;
             [reflexivity | cbn [mapi_from map]; f_equal; apply IH]].
  unfold chunkDocument.
  destruct (_ || _); [exists []; split; [reflexivity | constructor]|].
  destruct (extractTables_total markdownText) as [tables ->].
  cbv zeta. destruct (_ =? 0).
  - destruct (recursiveChunkWithOverlap_total markdownText (maxChunkSize config)
                (overlap config)) as [texts ->].
    eexists. split; [reflexivity|]. apply mapi_from_counted. intros; reflexivity.
  - apply process_counted; [|lia|constructor].
    induction (matchAll headerPattern markdownText) as [|m ms IH]; [constructor|].
    cbn [flat_map]. apply Forall_app. split; [apply rawChunk_counted | exact IH].
Qed.

End SegmentationClaims.

Module Claims.
Import JS Types VectorStoreM HybridSearch CorrectiveRAG Spec.
Import JSFacts SearchFacts RetrievalFacts NaNFacts.

(** *** C1: grading that fails *)

Lemma failed_grading_is_accepted : accepted (gradeChunkRelevance Failure) = true.
Proof. reflexivity. Qed.

Lemma unreadable_answer_is_rejected (body : option str) :
  (forall line, In line (split_char (ascii_of_N 10) (default [] body)) ->
                startsWith (lit "RELEVANT:") line = false) ->
  accepted (gradeChunkRelevance (Message body)) = false.
Proof.
  intros Hlines. unfold gradeChunkRelevance, accepted.
  generalize dependent (split_char (ascii_of_N 10) (default [] body)). intros lines Hlines.
  assert (H : forall g, relevant g = false ->
                        relevant (fold_left read_line lines g) = false).
  { induction lines as [|line lines IH]; intros g Hg; [exact Hg|].
    cbn [fold_left]. apply IH; [intros l Hl; apply Hlines; now right|].
    unfold read_line. rewrite (Hlines line (or_introl eq_refl)).
    destruct (startsWith (lit "SCORE:") line).
    - destruct (parse_score _); exact Hg.
    - destruct (startsWith (lit "REASON:") line); exact Hg. }
  now rewrite H.
Qed.

(** C1 (the code at the failing input): the store holds one chunk and every
    call of the language-model service throws; the chunk is retrieved and
    graded, the error path of the grader marks it relevant with a medium
    score, and the controller adds it to the accepted set instead of
    leaving it out. *)
Theorem C1_failed_grading_accepts_chunk :
  exists result tr,
    correctiveRAGRetrieval failing_service lone_searcher (lit "learning") 1 1
      = Some (result, tr) /\
    map result_chunkId (relevantChunks result) = [chunkKey 0] /\
    map relevanceGrade (relevantChunks result)
      = [Some {| relevant := true; score := medium;
                 reason := lit "Error during grading" |}] /\
    grading_prompts tr
      = [gradingPrompt (lit "Machine learning in healthcare") (lit "learning")].
Proof.
  run_to_the_end
    (correctiveRAGRetrieval failing_service lone_searcher (lit "learning") 1 1).
  split_and!; vm_compute; reflexivity.
Qed.

(** *** C3: the bound on the search cycles *)

(** C3: with [maxIterations >= 1] the run returns; the reported iterations
    are the number of searches of the loop and do not exceed
    [maxIterations]; once the accepted set is counted at three or more
    nothing follows in the run (no search, grading or rewrite), and the
    accepted set is returned as counted; in particular a first pass that
    reaches three gives [iterations = 1]. *)
Theorem C3_search_cycles_bounded (groq : service) (bm : BM25M.BM25) (docs : list str)
    (s0 : VectorStore) (cs : list TaggedChunk) (query : str) (maxIterations topK : Z) :
  1 <= maxIterations ->
  exists result tr,
    correctiveRAGRetrieval groq (searcher_over bm docs s0 cs) query maxIterations topK
      = Some (result, tr) /\
    iterations result = len (searches tr) /\
    iterations result <= maxIterations /\
    (forall pre c t post,
        tr = pre ++ Counted c t :: post -> 3 <= t ->
        post = [] /\ len (relevantChunks result) = t) /\
    (forall q k rs prompts c t post,
        tr = Searched q k rs :: map Graded prompts ++ Counted c t :: post -> 3 <= t ->
        iterations result = 1).
Proof.
  intros Hmax.
  destruct (retrieval_spec groq bm docs s0 cs query maxIterations topK)
    as (st & result & tr & _ & Hrun & Hcount & Hbound & _ & Hsettled & _ & Hlast & _).
  exists result, tr. split_and!; [exact Hrun | exact Hcount | lia | |].
  - intros pre c t post Heq Ht.
    pose proof (Hsettled pre c t post Heq Ht) as ->. split; [reflexivity|].
    now apply (Hlast pre c t).
  - intros q k rs prompts c t post Heq Ht.
    pose proof (Hsettled (Searched q k rs :: map Graded prompts) c t post Heq Ht) as ->.
    rewrite Hcount, Heq.
    change (Searched q k rs :: map Graded prompts ++ [Counted c t])
      with ([Searched q k rs] ++ (Graded <$> prompts) ++ [Counted c t]).
    rewrite !searches_app, searches_graded. reflexivity.
Qed.

Lemma C3_search_cycles_bounded_witness :
  1 <= 5 /\
  exists result tr,
    correctiveRAGRetrieval approving_service test_searcher (lit "learning") 5 3
      = Some (result, tr) /\
    iterations result = len (searches tr) /\
    iterations result <= 5 /\
    (forall pre c t post,
        tr = pre ++ Counted c t :: post -> 3 <= t ->
        post = [] /\ len (relevantChunks result) = t) /\
    (forall q k rs prompts c t post,
        tr = Searched q k rs :: map Graded prompts ++ Counted c t :: post -> 3 <= t ->
        iterations result = 1).
Proof.
  split; [lia|].
  apply (C3_search_cycles_bounded approving_service BM25M.new [] VectorStoreM.new
           three_chunks (lit "learning") 5 3).
  lia.
Defined.

(** The example of the claim: five iterations allowed, three chunks
    accepted on the first pass, one iteration reported. *)
Lemma first_pass_suffices :
  exists result tr,
    correctiveRAGRetrieval approving_service test_searcher (lit "learning") 5 3
      = Some (result, tr) /\
    len (relevantChunks result) = 3 /\ iterations result = 1.
Proof.
  run_to_the_end
    (correctiveRAGRetrieval approving_service test_searcher (lit "learning") 5 3).
  split_and!; vm_compute; reflexivity.
Qed.

(** *** C4: the fallback *)

(** C4: the run returns; when the loop ends with an empty accepted set, the
    hybrid search is run once more with the original query and [topK], its
    results are returned as they are (no grade attached), and that search is
    the last thing the run does; over a non-empty store and with
    [topK >= 1] the returned chunks are never empty. *)
Theorem C4_fallback_never_empty (groq : service) (bm : BM25M.BM25) (docs : list str)
    (s0 : VectorStore) (cs : list TaggedChunk) (query : str) (maxIterations topK : Z) :
  cs <> [] -> 1 <= topK ->
  exists st result tr,
    loop groq (searcher_over bm docs s0 cs) query maxIterations topK
      (S (Z.to_nat maxIterations)) (initial query) = Some st /\
    correctiveRAGRetrieval groq (searcher_over bm docs s0 cs) query maxIterations topK
      = Some (result, tr) /\
    (allRelevantChunks st = [] ->
     exists fallbackResults,
       search (searcher_over bm docs s0 cs) query topK 0.5 None = Some fallbackResults /\
       relevantChunks result = fallbackResults /\
       tr = trace st ++ [FellBack query topK fallbackResults] /\
       Forall (fun r => relevanceGrade r = None) fallbackResults) /\
    relevantChunks result <> [].
Proof.
  intros Hcs Htop.
  destruct (retrieval_spec groq bm docs s0 cs query maxIterations topK)
    as (st & result & tr & Hloop & Hrun & _ & _ & _ & _ & _ & _ & _ & _ & Hfb & _ & Hne).
  exists st, result, tr. split_and!; auto.
Qed.

Lemma C4_fallback_never_empty_witness :
  three_chunks <> [] /\ 1 <= 2 /\
  exists st result tr,
    loop failing_service test_searcher (lit "learning") 0 2
      (S (Z.to_nat 0)) (initial (lit "learning")) = Some st /\
    correctiveRAGRetrieval failing_service test_searcher (lit "learning") 0 2
      = Some (result, tr) /\
    (allRelevantChunks st = [] ->
     exists fallbackResults,
       search test_searcher (lit "learning") 2 0.5 None = Some fallbackResults /\
       relevantChunks result = fallbackResults /\
       tr = trace st ++ [FellBack (lit "learning") 2 fallbackResults] /\
       Forall (fun r => relevanceGrade r = None) fallbackResults) /\
    relevantChunks result <> [].
Proof.
  split; [discriminate|]. split; [lia|].
  apply (C4_fallback_never_empty failing_service BM25M.new [] VectorStoreM.new
           three_chunks (lit "learning") 0 2); [discriminate | lia].
Defined.

(** *** C7: what the grader is asked *)


(** *** C10: the shape of the result *)




(** *** C5: the lexical index over no document *)

(** C5 (as stated, at a fresh index built on no document): the scores are
    empty, but the build did divide by zero, so the two halves of the claim
    do not hold together. *)
Lemma C5_build_divides_by_zero :
  ~ (let built := BM25M.initialize (fun x => x) BM25M.new [] in
     (forall q, BM25M.getScores built q = []) /\
     PrimFloat.eqb (snd (BM25M.average_operands (BM25M.docLengths built))) 0 = false).
Proof. intros [_ H]. vm_compute in H. discriminate. Qed.

(** C5 (amended): after a build on no document the scores of every query are
    the empty sequence; the build does not short-circuit: it divides the
    total length 0 by the document count 0, and [avgDocLength] is the
    resulting NaN. *)
Theorem C5_empty_build_scores_nothing (Math_log : float -> float) (index : BM25M.BM25) :
  let built := BM25M.initialize Math_log index [] in
  (forall q, BM25M.getScores built q = []) /\
  BM25M.documents built = [] /\
  BM25M.average_operands (BM25M.docLengths built) = (0%float, 0%float) /\
  BM25M.avgDocLength built = (0 / 0)%float /\
  PrimFloat.is_nan (BM25M.avgDocLength built) = true.
Proof. cbv zeta. split_and!; reflexivity. Qed.

(** *** C6: the tag filter of the hybrid search *)

(** C6 (as stated, with the empty string as the filter, over a store of one
    chunk tagged [summary]): the search returns that chunk, whose tags do
    not contain the filter value. *)
Lemma C6_empty_filter_is_no_filter :
  exists rs r,
    search lone_searcher (lit "learning") 3 0.5 (Some []) = Some rs /\
    In r rs /\ result_tags r = [lit "summary"] /\ ~ In [] (result_tags r).
Proof.
  let outcome := eval vm_compute in
      (search lone_searcher (lit "learning") 3 0.5 (Some [])) in
  match outcome with
  | Some [?r] => exists [r], r
  end.
  split; [vm_compute; reflexivity|]. split; [left; reflexivity|].
  split; [reflexivity|]. simpl. intros [H|[]]. discriminate.
Qed.

Lemma passes_tag (tag : str) (c : TaggedChunk) :
  tag <> [] -> passes (Some tag) c = true -> tag ∈ tags c.
Proof.
  intros Hne. unfold passes, given. destruct tag; [congruence|].
  unfold has_tag. intros H. now apply bool_decide_eq_true in H.
Qed.

(** C6 (amended): over chunks with pairwise distinct identifiers and for a
    non-empty filter value, whatever the query, [topK] and [alpha]
    (0 and 1 included), the search returns, and every result is a stored
    chunk whose tags contain the filter value; when no chunk has the tag
    the result is empty. *)
Theorem C6_filter_excludes_untagged (bm : BM25M.BM25) (docs : list str)
    (s0 : VectorStore) (cs : list TaggedChunk) (query : str) (topK : Z)
    (alpha : float) (tag : str) :
  NoDup (map chunkId cs) -> tag <> [] ->
  exists rs,
    search (searcher_over bm docs s0 cs) query topK alpha (Some tag) = Some rs /\
    Forall (fun r => In tag (result_tags r) /\
                     exists c : TaggedChunk,
                       In c cs /\ In tag (tags c) /\
                       result_chunkId r = chunkKey (chunkId c) /\
                       result_tags r = tags c /\
                       result_content r = content c /\
                       result_header r = header c) rs /\
    ((forall c : TaggedChunk, In c cs -> ~ In tag (tags c)) -> rs = []).
Proof.
  intros Hids Htag.
  destruct (search_spec bm docs s0 cs query topK alpha (Some tag))
    as (rs & Hrs & _ & Hres & _).
  exists rs. split; [exact Hrs|].
  assert (Hall : Forall (fun r => In tag (result_tags r) /\
                     exists c : TaggedChunk,
                       In c cs /\ In tag (tags c) /\
                       result_chunkId r = chunkKey (chunkId c) /\
                       result_tags r = tags c /\
                       result_content r = content c /\
                       result_header r = header c) rs).
  { eapply Forall_impl; [exact Hres|].
    intros r (_ & c & c' & Hc & Hp & Hc' & Hid & Hkey & Ht & Hco & Hh).
    assert (c' = c) as -> by (symmetry; now apply (same_id_same_chunk cs)).
    pose proof (passes_tag tag c Htag Hp) as Hin. apply list_elem_of_In in Hin.
    split; [now rewrite Ht|].
    exists c. split_and!; auto. now apply list_elem_of_In. }
  split; [exact Hall|].
  intros Hnone. destruct rs as [|r rs]; [reflexivity|].
  inversion Hall as [|? ? (_ & c & Hc & Hin & _) _]; subst.
  destruct (Hnone c Hc Hin).
Qed.

Lemma C6_filter_excludes_untagged_witness :
  NoDup (map chunkId three_chunks) /\ lit "methods" <> [] /\
  exists rs,
    search test_searcher (lit "networks") 3 0 (Some (lit "methods")) = Some rs /\
    Forall (fun r => In (lit "methods") (result_tags r) /\
                     exists c : TaggedChunk,
                       In c three_chunks /\ In (lit "methods") (tags c) /\
                       result_chunkId r = chunkKey (chunkId c) /\
                       result_tags r = tags c /\
                       result_content r = content c /\
                       result_header r = header c) rs /\
    ((forall c : TaggedChunk, In c three_chunks -> ~ In (lit "methods") (tags c)) -> rs = []).
Proof.
  assert (Hids : NoDup (map chunkId three_chunks))
    by (apply (bool_decide_unpack _); vm_compute; reflexivity).
  split; [exact Hids|]. split; [discriminate|].
  apply (C6_filter_excludes_untagged BM25M.new [] VectorStoreM.new three_chunks
           (lit "networks") 3 0 (lit "methods")); [exact Hids | discriminate].
Defined.

(** *** C9: the embedding index on an empty store, and the empty query *)

(** C9 (as stated, for the empty query over three chunks and [topK = 2]):
    the two results do not come in descending order of score; both scores
    are NaN. *)
Lemma C9_empty_query_is_not_ranked :
  exists first second,
    semanticSearch (addChunks VectorStoreM.new three_chunks) [] 2 None
      = Some [first; second] /\
    PrimFloat.leb (result_score second) (result_score first) = false /\
    PrimFloat.is_nan (result_score first) = true.
Proof.
  let outcome := eval vm_compute in
      (semanticSearch (addChunks VectorStoreM.new three_chunks) [] 2 None) in
  match outcome with
  | Some [?first; ?second] => exists first, second
  end.
  split_and!; vm_compute; reflexivity.
Qed.

(** C9 (amended): a search of an empty store returns the empty sequence for
    every query; the empty query takes the same path as any other: its
    embedding of 300 components is computed, every component is NaN, and the
    search returns, in the order of the store and each with a NaN score, the
    first [topK] chunks that pass the tag filter. *)
Theorem C9_empty_store_and_empty_query (s0 : VectorStore) (cs : list TaggedChunk)
    (query : str) (topK : Z) (tagFilter : option str) :
  semanticSearch VectorStoreM.new query topK tagFilter = Some [] /\
  semanticSearch (addChunks s0 []) query topK tagFilter = Some [] /\
  generateSimpleEmbedding [] = replicate 300 PrimFloat.nan /\
  semanticSearch (addChunks s0 cs) [] topK tagFilter
  = Some (map (result_for PrimFloat.nan)
            (slice (List.filter (passes tagFilter) cs) 0 (Some topK))).
Proof.
  assert (Hempty : forall store, embeddings store = [] ->
                     semanticSearch store query topK tagFilter = Some []).
  { intros store Hstore. unfold semanticSearch. rewrite Hstore. cbn.
    unfold slice. cbn [length skipn]. now rewrite skipn_nil, firstn_nil. }
  split_and!.
  - now apply Hempty.
  - now apply Hempty.
  - apply empty_query_embedding.
  - apply semanticSearch_empty_query.
Qed.

End Claims.

(** * Further properties *)

Module SectionFacts.
Import JS Regex Types Chunking Spec SegmentationTerms RegexFacts ChunkingFacts.




Lemma filter_app' {A} (P : A -> bool) (l k : list A) :
  List.filter P (l ++ k) = List.filter P l ++ List.filter P k.
Proof. apply List.filter_app. Qed.


End SectionFacts.

Module HeadingFacts.
Import JS Regex Types Chunking Spec SegmentationTerms RegexFacts ChunkingFacts SectionFacts.

Lemma heading_needs_hash (k : cont) (x : mstate) :
  no_hash_first (rest x) -> run heading_marker k x = None.
Proof.
  intros H. unfold heading_marker. cbn [run].
  replace (1 + length (rest x) + 1)%nat with (S (S (length (rest x)))) by lia.
  cbn [repeat Nat.eqb negb]. unfold char. cbn [run].
  destruct (rest x) as [|c s']; [reflexivity|]. cbn [no_hash_first] in H. now rewrite H.
Qed.


Lemma run_seq (r1 r2 : regex) (k : cont) (x : mstate) :
  run (Seq r1 r2) k x = run r1 (run r2 k) x.
Proof. reflexivity. Qed.

(** Where a match of the header pattern ends. *)
Lemma headerPattern_ends (before : option ascii) (s : str) (y : mstate) :
  match_here headerPattern before s = Some y -> heading_or_Z_ahead (rest y).
Proof.
  unfold match_here, headerPattern. intros H.
  rewrite (run_seq (Seq Bol _) (Ahead _)) in H.
  apply run_forward in H as (x' & _ & H).
  cbn [run] in H.
  match type of H with context [or_else ?a ?b] => destruct a as [z|] eqn:E1; [|destruct b as [z|] eqn:E2] end;
    cbn [or_else] in H; try discriminate; injection H as <-.
  - left. unfold char in E1. cbn [run] in E1.
    destruct (rest x') as [|c s'] eqn:Er; [discriminate|].
    destruct (Ascii.eqb_spec LF c) as [<-|]; [|discriminate].
    destruct s' as [|d s''].
    + rewrite heading_needs_hash in E1 by exact I. discriminate.
    + destruct (Ascii.eqb_spec "#" d) as [<-|Hd]; [eauto|].
      rewrite heading_needs_hash in E1; [discriminate|].
      cbn [rest no_hash_first]. now apply Ascii.eqb_neq.
  - right. unfold char in E2. cbn [run] in E2.
    destruct (rest x') as [|c s'] eqn:Er; [discriminate|].
    destruct (Ascii.eqb_spec "Z" c) as [<-|]; [eauto | discriminate].
Qed.

Lemma skipn_cons_nth {A} (l : list A) (i : nat) (x : A) :
  nth_error l i = Some x -> skipn i l = x :: skipn (S i) l.
Proof.
  revert i. induction l as [|a l IH]; intros [|i] E; try discriminate.
  - now injection E as ->.
  - cbn in E. rewrite skipn_cons. now apply IH.
Qed.

(** What a match found by a search is made of. *)
Lemma search_found (r : regex) (before : option ascii) (s : str) (off : nat) (y : mstate) :
  search r before s = Some (off, y) ->
  let from := skipn off s in
  (off <= length s)%nat /\
  match_here r (prev_after before s off) from = Some y /\
  from = firstn (consumed from y) from ++ rest y /\
  length (firstn (consumed from y) from) = consumed from y.
Proof.
  intros H. apply search_offset in H as [Hoff Hm]. cbv zeta.
  split; [exact Hoff|]. split; [exact Hm|].
  pose proof (match_here_suffix _ _ _ _ Hm) as [pre Hpre]. unfold consumed.
  rewrite Hpre, length_app.
  replace (length pre + length (rest y) - length (rest y))%nat with (length pre) by lia.
  rewrite take_app_length. split; reflexivity.
Qed.

Lemma matchAll_loop_found (r : regex) (fuel : nat) :
  forall at_index before s m,
    In m (matchAll_loop fuel r at_index before s) ->
    exists before' y,
      (at_index <= index m)%nat /\
      match_here r before' (skipn (index m - at_index) s) = Some y /\
      skipn (index m - at_index) s = text m ++ rest y.
Proof.
  induction fuel as [|fuel IH]; intros at_index before s m Hin; [destruct Hin|].
  cbn [matchAll_loop] in Hin.
  destruct (search r before s) as [[off y]|] eqn:E; [|destruct Hin].
  apply search_found in E as (Hoff & Hm & Hsplit & _). cbv zeta in Hin.
  destruct Hin as [<-|Hin].
  - cbn [index text]. exists (prev_after before s off), y.
    replace (at_index + off - at_index)%nat with off by lia.
    split; [lia|]. split; [exact Hm | exact Hsplit].
  - destruct (_ <? _)%nat; [destruct Hin|].
    apply IH in Hin as (before' & y' & Hge & Hm' & Hs').
    set (step := if Nat.eqb (consumed (skipn off s) y) 0 then 1%nat else consumed (skipn off s) y) in *.
    rewrite skipn_skipn in Hm', Hs'. rewrite skipn_skipn in Hm', Hs'.
    replace (index m - (at_index + off + step) + step + off)%nat
      with (index m - at_index)%nat in Hm', Hs' by lia.
    exists before', y'. split; [lia|]. split; assumption.
Qed.

(** Every section cut at a heading stops right before a line break and a
    heading marker, or right before a letter Z. *)
Lemma section_ends (markdownText : str) (m : found) :
  In m (matchAll headerPattern markdownText) ->
  exists after,
    skipn (index m) markdownText = text m ++ after /\ heading_or_Z_ahead after.
Proof.
  intros Hin. apply matchAll_loop_found in Hin as (before & y & _ & Hm & Hs).
  rewrite Nat.sub_0_r in Hm, Hs. exists (rest y). split; [exact Hs|].
  now apply headerPattern_ends in Hm.
Qed.

End HeadingFacts.

Module SegmentationFacts.
Import JS Regex Types Chunking Spec SegmentationTerms.
Import JSFacts RegexFacts ChunkingFacts SectionFacts HeadingFacts.

Lemma trimStart_head (s : str) (c : ascii) (t : str) :
  trimStart s = c :: t -> is_space c = false.
Proof.
  induction s as [|a s IH]; cbn [trimStart]; [discriminate|].
  destruct (is_space a) eqn:E; [exact IH|]. intros H. injection H as <- _. exact E.
Qed.






Lemma heading_inside_app (l r : str) :
  heading_inside (l ++ LF :: "#"%char :: r) = true.
Proof.
  induction l as [|c l IH]; [reflexivity|].
  cbn [app heading_inside]. rewrite IH. apply orb_true_r.
Qed.

(** Without a letter Z and without a heading after a line break, the header
    pattern matches nowhere. *)
Lemma headings_need_a_follower (s : str) :
  Forall (fun c => c <> "Z"%char) s -> heading_inside s = false ->
  matchAll headerPattern s = [].
Proof.
  intros HZ Hh. destruct (matchAll headerPattern s) as [|m ms] eqn:E; [reflexivity|].
  exfalso. destruct (section_ends s m) as (after & Hs & Hafter); [rewrite E; now left|].
  pose proof (firstn_skipn (index m) s) as Hcut. rewrite Hs in Hcut.
  destruct Hafter as [[r ->]|[r ->]].
  - rewrite <- Hcut, app_assoc, heading_inside_app in Hh. discriminate.
  - rewrite <- Hcut in HZ. apply Forall_app in HZ as [_ HZ]. apply Forall_app in HZ as [_ HZ].
    inversion HZ; congruence.
Qed.

Lemma exec_loop_chain (r : regex) (fuel : nat) :
  forall at_index before s found,
    exec_loop fuel r at_index before s = Some found ->
    chain at_index found /\
    Forall (fun m => (index m + length (text m) <= at_index + length s)%nat /\
                     text m = firstn (length (text m)) (skipn (index m - at_index) s)) found.
Proof.
  induction fuel as [|fuel IH]; intros at_index before s found H; [discriminate|].
  cbn [exec_loop] in H. destruct (search r before s) as [[off y]|] eqn:E.
  2:{ injection H as <-. split; constructor. }
  apply search_found in E as (Hoff & _ & Hsplit & Hlen). cbv zeta in H.
  set (from := skipn off s) in *. set (n := consumed from y) in *.
  destruct (Nat.eqb_spec n 0) as [|Hn]; [discriminate|].
  destruct (exec_loop fuel r _ _ _) as [more|] eqn:Emore; [|discriminate].
  injection H as <-. apply IH in Emore as [Hchain Hall].
  assert (Hfit : (n <= length from)%nat)
    by (pose proof Hlen as Hmin; rewrite length_take in Hmin; lia).
  unfold from in Hfit. rewrite length_skipn in Hfit.
  split.
  - cbn [chain index text]. rewrite Hlen. split; [lia|]. split; [lia|].
    replace (at_index + off + n)%nat with (at_index + off + n)%nat by lia. exact Hchain.
  - constructor.
    + cbn [index text]. rewrite Hlen. split; [lia|].
      replace (at_index + off - at_index)%nat with off by lia.
      reflexivity.
    + assert (Hfrom : forall m, In m more -> (at_index + off + n <= index m)%nat).
      { clear -Hchain. revert Hchain. generalize (at_index + off + n)%nat.
        induction more as [|a more IHm]; intros start Hc m Hin; [destruct Hin|].
        cbn [chain] in Hc. destruct Hc as (Ha & Hpos & Hc).
        destruct Hin as [<-|Hin]; [exact Ha|].
        specialize (IHm _ Hc m Hin). lia. }
      apply Forall_forall. intros m Hm. rewrite Forall_forall in Hall.
      destruct (Hall m Hm) as [Hend Htext]. apply list_elem_of_In in Hm.
      specialize (Hfrom m Hm).
      unfold from in Hend, Htext. rewrite !length_skipn in Hend.
      rewrite !skipn_skipn in Htext.
      replace (index m - (at_index + off + n) + n + off)%nat
        with (index m - at_index)%nat in Htext by lia.
      split; [lia | exact Htext].
Qed.

Lemma short_text_chunks (markdownText : str) (config : ChunkingConfig) :
  trim markdownText <> [] ->
  len markdownText <= maxChunkSize config ->
  Forall (fun c => c <> "Z"%char) markdownText ->
  heading_inside markdownText = false ->
  chunkDocument markdownText config
  = Some [{| header := lit "Chunk 1"; content := markdownText;
             charCount := Some (len markdownText); containsTable := Some false |}].
Proof.
  intros Hblank Hshort HZ Hh. unfold chunkDocument.
  assert (Hne : nonempty markdownText = true) by (destruct markdownText; [now destruct Hblank | reflexivity]).
  assert (Hlen : (len (trim markdownText) =? 0) = false).
  { apply Z.eqb_neq. unfold len. destruct (trim markdownText); [congruence | cbn; lia]. }
  rewrite Hne, Hlen. cbn [negb orb].
  destruct (extractTables_total markdownText) as [tables ->]. cbv zeta.
  rewrite (headings_need_a_follower _ HZ Hh). change (len [] =? 0) with true. cbv iota.
  unfold recursiveChunkWithOverlap. cbn [recursiveChunkWithOverlap_fuel].
  apply Z.leb_le in Hshort. rewrite Hshort. reflexivity.
Qed.

Lemma blank_text_chunks (text : str) (config : ChunkingConfig) :
  trim text = [] -> chunkDocument text config = Some [].
Proof.
  intros H. unfold chunkDocument. rewrite H. change (len [] =? 0) with true.
  now rewrite orb_true_r.
Qed.

End SegmentationFacts.

Module SegmentationResults.
Import JS Regex Types Chunking Spec SegmentationTerms.
Import JSFacts RegexFacts ChunkingFacts SectionFacts HeadingFacts SegmentationFacts.

Lemma slice_nat {A} (l : list A) (i n : nat) :
  (i + n <= length l)%nat ->
  slice l (Z.of_nat i) (Some (Z.of_nat i + Z.of_nat n)) = firstn n (skipn i l).
Proof.
  intros H. unfold slice, clamp_index.
  destruct (Z.ltb_spec (Z.of_nat i) 0); [lia|].
  destruct (Z.ltb_spec (Z.of_nat i + Z.of_nat n) 0); [lia|].
  rewrite !Z.min_l by lia. rewrite Z.max_l by lia.
  replace (Z.of_nat i + Z.of_nat n - Z.of_nat i) with (Z.of_nat n) by lia.
  now rewrite !Nat2Z.id.
Qed.

Lemma chain_in_a_row (from : nat) (found : list found) :
  chain from found ->
  in_a_row (Z.of_nat from)
    (map (fun m => {| start := Z.of_nat (index m);
                      stop := Z.of_nat (index m) + len (text m) |}) found).
Proof.
  revert from. induction found as [|m found IH]; intros from H; [exact I|].
  cbn [chain] in H. destruct H as (Hfrom & Hpos & Hchain).
  cbn [map in_a_row start stop]. unfold len. split; [lia|]. split; [lia|].
  rewrite <- Nat2Z.inj_add. now apply IH.
Qed.

Lemma chain_positive (from : nat) (matches : list found) (m : found) :
  chain from matches -> In m matches -> (0 < length (text m))%nat.
Proof.
  revert from. induction matches as [|a matches IH]; intros from Hc Hm; [destruct Hm|].
  cbn [chain] in Hc. destruct Hc as (_ & Hpos & Hc).
  destruct Hm as [<-|Hm]; [exact Hpos | now apply (IH _ Hc)].
Qed.

(** X2: the table scan returns on every text; each table it reports is the
    part of the text between its [start] and its [end], which is not empty
    and lies inside the text; the tables follow one another without
    overlap. *)
Theorem table_ranges_are_exact (markdownText : str) :
  exists tables,
    extractTables markdownText = Some tables /\
    Forall (sits_in markdownText) tables /\
    in_a_row 0 (map snd tables).
Proof.
  destruct (extractTables_total markdownText) as [tables Ht].
  exists tables. split; [exact Ht|].
  unfold extractTables, exec_all in Ht.
  destruct (exec_loop _ _ _ _ _) as [found|] eqn:E; [|discriminate].
  injection Ht as <-. apply exec_loop_chain in E as [Hchain Hall]. split.
  - apply Forall_forall. intros t Ht. apply list_elem_of_fmap in Ht as (m & -> & Hm).
    rewrite Forall_forall in Hall. destruct (Hall m Hm) as [Hend Htext].
    assert (Hpos : (0 < length (text m))%nat)
      by (apply (chain_positive 0 found); [exact Hchain | now apply list_elem_of_In]).
    cbn [sits_in start stop]. unfold len. rewrite Nat.sub_0_r in Htext.
    split; [lia|]. split; [lia|]. rewrite slice_nat by lia. exact Htext.
  - rewrite map_map. now apply (chain_in_a_row 0).
Qed.

(** X4: every section that the header pattern cuts is a part of the text,
    and the text goes on after it with a line break and a heading marker or
    with a capital letter Z; in a text without that letter every section is
    therefore followed by a further heading, and what follows the last
    heading is in no section. *)
Theorem sections_end_before_heading_or_Z (markdownText : str) (m : found) :
  In m (matchAll headerPattern markdownText) ->
  exists after,
    skipn (index m) markdownText = text m ++ after /\
    heading_or_Z_ahead after /\
    (Forall (fun c => c <> "Z"%char) markdownText ->
     exists s', after = LF :: "#"%char :: s').
Proof.
  intros Hin. destruct (section_ends markdownText m Hin) as (after & Hs & Hafter).
  exists after. split; [exact Hs|]. split; [exact Hafter|].
  intros HZ. destruct Hafter as [H|[s' ->]]; [exact H|]. exfalso.
  rewrite <- (firstn_skipn (index m) markdownText), Hs in HZ.
  apply Forall_app in HZ as [_ HZ]. apply Forall_app in HZ as [_ HZ].
  inversion HZ; congruence.
Qed.

Lemma sections_end_before_heading_or_Z_witness :
  In (Found 26 (lit "# Notes
") []) (matchAll headerPattern headed_document) /\
  exists after,
    skipn 26 headed_document = lit "# Notes
" ++ after /\
    heading_or_Z_ahead after /\
    (Forall (fun c => c <> "Z"%char) headed_document ->
     exists s', after = LF :: "#"%char :: s').
Proof.
  assert (Hin : In (Found 26 (lit "# Notes
") []) (matchAll headerPattern headed_document)) by (vm_compute; auto).
  split; [exact Hin|].
  exact (sections_end_before_heading_or_Z headed_document _ Hin).
Defined.

(** X3: a text that is not blank, is no longer than [maxChunkSize], holds no
    capital Z and no line break followed by [#] becomes exactly one chunk:
    its header is [Chunk 1] and its content is the whole text, untrimmed,
    also when the text begins with a heading. *)
Theorem short_text_is_one_chunk (markdownText : str) (config : ChunkingConfig) :
  trim markdownText <> [] ->
  len markdownText <= maxChunkSize config ->
  Forall (fun c => c <> "Z"%char) markdownText ->
  heading_inside markdownText = false ->
  chunkDocument markdownText config
  = Some [{| header := lit "Chunk 1"; content := markdownText;
             charCount := Some (len markdownText); containsTable := Some false |}].
Proof. exact (short_text_chunks markdownText config). Qed.

Lemma short_text_is_one_chunk_witness :
  trim titled_note <> [] /\ len titled_note <= maxChunkSize usual_config /\
  Forall (fun c => c <> "Z"%char) titled_note /\ heading_inside titled_note = false /\
  chunkDocument titled_note usual_config
  = Some [{| header := lit "Chunk 1"; content := titled_note;
             charCount := Some (len titled_note); containsTable := Some false |}].
Proof.
  assert (H1 : trim titled_note <> []) by (vm_compute; discriminate).
  assert (H2 : len titled_note <= maxChunkSize usual_config) by (vm_compute; discriminate).
  assert (H3 : Forall (fun c => c <> "Z"%char) titled_note)
    by (repeat constructor; discriminate).
  assert (H4 : heading_inside titled_note = false) by (vm_compute; reflexivity).
  split_and!; try assumption.
  exact (short_text_is_one_chunk titled_note usual_config H1 H2 H3 H4).
Defined.



End SegmentationResults.

Module RankingFacts.
Import JS Types VectorStoreM HybridSearch Spec JSFacts SearchFacts NaNFacts.

Lemma histogram_perm (s1 s2 : str) :
  Permutation s1 s2 ->
  forall acc : list float,
    fold_left (fun embedding c =>
                 alter (fun v => (v + 1)%float) (N.to_nat (code c mod 300)) embedding) s1 acc
    = fold_left (fun embedding c =>
                 alter (fun v => (v + 1)%float) (N.to_nat (code c mod 300)) embedding) s2 acc.
Proof.
  induction 1 as [|x l l' _ IH|x y l|l l' l'' _ IH1 _ IH2]; intros acc; cbn [fold_left].
  - reflexivity.
  - apply IH.
  - f_equal.
    destruct (Nat.eq_dec (N.to_nat (code x mod 300)) (N.to_nat (code y mod 300))) as [->|Hne];
      [reflexivity|].
    now apply list_alter_alter_ne.
  - now rewrite IH1.
Qed.

Lemma slice_length {A} (l : list A) (k : Z) :
  len (slice l 0 (Some k)) = if k <? 0 then Z.max 0 (len l + k) else Z.min k (len l).
Proof.
  unfold slice, clamp_index, len. change (0 <? 0) with false. cbv iota.
  rewrite length_take, length_drop.
  destruct (Z.ltb_spec k 0); lia.
Qed.

Lemma getChunkById_member (s0 : VectorStore) (cs : list TaggedChunk) (c : TaggedChunk) :
  NoDup (chunkId <$> cs) -> c ∈ cs ->
  getChunkById (addChunks s0 cs) (chunkKey (chunkId c)) = Some c.
Proof.
  intros Hnd Hc. rewrite getChunkById_key. cbn [chunks addChunks].
  destruct (find_member cs c Hc) as (c' & -> & Hc' & Hid).
  f_equal. now apply (same_id_same_chunk cs).
Qed.

Lemma const_replicate {A B} (v : B) (l : list A) :
  map (fun _ => v) l = replicate (length l) v.
Proof. induction l as [|x l IH]; [reflexivity|]. cbn. now rewrite IH. Qed.

Local Open Scope float_scope.

Lemma tokenize_empty : BM25M.tokenize [] = [].
Proof. reflexivity. Qed.

Lemma no_term_scores_zero (bm : BM25M.BM25) (i : nat) :
  or_zero (BM25M.getScores bm [] !! i) = 0.
Proof.
  unfold BM25M.getScores. rewrite tokenize_empty, list_lookup_imap.
  destruct (BM25M.documents bm !! i); reflexivity.
Qed.

Lemma max_of_zeros (n : nat) : max_or_zero (replicate n 0) = 0.
Proof.
  unfold max_or_zero. destruct n as [|n]; [reflexivity|].
  rewrite length_replicate. cbn [Nat.ltb Nat.leb]. unfold max_of. cbn [replicate fold_left].
  change (max2 neg_infinity 0) with 0.
  induction n as [|n IH]; [reflexivity|]. cbn [replicate fold_left].
  change (max2 0 0) with 0. exact IH.
Qed.

Lemma max_of_nans_acc (n : nat) : fold_left max2 (replicate n nan) nan = nan.
Proof. induction n as [|n IH]; [reflexivity|]. cbn [replicate fold_left]. exact IH. Qed.

Lemma normalized_by_nans (n : nat) (x : float) :
  normalized (max_or_zero (replicate n nan)) x = 0.
Proof.
  unfold max_or_zero. destruct n as [|n]; [reflexivity|].
  rewrite length_replicate. cbn [Nat.ltb Nat.leb]. unfold max_of. cbn [replicate fold_left].
  change (max2 neg_infinity nan) with nan. now rewrite max_of_nans_acc.
Qed.

Lemma zero_map (rs : list SearchResult) (maxDist : float) :
  (forall x, normalized maxDist x = 0) ->
  forall (scores : gmap str float) (key : str),
    or_zero (scores !! key) = 0 ->
    or_zero (fold_left (fun scores result =>
                          <[result_chunkId result
                            := normalized maxDist (result_score result)]> scores)
                       rs scores !! key) = 0.
Proof.
  intros Hn. induction rs as [|r rs IH]; intros scores key H; [exact H|].
  cbn [fold_left]. apply IH. rewrite Hn.
  destruct (decide (result_chunkId r = key)) as [->|Hne].
  - now rewrite lookup_insert_eq.
  - now rewrite lookup_insert_ne.
Qed.

End RankingFacts.

Module SearchResults.
Import JS Types VectorStoreM HybridSearch Spec JSFacts SearchFacts NaNFacts RankingFacts.

(** X5: the embedding of a text depends on its characters in lower case and
    on how often each occurs, not on their order: two texts that are
    rearrangements of each other up to case have the same embedding, and a
    semantic search cannot tell them apart as queries. *)
Theorem embedding_ignores_order_and_case (text1 text2 : str) :
  Permutation (toLowerCase text1) (toLowerCase text2) ->
  generateSimpleEmbedding text1 = generateSimpleEmbedding text2 /\
  forall store topK tagFilter,
    semanticSearch store text1 topK tagFilter = semanticSearch store text2 topK tagFilter.
Proof.
  intros Hperm.
  assert (H : generateSimpleEmbedding text1 = generateSimpleEmbedding text2).
  { unfold generateSimpleEmbedding. cbv zeta. now rewrite (histogram_perm _ _ Hperm). }
  split; [exact H|]. intros store topK tagFilter. unfold semanticSearch. now rewrite H.
Qed.

Lemma embedding_ignores_order_and_case_witness :
  Permutation (toLowerCase (lit "ab")) (toLowerCase (lit "BA")) /\
  generateSimpleEmbedding (lit "ab") = generateSimpleEmbedding (lit "BA") /\
  forall store topK tagFilter,
    semanticSearch store (lit "ab") topK tagFilter
    = semanticSearch store (lit "BA") topK tagFilter.
Proof.
  assert (H : Permutation (toLowerCase (lit "ab")) (toLowerCase (lit "BA")))
    by apply perm_swap.
  split; [exact H|].
  exact (embedding_ignores_order_and_case (lit "ab") (lit "BA") H).
Defined.



(** X7: the hybrid search returns for every query, [topK], [alpha] and tag
    filter; of the [n] chunks that pass the filter it returns [topK] or, if
    there are fewer, all [n]; a negative [topK] leaves out that many from
    the end of the ranking instead. *)
Theorem search_result_count (bm : BM25M.BM25) (docs : list str) (s0 : VectorStore)
    (cs : list TaggedChunk) (query : str) (topK : Z) (alpha : float)
    (tagFilter : option str) :
  let n := len (List.filter (passes tagFilter) cs) in
  exists rs,
    search (searcher_over bm docs s0 cs) query topK alpha tagFilter = Some rs /\
    len rs = if topK <? 0 then Z.max 0 (n + topK) else Z.min topK n.
Proof.
  cbv zeta.
  destruct (search_spec bm docs s0 cs query topK alpha tagFilter) as (rs & Hrs & Hlen & _).
  exists rs. split; [exact Hrs|]. rewrite <- slice_length. unfold len. now rewrite Hlen.
Qed.

Local Open Scope float_scope.

(** X8: for the empty query and equal weights, over chunks with pairwise
    distinct identifiers, the hybrid search returns the first [topK] chunks
    that pass the tag filter, in the order of the store and each with the
    score 0: the similarities of the empty query, which are not numbers,
    are normalised to 0, and no document has a lexical score. *)
Theorem empty_query_scores_zero (bm : BM25M.BM25) (docs : list str) (s0 : VectorStore)
    (cs : list TaggedChunk) (topK : Z) (tagFilter : option str) :
  NoDup (map chunkId cs) ->
  search (searcher_over bm docs s0 cs) [] topK 0.5 tagFilter
  = Some (map (result_for 0) (slice (List.filter (passes tagFilter) cs) 0 (Some topK))).
Proof.
  intros Hnd. unfold search, searcher_over. cbn [vectorStore bm25].
  rewrite semanticSearch_empty_query. cbn [mbind option_bind]. cbv zeta.
  unfold getAllChunks. cbn [chunks addChunks].
  rewrite candidateIndices_pairs.
  pose proof (candidate_pairs_spec cs tagFilter) as Hpairs.
  erewrite mapM_lookup; [|apply Forall_forall; intros p Hp; now apply Hpairs].
  cbn [mbind option_bind].
  match goal with |- context [sort (descending snd) (?F <$> ?L)] =>
    assert (Hcombined : F <$> L = (fun p : nat * TaggedChunk => (chunkKey (chunkId (snd p)), 0)) <$> L)
  end.
  { apply list_fmap_ext. intros i p _. cbv beta. f_equal.
    rewrite zero_map.
    - rewrite no_term_scores_zero.
      erewrite (map_ext _ (fun _ => 0)) by (intros; apply no_term_scores_zero).
      rewrite const_replicate, max_of_zeros. reflexivity.
    - intros x. rewrite map_map. cbn [result_score result_for].
      rewrite const_replicate. apply normalized_by_nans.
    - reflexivity. }
  rewrite Hcombined.
  rewrite (sort_keeps_order_on (fun p : str * float => snd p = 0)).
  - set (key := fun p : nat * TaggedChunk => (chunkKey (chunkId (snd p)), 0)).
    change (key <$> candidate_pairs cs tagFilter) with (map key (candidate_pairs cs tagFilter)).
    rewrite slice_map, <- candidate_pairs_chunks.
    change (snd <$> candidate_pairs cs tagFilter) with (map snd (candidate_pairs cs tagFilter)).
    rewrite slice_map, map_map.
    assert (Hlook : Forall (fun p => snd p ∈ cs)
                      (slice (candidate_pairs cs tagFilter) 0 (Some topK))).
    { apply Forall_forall. intros p Hp. apply list_elem_of_lookup. exists (fst p).
      apply (candidate_pairs_spec cs tagFilter).
      eapply elem_of_sublist; [exact Hp | apply slice_sublist]. }
    apply mapM_Some. induction Hlook as [|p L Hp _ IH]; cbn [map]; constructor.
    + unfold key. rewrite (getChunkById_member s0 cs (snd p) Hnd Hp). reflexivity.
    + exact IH.
  - intros x y Hx Hy. unfold descending. rewrite Hx, Hy. reflexivity.
  - apply Forall_forall. intros p Hp. apply list_elem_of_fmap in Hp as (? & -> & _). reflexivity.
Qed.

Lemma empty_query_scores_zero_witness :
  NoDup (map chunkId three_chunks) /\
  search (searcher_over BM25M.new [] VectorStoreM.new three_chunks) [] 2 0.5 None
  = Some (map (result_for 0) (slice (List.filter (passes None) three_chunks) 0 (Some 2%Z))).
Proof.
  assert (Hids : NoDup (map chunkId three_chunks))
    by (apply (bool_decide_unpack _); vm_compute; reflexivity).
  split; [exact Hids|].
  exact (empty_query_scores_zero BM25M.new [] VectorStoreM.new three_chunks 2 None Hids).
Defined.

End SearchResults.

Module LoopFacts.
Import JS Types VectorStoreM HybridSearch CorrectiveRAG Spec RetrievalTerms.
Import JSFacts SearchFacts RetrievalFacts RankingFacts.

Section Run.
Variable groq : service.
Variable bm : BM25M.BM25.
Variable docs : list str.
Variable s0 : VectorStore.
Variable cs : list TaggedChunk.
Variable query : str.
Variable maxIterations topK : Z.

Local Abbreviation searcher := (searcher_over bm docs s0 cs).

Local Abbreviation prompt_of := (Spec.prompt_of query).

(** What the grading of the results of one search does to the state. *)
Lemma grade_all_fields (rs : list SearchResult) (st : state) (n : Z) :
  let st' := fst (fold_left (grade_chunk groq query) rs (st, n)) in
  exists added,
    allRelevantChunks st' = allRelevantChunks st ++ added /\
    (length added <= length rs)%nat /\
    Forall (fun c => exists r g, In r rs /\ c = graded r g /\ accepted g = true) added /\
    trace st' = trace st ++ (Graded <$> (prompt_of <$> rs)) /\
    iteration st' = iteration st /\
    currentQuery st' = currentQuery st.
Proof.
  revert st n. induction rs as [|c rs IH]; intros st n.
  - exists []. cbn. rewrite !app_nil_r. split_and!; auto.
  - cbn [fold_left].
    destruct (grade_chunk groq query (st, n) c) as [st1 n1] eqn:E.
    destruct (IH st1 n1) as (added & Ha & Hl & Hf & Ht & Hi & Hq).
    assert (Hmore : forall c0, (exists r g, In r rs /\ c0 = graded r g /\ accepted g = true) ->
                               exists r g, In r (c :: rs) /\ c0 = graded r g /\ accepted g = true).
    { intros c0 (r & g & Hr & Hc & Hg). exists r, g. split_and!; auto. now right. }
    unfold grade_chunk in E. cbv zeta in E.
    destruct (accepted _) eqn:Eacc; [destruct (negb _)|]; injection E as <- <-; cbv zeta;
      cbn [allRelevantChunks trace iteration currentQuery record] in *.
    + exists (graded c (gradeChunkRelevance (groq (trace st) (gradingPrompt (result_content c) query))) :: added).
      rewrite Ha, Ht, Hi, Hq, <- !app_assoc, !fmap_cons. cbn [app length]. split_and!; auto; [lia|].
      constructor; [|eapply Forall_impl; [exact Hf | exact Hmore]].
      eexists c, _. split_and!; [now left | reflexivity | exact Eacc].
    + exists added. rewrite Ha, Ht, Hi, Hq, <- !app_assoc, !fmap_cons. cbn [app length].
      split_and!; auto. eapply Forall_impl; [exact Hf | exact Hmore].
    + exists added. rewrite Ha, Ht, Hi, Hq, <- !app_assoc, !fmap_cons. cbn [app length].
      split_and!; auto. eapply Forall_impl; [exact Hf | exact Hmore].
Qed.

(** The answer of the rewriter is the query it started from, or not empty. *)
Lemma rewriteQuery_cases (answer : completion) (from : str) :
  rewriteQuery answer from = from \/ rewriteQuery answer from <> [].
Proof.
  destruct answer as [|[body|]]; cbn; auto.
  destruct (trim body); [now left | right; discriminate].
Qed.

(** What one turn of the loop does to the state. *)
Lemma examine_fields (st : state) (rs : list SearchResult) :
  let st' := fst (examine groq query maxIterations topK st rs) in
  let go := snd (examine groq query maxIterations topK st rs) in
  exists added tail,
    iteration st' = iteration st /\
    allRelevantChunks st' = allRelevantChunks st ++ added /\
    (length added <= length rs)%nat /\
    Forall (fun c => exists r g, In r rs /\ c = graded r g /\ accepted g = true) added /\
    trace st' = trace st ++ Searched (currentQuery st) topK rs
                  :: (Graded <$> (prompt_of <$> rs)) ++ tail /\
    searches tail = [] /\ grading_prompts tail = [] /\ searched_queries tail = [] /\
    (length (rewrite_prompts tail) <= 1)%nat /\
    (rs = [] -> length (rewrite_prompts tail) = 1%nat) /\
    (go = true -> rs = [] \/ len (allRelevantChunks st') < 3) /\
    (go = false -> 3 <= len (allRelevantChunks st')) /\
    (currentQuery st' = currentQuery st \/ currentQuery st' = query \/ currentQuery st' <> []).
Proof.
  unfold examine. cbv zeta.
  destruct (Z.eqb_spec (len rs) 0) as [Hempty|Hsome].
  - assert (rs = []) as -> by (destruct rs; [reflexivity | unfold len in Hempty; simpl in Hempty; lia]).
    exists [], [Rewrote (rewritePrompt (currentQuery st) (Some (lit "No results found")))].
    cbn [fst snd rewrite record iteration allRelevantChunks trace currentQuery
         searches grading_prompts searched_queries rewrite_prompts flat_map app length
         fmap list_fmap].
    rewrite !app_nil_r, <- !app_assoc. cbn [app].
    split_and!; auto; try lia; try discriminate.
    match goal with |- context [rewriteQuery ?a ?f] =>
      destruct (rewriteQuery_cases a f) as [->|H]; auto end.
  - set (st1 := record (Searched (currentQuery st) topK rs) st).
    destruct (fold_left (grade_chunk groq query) rs (st1, 0)) as [st2 n] eqn:E.
    pose proof (grade_all_fields rs st1 0) as H. rewrite E in H. cbn [fst] in H.
    destruct H as (added & Ha & Hl & Hf & Ht & Hi & Hq).
    assert (Htr : trace st2 = trace st ++ Searched (currentQuery st) topK rs
                               :: (Graded <$> (prompt_of <$> rs))).
    { rewrite Ht. unfold st1. cbn [record trace]. now rewrite <- app_assoc. }
    unfold st1 in Ha, Hi, Hq.
    cbn [record allRelevantChunks iteration currentQuery trace] in *.
    destruct (Z.geb_spec (len (allRelevantChunks st2)) 3) as [Henough|Hfew].
    + exists added, [Counted n (len (allRelevantChunks st2))].
      cbn [fst snd rewrite record iteration allRelevantChunks trace currentQuery
           searches grading_prompts searched_queries rewrite_prompts flat_map app length].
      rewrite Htr, <- !app_assoc. cbn [app].
      split_and!; auto; try lia; try discriminate; try (intros ->; now destruct Hsome).
    + destruct (iteration st2 <? maxIterations).
      * eexists added, [Counted n (len (allRelevantChunks st2)); Rewrote _].
        cbn [fst snd rewrite record iteration allRelevantChunks trace currentQuery
             searches grading_prompts searched_queries rewrite_prompts flat_map app length].
        rewrite Htr, <- !app_assoc. cbn [app].
        split_and!; auto; try lia; try discriminate;
          try (intros ->; now destruct Hsome).
        match goal with |- context [rewriteQuery ?a query] =>
          destruct (rewriteQuery_cases a query) as [->|H]; auto end.
      * exists added, [Counted n (len (allRelevantChunks st2))].
        cbn [fst snd rewrite record iteration allRelevantChunks trace currentQuery
             searches grading_prompts searched_queries rewrite_prompts flat_map app length].
        rewrite Htr, <- !app_assoc. cbn [app].
        split_and!; auto; try lia; try discriminate; try (intros ->; now destruct Hsome).
Qed.

Lemma turn_unfold (st st' : state) (go : bool) :
  turn groq searcher query maxIterations topK st = Some (st', go) ->
  exists rs,
    search searcher (currentQuery st) topK 0.5 None = Some rs /\
    (st', go) = examine groq query maxIterations topK (advance st) rs.
Proof.
  unfold turn. cbv zeta. cbn [advance currentQuery].
  destruct (search searcher (currentQuery st) topK 0.5 None) as [rs|]; [|discriminate].
  cbn [mbind option_bind]. intros H. injection H as H. exists rs.
  split; [reflexivity | now symmetry].
Qed.

(** A property [P] that every turn keeps, and a property [Q] that holds
    when the loop ends: at the bound, or on the [break]. *)
Lemma loop_ends (P Q : state -> Prop) :
  (forall st, P st -> ~ iteration st < maxIterations -> Q st) ->
  (forall st st', P st -> iteration st < maxIterations ->
     turn groq searcher query maxIterations topK st = Some (st', true) -> P st') ->
  (forall st st', P st -> iteration st < maxIterations ->
     turn groq searcher query maxIterations topK st = Some (st', false) -> Q st') ->
  forall fuel st st',
    P st -> loop groq searcher query maxIterations topK fuel st = Some st' -> Q st'.
Proof.
  intros Hexit Hgo Hbreak fuel. induction fuel as [|fuel IH]; intros st st' HP H; [discriminate|].
  cbn [loop] in H. destruct (Z.ltb_spec (iteration st) maxIterations) as [Hlt|Hge].
  - destruct (turn _ _ _ _ _ st) as [[st1 [|]]|] eqn:Et; [| |discriminate].
    + eapply IH; [|exact H]. eapply Hgo; eassumption.
    + injection H as <-. eapply Hbreak; eassumption.
  - injection H as <-. apply Hexit; [exact HP | lia].
Qed.

(** The run in terms of the state at the end of the loop. *)
Lemma run_unfold :
  exists st fallbackResults,
    loop groq searcher query maxIterations topK (S (Z.to_nat maxIterations)) (initial query)
      = Some st /\
    search searcher query topK 0.5 None = Some fallbackResults /\
    (length fallbackResults <= length (slice cs 0 (Some topK)))%nat /\
    correctiveRAGRetrieval groq searcher query maxIterations topK
    = Some ({| Types.query := query;
               finalQuery := currentQuery st;
               iterations := iteration st;
               relevantChunks := match allRelevantChunks st with
                                 | [] => fallbackResults
                                 | _ => allRelevantChunks st
                                 end;
               totalFound := len (match allRelevantChunks st with
                                  | [] => fallbackResults
                                  | _ => allRelevantChunks st
                                  end) |},
            match allRelevantChunks st with
            | [] => trace st ++ [FellBack query topK fallbackResults]
            | _ => trace st
            end).
Proof.
  destruct (loop_spec groq bm docs s0 cs query maxIterations topK
              (S (Z.to_nat maxIterations)) (initial query)
              (initial_invariant bm docs s0 cs query maxIterations topK))
    as (st & go & Hloop & _ & _).
  { constructor. } { cbn. lia. }
  destruct (search_spec bm docs s0 cs query topK 0.5 None) as (fb & Hfb & Hlen & _).
  exists st, fb. split; [exact Hloop|]. split; [exact Hfb|].
  split. { rewrite Hlen. unfold passes. cbn [given]. now rewrite filter_all. }
  unfold correctiveRAGRetrieval. 
  change (loop groq searcher query maxIterations topK (S (Z.to_nat maxIterations)) (initial query))
    with (loop groq {| vectorStore := addChunks s0 cs; bm25 := bm; allDocuments := docs |}
            query maxIterations topK (S (Z.to_nat maxIterations)) (initial query)).
  rewrite Hloop. cbn [mbind option_bind]. unfold fallback.
  destruct (allRelevantChunks st) as [|r rest] eqn:Hall.
  - change (len [] =? 0) with true. cbv iota.
    change (search searcher query topK 0.5 None)
      with (search {| vectorStore := addChunks s0 cs; bm25 := bm; allDocuments := docs |}
              query topK 0.5 None).
    rewrite Hfb. reflexivity.
  - assert (Hnz : (len (r :: rest) =? 0) = false)
      by (apply Z.eqb_neq; unfold len; simpl; lia).
    rewrite Hnz. cbn [mbind option_bind]. rewrite Hall. reflexivity.
Qed.

Lemma searches_of_grades (ps : list str) (tail : list event) :
  searches tail = [] -> searches ((Graded <$> ps) ++ tail) = [].
Proof. intros H. now rewrite searches_app, searches_graded, H. Qed.

Lemma rewrites_app tr1 tr2 :
  rewrite_prompts (tr1 ++ tr2) = rewrite_prompts tr1 ++ rewrite_prompts tr2.
Proof. apply flat_map_app. Qed.

Lemma queries_app tr1 tr2 :
  searched_queries (tr1 ++ tr2) = searched_queries tr1 ++ searched_queries tr2.
Proof. apply flat_map_app. Qed.

Lemma rewrites_graded (ps : list str) : rewrite_prompts (Graded <$> ps) = [].
Proof. induction ps as [|p ps IH]; [reflexivity | exact IH]. Qed.

Lemma queries_graded (ps : list str) : searched_queries (Graded <$> ps) = [].
Proof. induction ps as [|p ps IH]; [reflexivity | exact IH]. Qed.

(** What one turn adds to the lists read off the trace. *)
Lemma turn_fields (st st' : state) (go : bool) :
  turn groq searcher query maxIterations topK st = Some (st', go) ->
  exists rs added rewrites,
    search searcher (currentQuery st) topK 0.5 None = Some rs /\
    (length rs <= length (slice cs 0 (Some topK)))%nat /\
    iteration st' = iteration st + 1 /\
    allRelevantChunks st' = allRelevantChunks st ++ added /\
    (length added <= length rs)%nat /\
    Forall (fun c => exists r g, In r rs /\ c = graded r g /\ accepted g = true) added /\
    searches (trace st') = searches (trace st) ++ [rs] /\
    grading_prompts (trace st') = grading_prompts (trace st) ++ (prompt_of <$> rs) /\
    searched_queries (trace st') = searched_queries (trace st) ++ [currentQuery st] /\
    rewrite_prompts (trace st') = rewrite_prompts (trace st) ++ rewrites /\
    (length rewrites <= 1)%nat /\
    (rs = [] -> length rewrites = 1%nat) /\
    (go = true -> rs = [] \/ len (allRelevantChunks st') < 3) /\
    (go = false -> 3 <= len (allRelevantChunks st')) /\
    (currentQuery st' = currentQuery st \/ currentQuery st' = query \/ currentQuery st' <> []).
Proof.
  intros H. apply turn_unfold in H as (rs & Hrs & Hex).
  pose proof (examine_fields (advance st) rs) as Hf. cbv zeta in Hf.
  rewrite <- Hex in Hf. cbn [fst snd advance iteration allRelevantChunks trace currentQuery] in Hf.
  destruct Hf as (added & tail & Hi & Ha & Hl & Hacc & Ht & Hs & Hg & Hq & Hr1 & Hr2 & Hgo & Hbr & Hcq).
  exists rs, added, (rewrite_prompts tail).
  destruct (search_spec bm docs s0 cs (currentQuery st) topK 0.5 None) as (rs' & Hrs' & Hlen & _).
  assert (rs' = rs) as -> by (unfold searcher_over in Hrs; congruence).
  unfold passes in Hlen. cbn [given] in Hlen. rewrite filter_all in Hlen.
  rewrite Ht. rewrite !searches_app, !grading_prompts_app, !queries_app, !rewrites_app.
  change (Searched (currentQuery st) topK rs :: (Graded <$> (prompt_of <$> rs)) ++ tail)
    with ([Searched (currentQuery st) topK rs] ++ (Graded <$> (prompt_of <$> rs)) ++ tail).
  rewrite !searches_app, !grading_prompts_app, !queries_app, !rewrites_app.
  rewrite searches_graded, grading_prompts_graded, queries_graded, rewrites_graded, Hs, Hg, Hq.
  cbn [searches grading_prompts searched_queries rewrite_prompts flat_map app].
  rewrite !app_nil_r.
  split_and!; auto; lia.
Qed.

Lemma slice_bound {A} (l : list A) (k : Z) :
  0 <= k -> len (slice l 0 (Some k)) <= k.
Proof. intros Hk. rewrite slice_length. destruct (Z.ltb_spec k 0); lia. Qed.


(** The size of what a run returns. *)
Lemma retrieval_size :
  0 <= topK ->
  exists result tr,
    correctiveRAGRetrieval groq searcher query maxIterations topK = Some (result, tr) /\
    len (relevantChunks result) <= topK + 2.
Proof.
  intros Htop.
  destruct run_unfold as (st & fb & Hloop & _ & Hfb & Hrun).
  eexists _, _. split; [exact Hrun|]. cbn [relevantChunks].
  pose proof (slice_bound cs topK Htop) as Hs. unfold len in Hs.
  assert (H : len (allRelevantChunks st) <= topK + 2).
  { apply (loop_ends (fun st => len (allRelevantChunks st) < 3)
             (fun st => len (allRelevantChunks st) <= topK + 2))
      with (fuel := S (Z.to_nat maxIterations)) (st := initial query); auto.
    - intros; lia.
    - intros st1 st2 Hp Hlt Ht.
      apply turn_fields in Ht as (rs & added & rw & _ & Hlen & _ & Hall & Hadd & _ & _ & _ & _ & _ & _ & _ & Hgo & _).
      destruct (Hgo eq_refl) as [->|H]; [|exact H].
      destruct added; [|cbn in Hadd; lia]. now rewrite Hall, app_nil_r.
    - intros st1 st2 Hp Hlt Ht.
      apply turn_fields in Ht as (rs & added & rw & _ & Hlen & _ & Hall & Hadd & _).
      rewrite Hall. unfold len in *. rewrite length_app. lia.
    - unfold len. cbn [initial allRelevantChunks length]. lia. }
  destruct (allRelevantChunks st); [unfold len; lia | exact H].
Qed.

End Run.
End LoopFacts.

Module RetrievalResults.
Import JS Types VectorStoreM HybridSearch CorrectiveRAG Spec RetrievalTerms.
Import JSFacts SearchFacts RetrievalFacts RankingFacts LoopFacts.

Lemma slice_nil {A} (a : Z) (b : option Z) : slice (@nil A) a b = [].
Proof. unfold slice. now rewrite skipn_nil, firstn_nil. Qed.

Lemma grading_prompts_fallback tr q k rs :
  grading_prompts (tr ++ [FellBack q k rs]) = grading_prompts tr.
Proof. rewrite grading_prompts_app. cbn. apply app_nil_r. Qed.

Lemma rewrite_prompts_fallback tr q k rs :
  rewrite_prompts (tr ++ [FellBack q k rs]) = rewrite_prompts tr.
Proof. rewrite rewrites_app. cbn. apply app_nil_r. Qed.


Lemma searches_fallback tr q k rs : searches (tr ++ [FellBack q k rs]) = searches tr.
Proof. rewrite searches_app. cbn. apply app_nil_r. Qed.

(** X9: with [topK >= 0] the run returns, and the service is asked at most
    [topK] gradings and one rewrite for each search of the loop: no more
    than [maxIterations * (topK + 1)] requests in all (every request leaves
    one [Graded] or [Rewrote] event, and nothing else asks the service). *)
Theorem service_requests_are_bounded (groq : service) (bm : BM25M.BM25) (docs : list str)
    (s0 : VectorStore) (cs : list TaggedChunk) (query : str) (maxIterations topK : Z) :
  0 <= topK ->
  exists result tr,
    correctiveRAGRetrieval groq (searcher_over bm docs s0 cs) query maxIterations topK
      = Some (result, tr) /\
    len (grading_prompts tr) <= iterations result * topK /\
    len (rewrite_prompts tr) <= iterations result /\
    len (grading_prompts tr) + len (rewrite_prompts tr)
      <= Z.max maxIterations 0 * (topK + 1).
Proof.
  intros Htop.
  destruct (run_unfold groq bm docs s0 cs query maxIterations topK)
    as (st & fb & Hloop & _ & _ & Hrun).
  eexists _, _. split; [exact Hrun|]. cbn [iterations].
  assert (H : len (grading_prompts (trace st)) <= iteration st * topK /\
              len (rewrite_prompts (trace st)) <= iteration st /\
              0 <= iteration st <= Z.max maxIterations 0).
  { apply (loop_ends groq bm docs s0 cs query maxIterations topK
             (fun st => len (grading_prompts (trace st)) <= iteration st * topK /\
                        len (rewrite_prompts (trace st)) <= iteration st /\
                        0 <= iteration st <= Z.max maxIterations 0)
             (fun st => len (grading_prompts (trace st)) <= iteration st * topK /\
                        len (rewrite_prompts (trace st)) <= iteration st /\
                        0 <= iteration st <= Z.max maxIterations 0))
      with (fuel := S (Z.to_nat maxIterations)) (st := initial query); auto.
    - intros st1 st2 (Hg & Hr & Hi) Hlt Ht.
      apply turn_fields in Ht as (rs & added & rw & _ & Hlen & Hit & _ & _ & _ & _ & Hgp & _ & Hrp & Hrw & _).
      rewrite Hgp, Hrp, Hit. unfold len in *. rewrite !length_app, length_fmap.
      pose proof (slice_bound cs topK Htop) as Hs. unfold len in Hs.
      split_and!; first [lia | nia].
    - intros st1 st2 (Hg & Hr & Hi) Hlt Ht.
      apply turn_fields in Ht as (rs & added & rw & _ & Hlen & Hit & _ & _ & _ & _ & Hgp & _ & Hrp & Hrw & _).
      rewrite Hgp, Hrp, Hit. unfold len in *. rewrite !length_app, length_fmap.
      pose proof (slice_bound cs topK Htop) as Hs. unfold len in Hs.
      split_and!; first [lia | nia].
    - unfold len. cbn [initial trace iteration grading_prompts rewrite_prompts flat_map length].
      lia. }
  destruct H as (Hg & Hr & Hi).
  destruct (allRelevantChunks st);
    rewrite ?grading_prompts_fallback, ?rewrite_prompts_fallback; split_and!; auto; nia.
Qed.

Lemma service_requests_are_bounded_witness :
  0 <= 3 /\
  exists result tr,
    correctiveRAGRetrieval approving_service
      (searcher_over BM25M.new [] VectorStoreM.new three_chunks) (lit "learning") 5 3
      = Some (result, tr) /\
    len (grading_prompts tr) <= iterations result * 3 /\
    len (rewrite_prompts tr) <= iterations result /\
    len (grading_prompts tr) + len (rewrite_prompts tr) <= Z.max 5 0 * (3 + 1).
Proof.
  split; [lia|].
  apply (service_requests_are_bounded approving_service BM25M.new [] VectorStoreM.new
           three_chunks (lit "learning") 5 3).
  lia.
Defined.

(** X10: with [topK >= 0] the run returns at most [topK + 2] chunks: the
    loop goes on while fewer than three are accepted, so at most two are
    held when the last search adds up to [topK]. *)
Theorem result_size_is_bounded (groq : service) (bm : BM25M.BM25) (docs : list str)
    (s0 : VectorStore) (cs : list TaggedChunk) (query : str) (maxIterations topK : Z) :
  0 <= topK ->
  exists result tr,
    correctiveRAGRetrieval groq (searcher_over bm docs s0 cs) query maxIterations topK
      = Some (result, tr) /\
    len (relevantChunks result) <= topK + 2.
Proof. apply retrieval_size. Qed.

Lemma result_size_is_bounded_witness :
  0 <= 1 /\
  exists result tr,
    correctiveRAGRetrieval failing_service
      (searcher_over BM25M.new [] VectorStoreM.new three_chunks) (lit "learning") 4 1
      = Some (result, tr) /\
    len (relevantChunks result) <= 1 + 2.
Proof.
  split; [lia|].
  apply (result_size_is_bounded failing_service BM25M.new [] VectorStoreM.new
           three_chunks (lit "learning") 4 1).
  lia.
Defined.

(** X11: the loop stops before [maxIterations] searches only on
    sufficiency: a run that reports fewer iterations than it was allowed
    returns at least three chunks, all of them accepted by the grader. *)
Theorem early_stop_means_three (groq : service) (bm : BM25M.BM25) (docs : list str)
    (s0 : VectorStore) (cs : list TaggedChunk) (query : str) (maxIterations topK : Z) :
  exists result tr,
    correctiveRAGRetrieval groq (searcher_over bm docs s0 cs) query maxIterations topK
      = Some (result, tr) /\
    (iterations result < maxIterations ->
     3 <= len (relevantChunks result) /\
     Forall (fun c => exists g, relevanceGrade c = Some g /\ accepted g = true)
       (relevantChunks result)).
Proof.
  destruct (run_unfold groq bm docs s0 cs query maxIterations topK)
    as (st & fb & Hloop & _ & _ & Hrun).
  eexists _, _. split; [exact Hrun|]. cbn [relevantChunks iterations].
  assert (H : (iteration st < maxIterations -> 3 <= len (allRelevantChunks st)) /\
              Forall (fun c => exists g, relevanceGrade c = Some g /\ accepted g = true)
                (allRelevantChunks st)).
  { apply (loop_ends groq bm docs s0 cs query maxIterations topK
             (fun st => Forall (fun c => exists g, relevanceGrade c = Some g /\ accepted g = true)
                          (allRelevantChunks st))
             (fun st => (iteration st < maxIterations -> 3 <= len (allRelevantChunks st)) /\
                        Forall (fun c => exists g, relevanceGrade c = Some g /\ accepted g = true)
                          (allRelevantChunks st)))
      with (fuel := S (Z.to_nat maxIterations)) (st := initial query); auto.
    - intros st1 Hp Hge. split; [lia | exact Hp].
    - intros st1 st2 Hp Hlt Ht.
      apply turn_fields in Ht as (rs & added & rw & _ & _ & _ & Hall & _ & Hacc & _).
      rewrite Hall. apply Forall_app. split; [exact Hp|].
      eapply Forall_impl; [exact Hacc|]. intros c (r & g & _ & -> & Hg). now exists g.
    - intros st1 st2 Hp Hlt Ht.
      apply turn_fields in Ht as (rs & added & rw & _ & _ & _ & Hall & _ & Hacc & _ & _ & _ & _ & _ & _ & _ & Hbr & _).
      split; [intros _; now apply Hbr|].
      rewrite Hall. apply Forall_app. split; [exact Hp|].
      eapply Forall_impl; [exact Hacc|]. intros c (r & g & _ & -> & Hg). now exists g. }
  destruct H as [Hthree Hacc]. intros Hlt. specialize (Hthree Hlt).
  destruct (allRelevantChunks st); [unfold len in Hthree; cbn in Hthree; lia|].
  split; assumption.
Qed.



Lemma accepted_from_more (tr extra : list event) (c : SearchResult) :
  accepted_from tr c -> accepted_from (tr ++ extra) c.
Proof.
  intros (rs & r & g & Hrs & Hr & Hc & Hg). exists rs, r, g. split_and!; auto.
  rewrite searches_app. apply in_or_app. now left.
Qed.

(** X13: every chunk that the run returns is a result of one of the
    searches of the loop with the grade that accepted it attached, unless
    the loop accepted nothing: then the chunks are the results of the
    fallback search, which carry no grade. *)
Theorem returned_chunks_were_accepted (groq : service) (bm : BM25M.BM25) (docs : list str)
    (s0 : VectorStore) (cs : list TaggedChunk) (query : str) (maxIterations topK : Z) :
  exists result tr,
    correctiveRAGRetrieval groq (searcher_over bm docs s0 cs) query maxIterations topK
      = Some (result, tr) /\
    (Forall (accepted_from tr) (relevantChunks result) \/
     exists before,
       tr = before ++ [FellBack query topK (relevantChunks result)] /\
       Forall (fun c => relevanceGrade c = None) (relevantChunks result)).
Proof.
  destruct (run_unfold groq bm docs s0 cs query maxIterations topK)
    as (st & fb & Hloop & Hfb & _ & Hrun).
  eexists _, _. split; [exact Hrun|]. cbn [relevantChunks].
  destruct (allRelevantChunks st) as [|c rest] eqn:Hall.
  - right. exists (trace st). split; [reflexivity|].
    destruct (search_spec bm docs s0 cs query topK 0.5 None) as (fb' & Hfb' & _ & Hres & _).
    assert (fb' = fb) as -> by (unfold searcher_over in Hfb; congruence).
    eapply Forall_impl; [exact Hres|]. now intros ? [? _].
  - left. rewrite <- Hall.
    apply (loop_ends groq bm docs s0 cs query maxIterations topK
             (fun st => Forall (accepted_from (trace st)) (allRelevantChunks st))
             (fun st => Forall (accepted_from (trace st)) (allRelevantChunks st)))
      with (fuel := S (Z.to_nat maxIterations)) (st := initial query); auto.
    + intros st1 st2 Hp Hlt Ht.
      pose proof Ht as Hu. apply turn_unfold in Hu as (rs0 & _ & Hex).
      pose proof (examine_trace groq query maxIterations topK (advance st1) rs0) as (tail & Htail & _).
      rewrite <- Hex in Htail. cbn [fst advance trace] in Htail.
      apply turn_fields in Ht as (rs & added & rw & _ & _ & _ & Ha & _ & Hacc & Hs & _).
      rewrite Ha. apply Forall_app. split.
      * eapply Forall_impl; [exact Hp|]. intros c0 Hc0. rewrite Htail. now apply accepted_from_more.
      * eapply Forall_impl; [exact Hacc|]. intros c0 (r & g & Hr & Hc & Hg).
        exists rs, r, g. split_and!; auto. rewrite Hs. apply in_or_app. right. now left.
    + intros st1 st2 Hp Hlt Ht.
      pose proof Ht as Hu. apply turn_unfold in Hu as (rs0 & _ & Hex).
      pose proof (examine_trace groq query maxIterations topK (advance st1) rs0) as (tail & Htail & _).
      rewrite <- Hex in Htail. cbn [fst advance trace] in Htail.
      apply turn_fields in Ht as (rs & added & rw & _ & _ & _ & Ha & _ & Hacc & Hs & _).
      rewrite Ha. apply Forall_app. split.
      * eapply Forall_impl; [exact Hp|]. intros c0 Hc0. rewrite Htail. now apply accepted_from_more.
      * eapply Forall_impl; [exact Hacc|]. intros c0 (r & g & Hr & Hc & Hg).
        exists rs, r, g. split_and!; auto. rewrite Hs. apply in_or_app. right. now left.
Qed.

(** X14: over a store that holds no chunk the run returns no chunk; it
    makes every search it is allowed, grades nothing, and asks for one
    rewrite after each search. *)
Theorem empty_store_run (groq : service) (bm : BM25M.BM25) (docs : list str)
    (s0 : VectorStore) (query : str) (maxIterations topK : Z) :
  exists result tr,
    correctiveRAGRetrieval groq (searcher_over bm docs s0 []) query maxIterations topK
      = Some (result, tr) /\
    relevantChunks result = [] /\ totalFound result = 0 /\
    iterations result = Z.max maxIterations 0 /\
    grading_prompts tr = [] /\
    len (rewrite_prompts tr) = iterations result.
Proof.
  destruct (run_unfold groq bm docs s0 [] query maxIterations topK)
    as (st & fb & Hloop & _ & Hfb & Hrun).
  rewrite slice_nil in Hfb.
  assert (fb = []) as -> by (destruct fb; [reflexivity | cbn in Hfb; lia]).
  eexists _, _. split; [exact Hrun|]. cbn [relevantChunks totalFound iterations].
  assert (H : (allRelevantChunks st = [] /\ grading_prompts (trace st) = [] /\
               len (rewrite_prompts (trace st)) = iteration st /\
               0 <= iteration st <= Z.max maxIterations 0) /\
              ~ iteration st < maxIterations).
  { apply (loop_ends groq bm docs s0 [] query maxIterations topK
             (fun st => allRelevantChunks st = [] /\ grading_prompts (trace st) = [] /\
                        len (rewrite_prompts (trace st)) = iteration st /\
                        0 <= iteration st <= Z.max maxIterations 0)
             (fun st => (allRelevantChunks st = [] /\ grading_prompts (trace st) = [] /\
                         len (rewrite_prompts (trace st)) = iteration st /\
                         0 <= iteration st <= Z.max maxIterations 0) /\
                        ~ iteration st < maxIterations))
      with (fuel := S (Z.to_nat maxIterations)) (st := initial query); auto.
    - intros st1 st2 (Ha & Hg & Hr & Hi) Hlt Ht.
      apply turn_fields in Ht as (rs & added & rw & _ & Hlen & Hit & Hall & Hadd & _ & _ & Hgp & _ & Hrp & _ & Hone & _).
      rewrite slice_nil in Hlen.
      assert (rs = []) as -> by (destruct rs; [reflexivity | cbn in Hlen; lia]).
      assert (added = []) as -> by (destruct added; [reflexivity | cbn in Hadd; lia]).
      rewrite Hall, Ha, Hgp, Hg, Hrp, Hit. unfold len in *. rewrite length_app, (Hone eq_refl).
      split_and!; auto; lia.
    - intros st1 st2 (Ha & Hg & Hr & Hi) Hlt Ht. exfalso.
      apply turn_fields in Ht as (rs & added & rw & _ & Hlen & Hit & Hall & Hadd & _ & _ & _ & _ & _ & _ & _ & _ & Hbr & _).
      rewrite slice_nil in Hlen.
      assert (rs = []) as -> by (destruct rs; [reflexivity | cbn in Hlen; lia]).
      assert (added = []) as -> by (destruct added; [reflexivity | cbn in Hadd; lia]).
      specialize (Hbr eq_refl). rewrite Hall, Ha in Hbr.
      unfold len in Hbr. cbn [app length] in Hbr. lia.
    - unfold len. cbn [initial trace iteration allRelevantChunks grading_prompts rewrite_prompts flat_map length].
      split_and!; auto; lia. }
  destruct H as [(Ha & Hg & Hr & Hi) Hend]. rewrite Ha.
  rewrite grading_prompts_fallback, rewrite_prompts_fallback.
  split_and!; auto; lia.
Qed.

End RetrievalResults.

Module GradingResults.
Import JS Types CorrectiveRAG Spec GradingTerms.

Lemma relevant_comes_from_a_line (lines : list str) (g : RelevanceGrade) :
  relevant (fold_left read_line lines g) = true ->
  relevant g = true \/ exists line, In line lines /\ says_relevant line.
Proof.
  revert g. induction lines as [|l lines IH]; intros g H; [now left|].
  cbn [fold_left] in H. apply IH in H as [H|(line & Hin & Hl)].
  - unfold read_line in H. destruct (startsWith (lit "RELEVANT:") l) eqn:E1.
    + right. exists l. split; [now left|]. split; [exact E1 | exact H].
    + destruct (startsWith (lit "SCORE:") l); [destruct (parse_score _)|];
        [now left | now left | destruct (startsWith (lit "REASON:") l); now left].
  - right. exists line. split; [now right | exact Hl].
Qed.

Lemma score_comes_from_a_line (lines : list str) (g : RelevanceGrade) :
  score (fold_left read_line lines g) <> low ->
  score g <> low \/ exists line, In line lines /\ scores_well line.
Proof.
  revert g. induction lines as [|l lines IH]; intros g H; [now left|].
  cbn [fold_left] in H. apply IH in H as [H|(line & Hin & Hl)].
  - unfold read_line in H. destruct (startsWith (lit "RELEVANT:") l) eqn:E1; [now left|].
    destruct (startsWith (lit "SCORE:") l) eqn:E2.
    + destruct (parse_score _) as [s|] eqn:E3; [|now left].
      right. exists l. split; [now left|]. split; [exact E2|].
      cbn [score] in H. destruct s; auto. congruence.
    + destruct (startsWith (lit "REASON:") l); now left.
  - right. exists line. split; [now right | exact Hl].
Qed.

(** X15: an answer of the grader accepts a chunk only if one of its lines
    starts with [RELEVANT:] and holds [yes] in any case, and another starts
    with [SCORE:] and gives [high] or [medium]: an answer without a score
    line keeps the score [low] and is rejected, and so is an answer that
    is missing or empty. *)
Theorem acceptance_needs_two_lines (body : option str) :
  accepted (gradeChunkRelevance (Message body)) = true ->
  (exists line, In line (answer_lines body) /\ says_relevant line) /\
  (exists line, In line (answer_lines body) /\ scores_well line).
Proof.
  unfold accepted, gradeChunkRelevance. intros H. apply andb_true_iff in H as [Hr Hs].
  apply relevant_comes_from_a_line in Hr as [Hr|Hr]; [discriminate|].
  split; [exact Hr|].
  destruct (score_comes_from_a_line (answer_lines body)
              {| relevant := false; score := low; reason := lit "Unknown" |}) as [Hl|Hl];
    [|now destruct Hl|exact Hl].
  unfold answer_lines. destruct (score _); congruence.
Qed.

Lemma acceptance_needs_two_lines_witness :
  accepted (gradeChunkRelevance (Message (Some (lit "RELEVANT: yes
SCORE: high")))) = true /\
  (exists line, In line (answer_lines (Some (lit "RELEVANT: yes
SCORE: high"))) /\ says_relevant line) /\
  (exists line, In line (answer_lines (Some (lit "RELEVANT: yes
SCORE: high"))) /\ scores_well line).
Proof.
  split; [reflexivity|].
  apply (acceptance_needs_two_lines (Some (lit "RELEVANT: yes
SCORE: high"))).
  reflexivity.
Defined.

End GradingResults.

Module LexicalFacts.
Import JS Regex Types Spec LexicalTerms RegexFacts.

Lemma repeat_step (m : cont -> cont) (k : cont) (greedy : bool) (fuel min : nat)
    (max : option nat) (x : mstate) :
  repeat m k greedy (S fuel) min max x
  = match max with
    | Some O => k x
    | _ =>
        let d : cont := fun y =>
          if Nat.eqb min 0 && Nat.eqb (length (rest y)) (length (rest x))
          then None
          else repeat m k greedy fuel (Nat.pred min) (option_map Nat.pred max) y in
        if negb (Nat.eqb min 0) then m d x
        else if greedy then or_else (m d x) (k x)
        else or_else (k x) (m d x)
    end.
Proof. reflexivity. Qed.

Section Class.
Variable p : ascii -> bool.

(** The first step of [c+]. *)
Lemma plus_first (k : cont) (x : mstate) :
  run (plus (Chr p)) k x
  = match rest x with
    | c :: s' =>
        if p c
        then repeat (run (Chr p)) k true (S (length (rest x))) 0 None
               (MState (Some c) s' (marks x))
        else None
    | [] => None
    end.
Proof.
  unfold plus. cbn [run].
  replace (1 + length (rest x) + 1)%nat with (S (S (length (rest x)))) by lia.
  rewrite repeat_step. cbv zeta. cbn [Nat.eqb negb andb Nat.pred option_map run].
  destruct (rest x) as [|c s']; [reflexivity|]. reflexivity.
Qed.

Lemma star_total (k : cont) (fuel : nat) (x : mstate) :
  is_Some (k x) -> is_Some (repeat (run (Chr p)) k true (S fuel) 0 None x).
Proof.
  intros [y Hy]. rewrite repeat_step. cbv zeta. cbn [Nat.eqb negb]. unfold or_else.
  destruct (run (Chr p) _ x); eauto.
Qed.

(** [c+] matches wherever a character of the class stands. *)
Lemma plus_matches (before : option ascii) (c : ascii) (s : str) :
  p c = true -> is_Some (match_here (plus (Chr p)) before (c :: s)).
Proof.
  intros Hc. unfold match_here. rewrite plus_first. cbn [rest]. rewrite Hc.
  apply star_total. eauto.
Qed.

(** [c+] matches there only, and never the empty text. *)
Lemma plus_needs (before : option ascii) (s : str) (y : mstate) :
  match_here (plus (Chr p)) before s = Some y ->
  exists c s', s = c :: s' /\ p c = true /\ (0 < consumed s y)%nat.
Proof.
  unfold match_here. rewrite plus_first. cbn [rest]. intros H.
  destruct s as [|c s']; [discriminate|]. destruct (p c) eqn:Hc; [|discriminate].
  exists c, s'. split; [reflexivity|]. split; [exact Hc|].
  apply (repeat_forward (run (Chr p)) true (run_forward (Chr p))) in H as (x' & Hs & H).
  injection H as <-. apply suffix_length in Hs. cbn [rest] in Hs.
  unfold consumed. cbn [length]. lia.
Qed.

Lemma in_skipn {A} (x : A) (n : nat) (l : list A) : In x (skipn n l) -> In x l.
Proof.
  intros H. apply list_elem_of_In. eapply elem_of_sublist; [|apply sublist_drop].
  apply list_elem_of_In. exact H.
Qed.

(** The pieces of a split at [c+] hold no character of the class. *)
Lemma split_loop_clean (fuel : nat) :
  forall (before : option ascii) (cur s : str),
    (2 * length s + Nat.min 1 (length cur) < fuel)%nat ->
    Forall (fun c => p c = false) cur ->
    Forall (fun piece => Forall (fun c => p c = false /\ (In c cur \/ In c s)) piece)
      (split_loop fuel (plus (Chr p)) before cur s).
Proof.
  induction fuel as [|fuel IH]; intros before cur s Hfuel Hcur; [lia|].
  assert (Hdone : Forall (fun c => p c = false /\ (In c cur \/ In c s)) (rev cur)).
  { apply Forall_rev. apply Forall_forall. intros c Hc. split.
    - rewrite Forall_forall in Hcur. now apply Hcur.
    - left. now apply list_elem_of_In. }
  cbn [split_loop]. destruct s as [|c s']; [constructor; [exact Hdone | constructor]|].
  assert (Hadvance : p c = false ->
            Forall (fun piece => Forall (fun c0 => p c0 = false /\ (In c0 cur \/ In c0 (c :: s'))) piece)
              (split_loop fuel (plus (Chr p)) (Some c) (c :: cur) s')).
  { intros Hc. eapply Forall_impl; [apply IH; [cbn [length] in *; lia | now constructor]|].
    cbn beta. intros piece Hp. eapply Forall_impl; [exact Hp|]. cbn beta.
    intros c0 [H0 [[<-|H1]|H1]]; (split; [exact H0|]); cbn [In]; auto. }
  destruct (match_here (plus (Chr p)) before (c :: s')) as [y|] eqn:Em.
  - apply plus_needs in Em as (c' & s'' & Heq & Hc & Hn). cbv zeta.
    destruct (Nat.eqb_spec (consumed (c :: s') y) 0) as [H0|_]; [lia|]. cbn [andb].
    constructor; [exact Hdone|].
    eapply Forall_impl; [apply IH; [rewrite length_skipn; cbn [length] in *; lia | constructor]|].
    cbn beta. intros piece Hp. eapply Forall_impl; [exact Hp|]. cbn beta.
    intros c0 [H0 [[]|H1]]. split; [exact H0|]. right. eapply in_skipn, H1.
  - apply Hadvance. destruct (p c) eqn:Hc; [|reflexivity].
    destruct (plus_matches before c s' Hc) as [y Hy]. congruence.
Qed.

Lemma split_clean (s : str) :
  Forall (fun piece => Forall (fun c => p c = false /\ In c s) piece)
    (split (plus (Chr p)) s).
Proof.
  unfold split. destruct s as [|c s'].
  - destruct (match_here _ None []); repeat constructor.
  - eapply Forall_impl; [apply split_loop_clean; [cbn [length]; lia | constructor]|].
    cbn beta. intros piece Hp. eapply Forall_impl; [exact Hp|]. cbn beta.
    intros c0 [H0 [[]|H1]]. now split.
Qed.

End Class.

Lemma lower_char_fate (c : ascii) :
  let c' := lower_char c in
  (is_word c' || is_space c' = true -> is_space c' = true \/ is_token_char c' = true) /\
  (is_word c = false -> is_word c' || is_space c' = true -> is_space c' = true) /\
  lower_char c' = c'.
Proof.
  destruct c as [[] [] [] [] [] [] [] []]; vm_compute; split_and!; auto; discriminate.
Qed.

End LexicalFacts.

Module LexicalResults.
Import JS Regex Types Spec LexicalTerms RegexFacts LexicalFacts.

Lemma lower_twice (text : str) : toLowerCase (toLowerCase text) = toLowerCase text.
Proof.
  unfold toLowerCase. rewrite map_map. apply map_ext. intros c.
  apply (lower_char_fate c).
Qed.

(** X16: every token is a non-empty run of lower-case letters of the basic
    alphabet, digits and underscores: capitals are folded, and every other
    character, accented letters included, separates tokens; the tokens of a
    text are those of its lower-case form. *)
Theorem tokens_are_lower_case_words (text : str) :
  Forall (fun token => token <> [] /\ Forall (fun c => is_token_char c = true) token)
    (BM25M.tokenize text) /\
  BM25M.tokenize (toLowerCase text) = BM25M.tokenize text.
Proof.
  split; [|unfold BM25M.tokenize; now rewrite lower_twice].
  unfold BM25M.tokenize. apply Forall_forall. intros token Hin.
  apply list_elem_of_In, filter_In in Hin as [Hin Hlen].
  split; [destruct token; [discriminate | congruence]|].
  pose proof (split_clean is_space
                (map (fun c => if negb (is_word c || is_space c) then " "%char else c)
                   (toLowerCase text))) as Hclean.
  rewrite Forall_forall in Hclean. apply list_elem_of_In in Hin.
  specialize (Hclean token Hin). eapply Forall_impl; [exact Hclean|]. cbn beta.
  intros c [Hsp Hc]. apply in_map_iff in Hc as (x & <- & Hx).
  unfold toLowerCase in Hx. apply in_map_iff in Hx as (c0 & <- & _).
  destruct (is_word (lower_char c0) || is_space (lower_char c0)) eqn:E; cbn [negb] in *;
    [|discriminate].
  destruct (lower_char_fate c0) as [H _]. cbv zeta in H.
  destruct (H E) as [H1|H1]; [congruence | exact H1].
Qed.


Local Open Scope float_scope.



End LexicalResults.

Module TaggingFacts.
Import JS Types CorrectiveRAG Json Fences Tagging TaggingTerms.
Import SegmentationFacts.

Section Run.
Variable JSON_parse : str -> option json.
Variable groq : nat -> str -> completion.

Lemma keep_authors_chunks (found : value) (st : state) :
  taggedChunks (fst (keep_authors found st)) = taggedChunks st.
Proof.
  unfold keep_authors. destruct (_ && _); [|reflexivity]. now destruct found.
Qed.

Lemma keep_date_chunks (found : value) (st : state) :
  taggedChunks (fst (keep_date found st)) = taggedChunks st.
Proof.
  unfold keep_date. destruct (_ && _); [|reflexivity]. now destruct found.
Qed.

(** The inner [try] of the first pass pushes one entry, or throws before. *)
Lemma first_pass_try_cases (data : json) (c : Chunk) (i : Z) (st : state) :
  let '(st', thrown) := first_pass_try data c i st in
  (taggedChunks st' = taggedChunks st /\ thrown = true) \/
  (exists tags, taggedChunks st' = taggedChunks st ++ [{| chunk := c; chunkId := i; tags := tags |}]).
Proof.
  unfold first_pass_try.
  destruct (get data "authors") as [fa|]; [|now left].
  pose proof (keep_authors_chunks fa st) as Ha.
  destruct (keep_authors fa st) as [st1 [|]]; cbn [fst] in Ha; [now left|].
  destruct (get data "date") as [fd|]; [|now left].
  pose proof (keep_date_chunks fd st1) as Hd.
  destruct (keep_date fd st1) as [st2 [|]]; cbn [fst] in Hd; [left; split; congruence|].
  destruct (get data "tags") as [ft|]; [|left; split; congruence].
  right. exists (array_or_empty ft). cbn [push taggedChunks]. congruence.
Qed.

Lemma first_pass_out (answer : completion) (c : Chunk) (i : nat) (st : state) :
  (i < 3)%nat ->
  exists out,
    taggedChunks (first_pass JSON_parse answer c (Z.of_nat i) st) = taggedChunks st ++ out /\
    turn_out i c out.
Proof.
  intros Hi. unfold first_pass.
  assert (Hplain : exists out,
            taggedChunks (push c (Z.of_nat i) [] st) = taggedChunks st ++ out /\ turn_out i c out).
  { eexists. split; [reflexivity|]. exists []. now left. }
  destruct answer as [|body]; [exact Hplain|].
  destruct (JSON_parse _) as [data|]; [|exact Hplain].
  pose proof (first_pass_try_cases data c (Z.of_nat i) st) as H.
  destruct (first_pass_try data c (Z.of_nat i) st) as [st' thrown].
  destruct H as [[Hsame ->]|[tags Hpush]].
  - cbn [push taggedChunks]. rewrite Hsame. eexists. split; [reflexivity|]. exists []. now left.
  - destruct thrown.
    + cbn [push taggedChunks]. rewrite Hpush, <- app_assoc. eexists. split; [reflexivity|].
      exists tags. right. split; [now left | reflexivity].
    + rewrite Hpush. eexists. split; [reflexivity|]. exists tags. now left.
Qed.

Lemma second_pass_out (answer : completion) (c : Chunk) (i : nat) (st : state) :
  exists out,
    taggedChunks (second_pass JSON_parse answer c (Z.of_nat i) st) = taggedChunks st ++ out /\
    turn_out i c out.
Proof.
  unfold second_pass. cbv zeta.
  pose proof (keep_authors_chunks (Some (found_authors (tagSingleChunk JSON_parse answer))) st) as Ha.
  destruct (keep_authors _ st) as [st1 [|]]; cbn [fst] in Ha.
  { cbn [push taggedChunks]. rewrite Ha. eexists. split; [reflexivity|]. exists []. now left. }
  pose proof (keep_date_chunks (Some (found_date (tagSingleChunk JSON_parse answer))) st1) as Hd.
  destruct (keep_date _ st1) as [st2 [|]]; cbn [fst] in Hd.
  { cbn [push taggedChunks]. rewrite Hd, Ha. eexists. split; [reflexivity|]. exists []. now left. }
  destruct (existsb unprintable _) eqn:E; cbn [push taggedChunks]; rewrite Hd, Ha.
  - rewrite <- app_assoc. eexists. split; [reflexivity|].
    eexists. right. split; [right; exact E | reflexivity].
  - eexists. split; [reflexivity|]. eexists. now left.
Qed.

Lemma passes_appended (pending : list Chunk) :
  forall (i : nat) (st : state),
    exists tagged,
      taggedChunks (passes JSON_parse groq i pending st) = taggedChunks st ++ tagged /\
      appended i pending tagged.
Proof.
  induction pending as [|c pending IH]; intros i st; cbn [passes].
  - exists []. split; [now rewrite app_nil_r | reflexivity].
  - cbv zeta.
    assert (Hturn : exists out,
              taggedChunks
                (if (i <? 3)%nat
                 then first_pass JSON_parse (groq i (enhancedPrompt (content c))) c (Z.of_nat i) st
                 else second_pass JSON_parse (groq i (taggingPrompt (content c))) c (Z.of_nat i) st)
              = taggedChunks st ++ out /\ turn_out i c out).
    { destruct (Nat.ltb_spec i 3); [now apply first_pass_out | apply second_pass_out]. }
    destruct Hturn as (out & Hout & Hshape).
    match goal with |- context [passes _ _ (S i) pending ?s] =>
      destruct (IH (S i) s) as (rest & Hrest & Happ) end.
    exists (out ++ rest). rewrite Hrest, Hout, <- app_assoc. split; [reflexivity|].
    cbn [appended]. exists out, rest. auto.
Qed.

Lemma appended_in_order (chunks : list Chunk) :
  forall (i : nat) (tagged : list TaggedChunk),
    appended i chunks tagged ->
    existsb (fun t => existsb unprintable (tags t)) tagged = false ->
    in_order i chunks tagged.
Proof.
  induction chunks as [|c chunks IH]; intros i tagged H Hclean; [exact H|].
  cbn [appended] in H. destruct H as (out & rest & -> & Hout & Hrest).
  rewrite existsb_app in Hclean. apply orb_false_iff in Hclean as [Hc1 Hc2].
  cbn [in_order]. exists out, rest. split; [reflexivity|]. split; [|now apply IH].
  destruct Hout as (ts & [->|[[Hi|Hbad] ->]]).
  - exists ts. now left.
  - exists ts. right. now split.
  - cbn [existsb Tagging.tags] in Hc1. rewrite Hbad in Hc1. discriminate.
Qed.

Lemma in_order_length (chunks : list Chunk) :
  forall (i : nat) (tagged : list TaggedChunk),
    in_order i chunks tagged ->
    (length chunks <= length tagged <= length chunks + (3 - i))%nat.
Proof.
  induction chunks as [|c chunks IH]; intros i tagged H.
  - cbn in H. subst. cbn. lia.
  - cbn [in_order] in H. destruct H as (out & rest & -> & (tags & [->|[Hi ->]]) & Hrest);
      apply IH in Hrest; rewrite length_app; cbn [length]; lia.
Qed.

End Run.
End TaggingFacts.

Module TextFacts.
Import JS.
Import SegmentationFacts.

Lemma trimStart_fixed (s : str) :
  match s with c :: _ => is_space c = false | [] => True end -> trimStart s = s.
Proof. destruct s as [|c s]; [reflexivity|]. cbn [trimStart]. now intros ->. Qed.

Lemma trimStart_starts (s : str) :
  match trimStart s with c :: _ => is_space c = false | [] => True end.
Proof.
  destruct (trimStart s) as [|c t] eqn:E; [exact I|]. now apply trimStart_head in E.
Qed.

Lemma trimStart_suffix (s : str) : exists sp, s = sp ++ trimStart s.
Proof.
  induction s as [|c s [sp IH]]; [now exists []|]. cbn [trimStart].
  destruct (is_space c); [|now exists []]. exists (c :: sp). cbn. now f_equal.
Qed.

(** Trimming twice is trimming once. *)
Lemma trim_trim (s : str) : trim (trim s) = trim s.
Proof.
  unfold trim. set (t := trimStart s).
  assert (Hstart : trimStart (trimEnd t) = trimEnd t).
  { apply trimStart_fixed. unfold trimEnd.
    destruct (trimStart_suffix (rev t)) as [sp Hsp].
    apply (f_equal (@rev ascii)) in Hsp. rewrite rev_involutive, rev_app_distr in Hsp.
    pose proof (trimStart_starts s) as Hhead. fold t in Hhead.
    destruct (rev (trimStart (rev t))) as [|c u]; [exact I|].
    rewrite Hsp in Hhead. exact Hhead. }
  rewrite Hstart. unfold trimEnd. rewrite rev_involutive.
  rewrite (trimStart_fixed (trimStart (rev t))); [reflexivity | apply trimStart_starts].
Qed.

End TextFacts.

Module TaggingResults.
Import JS Types CorrectiveRAG Json Fences Tagging TaggingTerms.
Import SegmentationFacts TaggingFacts TextFacts.

Lemma in_order_members (chunks : list Chunk) :
  forall (i : nat) (tagged : list TaggedChunk),
    in_order i chunks tagged ->
    Forall (fun t => exists k, chunkId t = Z.of_nat (i + k) /\ chunks !! k = Some (chunk t))
      tagged.
Proof.
  induction chunks as [|c chunks IH]; intros i tagged H.
  - cbn in H. subst. constructor.
  - cbn [in_order] in H. destruct H as (out & rest & -> & (ts & Hout) & Hrest).
    apply Forall_app. split.
    + destruct Hout as [->|[_ ->]]; repeat constructor;
        exists 0%nat; cbn; (split; [f_equal; lia | reflexivity]).
    + apply IH in Hrest. eapply Forall_impl; [exact Hrest|]. cbn beta.
      intros t (k & Hid & Hk). exists (S k). split; [rewrite Hid; f_equal; lia | exact Hk].
Qed.

(** X18: when the tagging returns, its entries follow the order of the
    chunks: each chunk has one entry under its index as [chunkId], with the
    chunk unchanged; only the first three chunks can have a second entry,
    which has no tags; so there are at most three entries more than
    chunks. *)
Theorem tagging_keeps_the_order (JSON_parse : str -> option json)
    (groq : nat -> str -> completion) (chunks : list Chunk)
    (tagged : list TaggedChunk) (metadata : DocumentMetadata) :
  tagChunksAndExtractMetadata JSON_parse groq chunks = Some (tagged, metadata) ->
  in_order 0 chunks tagged /\
  Forall (fun t => exists k, chunkId t = Z.of_nat k /\ chunks !! k = Some (chunk t)) tagged /\
  (length chunks <= length tagged <= length chunks + 3)%nat.
Proof.
  unfold tagChunksAndExtractMetadata. cbv zeta.
  destruct (passes_appended JSON_parse groq chunks 0
              {| documentMetadata := {| authors := JNull; date := JNull |};
                 taggedChunks := [] |}) as (entries & Heq & Happ).
  cbn [taggedChunks app] in Heq. rewrite Heq.
  destruct (existsb _ entries) eqn:Eclean; [discriminate|].
  intros H. injection H as <- _.
  pose proof (appended_in_order chunks 0 entries Happ Eclean) as Hord.
  split; [exact Hord|]. split; [exact (in_order_members chunks 0 entries Hord)|].
  apply in_order_length in Hord. lia.
Qed.

Lemma tagging_keeps_the_order_witness :
  tagChunksAndExtractMetadata (parses_to JNull) (answers_with (lit "null")) [sample_chunk]
  = Some ([untagged sample_chunk 0], {| authors := JNull; date := JNull |}) /\
  in_order 0 [sample_chunk] [untagged sample_chunk 0] /\
  Forall (fun t => exists k, chunkId t = Z.of_nat k /\ [sample_chunk] !! k = Some (chunk t))
    [untagged sample_chunk 0] /\
  (length [sample_chunk] <= length [untagged sample_chunk 0] <= length [sample_chunk] + 3)%nat.
Proof.
  assert (H : tagChunksAndExtractMetadata (parses_to JNull) (answers_with (lit "null")) [sample_chunk]
              = Some ([untagged sample_chunk 0], {| authors := JNull; date := JNull |}))
    by reflexivity.
  split; [exact H|].
  exact (tagging_keeps_the_order _ _ _ _ _ H).
Defined.

Lemma failing_passes (JSON_parse : str -> option json) (pending : list Chunk) :
  forall (i : nat) (st : state),
    passes JSON_parse (fun _ _ => Failure) i pending st
    = {| documentMetadata := documentMetadata st;
         taggedChunks := taggedChunks st
                           ++ imap (fun k c => untagged c (Z.of_nat (i + k))) pending |}.
Proof.
  induction pending as [|c pending IH]; intros i st; cbn [passes imap].
  - rewrite app_nil_r. now destruct st.
  - cbv zeta.
    assert (Hturn : (if (i <? 3)%nat
                     then first_pass JSON_parse Failure c (Z.of_nat i) st
                     else second_pass JSON_parse Failure c (Z.of_nat i) st)
                    = push c (Z.of_nat i) [] st).
    { destruct (i <? 3)%nat; [reflexivity|].
      unfold second_pass, tagSingleChunk, keep_authors, keep_date. cbn. reflexivity. }
    rewrite Hturn, IH. cbn [push documentMetadata taggedChunks]. rewrite <- app_assoc.
    f_equal. f_equal. cbn [app]. rewrite Nat.add_0_r. f_equal.
    apply imap_ext. intros k x _. cbn. unfold untagged. do 2 f_equal. lia.
Qed.

(** X19: when every call of the service fails, the tagging still returns:
    one entry for each chunk, in order and under its index, with no tags,
    and no metadata. *)
Theorem failed_tagging_leaves_chunks_untagged (JSON_parse : str -> option json)
    (chunks : list Chunk) :
  tagChunksAndExtractMetadata JSON_parse (fun _ _ => Failure) chunks
  = Some (imap (fun i c => untagged c (Z.of_nat i)) chunks,
          {| authors := JNull; date := JNull |}).
Proof.
  unfold tagChunksAndExtractMetadata. cbv zeta. rewrite failing_passes.
  cbn [taggedChunks documentMetadata app Nat.add].
  assert (Hclean : existsb (fun t => existsb unprintable (tags t))
                     (imap (fun i c => untagged c (Z.of_nat i)) chunks) = false).
  { destruct (existsb _ _) eqn:E; [|reflexivity].
    apply existsb_exists in E as (t & Hin & Ht).
    apply list_elem_of_In, elem_of_lookup_imap in Hin as (i & c & -> & _). discriminate. }
  now rewrite Hclean.
Qed.

(** X20: in the first pass, an answer whose [tags] is a text instead of an
    array puts the chunk in the result twice under the same [chunkId]: the
    entry is pushed, the log line that joins the tags throws, and the
    handler pushes the chunk again. *)
Theorem text_for_tags_doubles_the_chunk (JSON_parse : str -> option json)
    (groq : nat -> str -> completion) (c : Chunk) (body : option str) (label : str) :
  groq 0%nat (enhancedPrompt (content c)) = Message body ->
  JSON_parse (cleaned (content_of body)) = Some (JObject [(lit "tags", JString label)]) ->
  tagChunksAndExtractMetadata JSON_parse groq [c]
  = Some ([untagged c 0; untagged c 0], {| authors := JNull; date := JNull |}).
Proof.
  intros Hanswer Hparse. unfold tagChunksAndExtractMetadata. cbn [passes Nat.ltb Nat.leb].
  cbv zeta. unfold first_pass. rewrite Hanswer, Hparse. reflexivity.
Qed.

Lemma text_for_tags_doubles_the_chunk_witness :
  let data := JObject [(lit "tags", JString (lit "<summary>"))] in
  answers_with (lit "{}") 0%nat (enhancedPrompt (content sample_chunk))
    = Message (Some (lit "{}")) /\
  parses_to data (cleaned (content_of (Some (lit "{}")))) = Some data /\
  tagChunksAndExtractMetadata (parses_to data) (answers_with (lit "{}")) [sample_chunk]
  = Some ([untagged sample_chunk 0; untagged sample_chunk 0],
          {| authors := JNull; date := JNull |}).
Proof.
  cbv zeta. split; [reflexivity|]. split; [reflexivity|].
  apply (text_for_tags_doubles_the_chunk
           (parses_to (JObject [(lit "tags", JString (lit "<summary>"))]))
           (answers_with (lit "{}")) sample_chunk (Some (lit "{}")) (lit "<summary>"));
    reflexivity.
Defined.

Lemma read_line_plain (found : Tags) (line : str) :
  Forall plain_tag (found_tags found) /\ plain_text (found_authors found) /\
  plain_text (found_date found) ->
  Forall plain_tag (found_tags (read_line found line)) /\
  plain_text (found_authors (read_line found line)) /\
  plain_text (found_date (read_line found line)).
Proof.
  intros (Ht & Ha & Hd). unfold read_line.
  destruct (startsWith (lit "TAGS:") line).
  { cbv zeta. cbn [found_tags found_authors found_date]. split; [|now split].
    apply Forall_forall. intros t Hin. apply list_elem_of_In, in_map_iff in Hin as (s & <- & Hs).
    apply filter_In in Hs as [Hs Hlen]. apply in_map_iff in Hs as (raw & <- & _).
    exists (trim raw). split; [reflexivity|]. split; [|apply trim_trim].
    destruct (trim raw); [discriminate | congruence]. }
  destruct (startsWith (lit "AUTHORS:") line).
  { cbv zeta. destruct (bool_decide_reflect (toLowerCase (trim (replace (lit "AUTHORS:") [] line)) = lit "none"));
      cbn [negb]; [now split_and!|].
    cbn [found_tags found_authors found_date]. split_and!; auto.
    right. eexists. split; [reflexivity|]. split; [apply trim_trim | assumption]. }
  destruct (startsWith (lit "DATE:") line).
  { cbv zeta. destruct (bool_decide_reflect (toLowerCase (trim (replace (lit "DATE:") [] line)) = lit "none"));
      cbn [negb]; [now split_and!|].
    cbn [found_tags found_authors found_date]. split_and!; auto.
    right. eexists. split; [reflexivity|]. split; [apply trim_trim | assumption]. }
  now split_and!.
Qed.

(** X21: when the answer about a chunk is not JSON, [tagSingleChunk] reads
    it line by line: every tag it reports is a text that is not empty and
    has no white space around it, and the authors and the date are [null]
    or such a trimmed text, never the word [none] in any case. *)
Theorem unparsed_answer_is_read_by_lines (JSON_parse : str -> option json)
    (body : option str) :
  JSON_parse (cleaned (content_of body)) = None ->
  let found := tagSingleChunk JSON_parse (Message body) in
  Forall (fun t => exists s, t = JString s /\ s <> [] /\ trimmed s) (found_tags found) /\
  (found_authors found = JNull \/
   exists s, found_authors found = JString s /\ trimmed s /\ toLowerCase s <> lit "none") /\
  (found_date found = JNull \/
   exists s, found_date found = JString s /\ trimmed s /\ toLowerCase s <> lit "none").
Proof.
  intros Hparse. cbv zeta. unfold tagSingleChunk. rewrite Hparse.
  generalize (split_char (ascii_of_N 10) (content_of body)). intros lines.
  assert (H : forall found,
             Forall plain_tag (found_tags found) /\ plain_text (found_authors found) /\
             plain_text (found_date found) ->
             Forall plain_tag (found_tags (fold_left read_line lines found)) /\
             plain_text (found_authors (fold_left read_line lines found)) /\
             plain_text (found_date (fold_left read_line lines found))).
  { induction lines as [|line lines IH]; intros found Hf; [exact Hf|].
    cbn [fold_left]. apply IH. now apply read_line_plain. }
  apply (H no_tags). split_and!; [constructor | now left | now left].
Qed.

Lemma unparsed_answer_is_read_by_lines_witness :
  (fun _ : str => @None json)
    (cleaned (content_of (Some (lit "TAGS: <summary>, <metadata>
AUTHORS: None")))) = None /\
  let found := tagSingleChunk (fun _ => None) (Message (Some (lit "TAGS: <summary>, <metadata>
AUTHORS: None"))) in
  Forall (fun t => exists s, t = JString s /\ s <> [] /\ trimmed s) (found_tags found) /\
  (found_authors found = JNull \/
   exists s, found_authors found = JString s /\ trimmed s /\ toLowerCase s <> lit "none") /\
  (found_date found = JNull \/
   exists s, found_date found = JString s /\ trimmed s /\ toLowerCase s <> lit "none").
Proof.
  split; [reflexivity|].
  apply (unparsed_answer_is_read_by_lines (fun _ => None)
           (Some (lit "TAGS: <summary>, <metadata>
AUTHORS: None"))).
  reflexivity.
Defined.

End TaggingResults.

Module MetadataFacts.
Import JS Types CorrectiveRAG Json Fences Tagging TaggingTerms.
Import TaggingFacts.

Section Run.
Variable JSON_parse : str -> option json.
Variable groq : nat -> str -> completion.

Lemma keep_authors_value (v : value) (st : state) :
  authors (documentMetadata (fst (keep_authors v st)))
  = kept (authors (documentMetadata st)) v.
Proof.
  unfold keep_authors, kept.
  destruct (truthy (Some (authors (documentMetadata st)))); cbn [negb andb].
  - now rewrite andb_false_r.
  - rewrite andb_true_r. destruct v as [data|]; [|reflexivity].
    now destruct (truthy (Some data)).
Qed.

Lemma keep_date_authors (v : value) (st : state) :
  authors (documentMetadata (fst (keep_date v st))) = authors (documentMetadata st).
Proof. unfold keep_date. destruct (_ && _); [|reflexivity]. now destruct v. Qed.

Lemma first_pass_try_authors (data : json) (c : Chunk) (i : Z) (st : state) (v : value) :
  get data "authors" = Some v ->
  authors (documentMetadata (fst (first_pass_try data c i st)))
  = kept (authors (documentMetadata st)) v.
Proof.
  intros Hget. unfold first_pass_try. rewrite Hget.
  pose proof (keep_authors_value v st) as Ha.
  destruct (keep_authors v st) as [st1 [|]]; cbn [fst] in *; [exact Ha|].
  destruct (get data "date") as [fd|]; [|exact Ha].
  pose proof (keep_date_authors fd st1) as Hd.
  destruct (keep_date fd st1) as [st2 [|]]; cbn [fst] in *; [congruence|].
  destruct (get data "tags"); cbn [fst push documentMetadata]; congruence.
Qed.

Lemma first_pass_authors (answer : completion) (c : Chunk) (i : Z) (st : state) :
  authors (documentMetadata (first_pass JSON_parse answer c i st))
  = kept (authors (documentMetadata st)) (offered_authors JSON_parse true answer).
Proof.
  unfold first_pass, offered_authors, kept.
  assert (Hsame : forall a : json, a = if truthy (Some a) then a else a)
    by (intros a; now destruct (truthy _)).
  destruct answer as [|body]; [apply Hsame|].
  destruct (JSON_parse _) as [data|]; [|apply Hsame].
  destruct (get data "authors") as [v|] eqn:Hget.
  - pose proof (first_pass_try_authors data c i st v Hget) as H.
    destruct (first_pass_try data c i st) as [st' [|]]; cbn [fst] in H; exact H.
  - unfold first_pass_try. rewrite Hget. apply Hsame.
Qed.

Lemma second_pass_authors (answer : completion) (c : Chunk) (i : Z) (st : state) :
  authors (documentMetadata (second_pass JSON_parse answer c i st))
  = kept (authors (documentMetadata st)) (offered_authors JSON_parse false answer).
Proof.
  unfold second_pass, offered_authors. cbv zeta.
  pose proof (keep_authors_value (Some (found_authors (tagSingleChunk JSON_parse answer))) st) as Ha.
  destruct (keep_authors _ st) as [st1 [|]]; cbn [fst] in Ha; [exact Ha|].
  pose proof (keep_date_authors (Some (found_date (tagSingleChunk JSON_parse answer))) st1) as Hd.
  destruct (keep_date _ st1) as [st2 [|]]; cbn [fst] in Hd;
    [cbn [push documentMetadata]; congruence|].
  destruct (existsb unprintable _); cbn [push documentMetadata]; congruence.
Qed.

Lemma kept_truthy (current : json) (v : value) :
  truthy (Some current) = true -> kept current v = current.
Proof. unfold kept. now intros ->. Qed.

Lemma passes_authors (pending : list Chunk) :
  forall (i : nat) (st : state),
    authors (documentMetadata (passes JSON_parse groq i pending st))
    = if truthy (Some (authors (documentMetadata st))) then authors (documentMetadata st)
      else match List.find truthy (offers JSON_parse groq i pending) with
           | Some (Some data) => data
           | _ => authors (documentMetadata st)
           end.
Proof.
  induction pending as [|c pending IH]; intros i st; cbn [passes].
  - now destruct (truthy _).
  - cbv zeta. rewrite IH. clear IH.
    set (offer := if (i <? 3)%nat
                  then offered_authors JSON_parse true (groq i (enhancedPrompt (content c)))
                  else offered_authors JSON_parse false (groq i (taggingPrompt (content c)))).
    assert (Hturn : authors (documentMetadata
                      (if (i <? 3)%nat
                       then first_pass JSON_parse (groq i (enhancedPrompt (content c))) c (Z.of_nat i) st
                       else second_pass JSON_parse (groq i (taggingPrompt (content c))) c (Z.of_nat i) st))
                    = kept (authors (documentMetadata st)) offer).
    { unfold offer. destruct (i <? 3)%nat; [apply first_pass_authors | apply second_pass_authors]. }
    rewrite Hturn.
    assert (Hoffers : offers JSON_parse groq i (c :: pending)
                      = offer :: offers JSON_parse groq (S i) pending).
    { unfold offers. cbn [imap]. rewrite Nat.add_0_r. f_equal.
      apply imap_ext. intros k x _. cbn. now replace (i + S k)%nat with (S (i + k)) by lia. }
    rewrite Hoffers. cbn [List.find].
    destruct (truthy (Some (authors (documentMetadata st)))) eqn:Ecur.
    + rewrite (kept_truthy _ _ Ecur), Ecur. reflexivity.
    + destruct (truthy offer) eqn:Eo.
      * destruct offer as [data|]; [|discriminate].
        assert (Hk : kept (authors (documentMetadata st)) (Some data) = data)
          by (unfold kept; now rewrite Ecur, Eo).
        rewrite Hk, Eo. reflexivity.
      * assert (Hk : kept (authors (documentMetadata st)) offer = authors (documentMetadata st))
          by (unfold kept; rewrite Ecur; destruct offer; [now rewrite Eo | reflexivity]).
        rewrite Hk, Ecur. reflexivity.
Qed.

End Run.
End MetadataFacts.

Module MetadataResults.
Import JS Types CorrectiveRAG Json Fences Tagging TaggingTerms.
Import TaggingFacts MetadataFacts TaggingResults.

(** X22: when the tagging returns, the authors of the document are the
    first truthy value that the answers offer, in the order of the chunks,
    and [null] when no answer offers one: a value found later never
    replaces one found before. *)
Theorem first_authors_found_are_kept (JSON_parse : str -> option json)
    (groq : nat -> str -> completion) (chunks : list Chunk)
    (tagged : list TaggedChunk) (metadata : DocumentMetadata) :
  tagChunksAndExtractMetadata JSON_parse groq chunks = Some (tagged, metadata) ->
  authors metadata = first_truthy (offers JSON_parse groq 0 chunks).
Proof.
  unfold tagChunksAndExtractMetadata. cbv zeta.
  destruct (existsb _ _); [discriminate|]. intros H. injection H as _ <-.
  rewrite passes_authors. reflexivity.
Qed.

Lemma first_authors_found_are_kept_witness :
  let data := JObject [(lit "authors", JString (lit "Ada Lovelace"))] in
  tagChunksAndExtractMetadata (parses_to data) (answers_with (lit "{}"))
    [sample_chunk; sample_chunk]
  = Some ([{| chunk := sample_chunk; chunkId := 0; tags := [] |};
           {| chunk := sample_chunk; chunkId := 1; tags := [] |}],
          {| authors := JString (lit "Ada Lovelace"); date := JNull |}) /\
  JString (lit "Ada Lovelace")
  = first_truthy (offers (parses_to data) (answers_with (lit "{}")) 0
                    [sample_chunk; sample_chunk]).
Proof.
  cbv zeta.
  assert (H : tagChunksAndExtractMetadata
                (parses_to (JObject [(lit "authors", JString (lit "Ada Lovelace"))]))
                (answers_with (lit "{}")) [sample_chunk; sample_chunk]
              = Some ([{| chunk := sample_chunk; chunkId := 0; tags := [] |};
                       {| chunk := sample_chunk; chunkId := 1; tags := [] |}],
                      {| authors := JString (lit "Ada Lovelace"); date := JNull |}))
    by reflexivity.
  split; [exact H|].
  exact (first_authors_found_are_kept _ _ _ _ _ H).
Defined.

End MetadataResults.

Module ExtractionFacts.
Import JS Types VectorStoreM HybridSearch CorrectiveRAG Spec Json Fences Extraction ExtractionTerms.
Import JSFacts SearchFacts RetrievalFacts RankingFacts LoopFacts.

Lemma or_text_truthy (v : value) (text : string) :
  lit text <> [] -> truthy (Some (or_text v text)) = true.
Proof.
  intros Ht. unfold or_text. destruct v as [data|].
  - destruct (truthy (Some data)) eqn:E; [exact E|]. cbn. now destruct (lit text).
  - cbn. now destruct (lit text).
Qed.

Lemma extraction_of_filled (data : json) :
  data <> JNull -> exists r, extraction_of data = Some r /\ filled r.
Proof.
  intros Hd. unfold extraction_of.
  assert (Hget : forall name, exists v, get data name = Some v)
    by (intros name; destruct data; cbn; eauto; congruence).
  destruct (Hget "authors") as [v1 ->]. destruct (Hget "date") as [v2 ->].
  destruct (Hget "documentType") as [v3 ->]. destruct (Hget "summary") as [v4 ->].
  destruct (Hget "methods") as [v5 ->]. destruct (Hget "findings") as [v6 ->].
  cbn [mbind option_bind]. eexists. split; [reflexivity|].
  unfold filled. cbn [authors date documentType summary methods findings].
  split_and!; apply or_text_truthy; discriminate.
Qed.

Lemma join_length (sep : str) (width : nat) (parts : list str) :
  Forall (fun p => (length p <= width)%nat) parts ->
  (length (join sep parts) <= length parts * width + (length parts - 1) * length sep)%nat.
Proof.
  induction 1 as [|p parts Hp _ IH]; [cbn; lia|].
  destruct parts as [|q parts']; [cbn; lia|].
  change (join sep (p :: q :: parts')) with (p ++ sep ++ join sep (q :: parts')).
  rewrite !length_app. cbn [length] in *. nia.
Qed.

Lemma context_length (chunks : list SearchResult) (count width : Z) :
  0 <= count -> 0 <= width ->
  len (join separator
         (map (fun c => slice (result_content c) 0 (Some width))
            (slice chunks 0 (Some count))))
  <= count * width + Z.max (count - 1) 0 * len separator.
Proof.
  intros Hc Hw.
  pose proof (join_length separator (Z.to_nat width)
                (map (fun c => slice (result_content c) 0 (Some width))
                   (slice chunks 0 (Some count)))) as H.
  assert (Hparts : Forall (fun p => (length p <= Z.to_nat width)%nat)
                     (map (fun c => slice (result_content c) 0 (Some width))
                        (slice chunks 0 (Some count)))).
  { apply Forall_forall. intros p Hp. apply list_elem_of_In, in_map_iff in Hp as (c & <- & _).
    pose proof (slice_bound (result_content c) width Hw) as Hb. unfold len in Hb. lia. }
  specialize (H Hparts). rewrite length_map in H.
  pose proof (slice_bound chunks count Hc) as Hn. unfold len in *.
  set (n := length (slice chunks 0 (Some count))) in *.
  set (s := length separator) in *. nia.
Qed.

Section Service.
Variable JSON_parse : str -> option json.
Variable groq : service.
Variable bm : BM25M.BM25.
Variable docs : list str.
Variable s0 : VectorStore.
Variable cs : list TaggedChunk.

Local Abbreviation searcher := (searcher_over bm docs s0 cs).

(** The retrievals of the sections all return. *)
Lemma retrievals_total (pending : list str) :
  forall history,
    exists results history',
      retrievals groq searcher history pending = Some (results, history') /\
      length results = length pending.
Proof.
  induction pending as [|q pending IH]; intros history; cbn [retrievals].
  - eexists _, _. split; reflexivity.
  - destruct (retrieval_size (fun seen => groq (history ++ seen)) bm docs s0 cs q 2 5)
      as (result & tr & Hrun & _); [lia|].
    rewrite Hrun. destruct (IH (history ++ tr)) as (results & history' & -> & Hlen).
    eexists _, _. split; [reflexivity|]. cbn. now rewrite Hlen.
Qed.

End Service.
End ExtractionFacts.

Module ExtractionResults.
Import JS Types VectorStoreM HybridSearch CorrectiveRAG Spec Json Fences Extraction ExtractionTerms.
Import JSFacts SearchFacts RetrievalFacts RankingFacts LoopFacts ExtractionFacts.

(** X23: [answerQuery] retrieves with three iterations and [topK = 5], so
    it has at most seven source chunks; the context it shows holds the
    first five, each cut at 2000 code units, at most 10028 code units in
    all; if the request for the answer fails, so does [answerQuery];
    otherwise it returns the query, all the source chunks, and an answer
    that is never empty: the text of the service, or a fixed text when that
    is missing or empty. *)
Theorem answer_is_never_empty (groq : service) (bm : BM25M.BM25) (docs : list str)
    (s0 : VectorStore) (cs : list TaggedChunk) (query : str) :
  exists ragResult tr,
    correctiveRAGRetrieval groq (searcher_over bm docs s0 cs) query 3 5
      = Some (ragResult, tr) /\
    len (relevantChunks ragResult) <= 7 /\
    len (answer_context ragResult) <= 10028 /\
    (groq tr (answerPrompt query (answer_context ragResult)) = Failure ->
     answerQuery groq (searcher_over bm docs s0 cs) query = None) /\
    (forall body,
       groq tr (answerPrompt query (answer_context ragResult)) = Message body ->
       exists text,
         answerQuery groq (searcher_over bm docs s0 cs) query
         = Some {| answered_query := query; answer := text;
                   sourceChunks := relevantChunks ragResult |} /\
         text <> [] /\
         (forall c rest, body = Some (c :: rest) -> text = c :: rest)).
Proof.
  destruct (retrieval_size groq bm docs s0 cs query 3 5) as (ragResult & tr & Hrun & Hsize); [lia|].
  exists ragResult, tr. split; [exact Hrun|]. split; [lia|].
  split.
  { pose proof (context_length (relevantChunks ragResult) 5 2000) as H.
    change (len separator) with 7 in H. unfold answer_context. lia. }
  unfold answerQuery. rewrite Hrun. cbv zeta. fold (answer_context ragResult).
  split; [now intros ->|].
  intros body ->. destruct body as [[|c rest]|].
  - eexists. split; [reflexivity|]. split; [discriminate|]. discriminate.
  - eexists. split; [reflexivity|]. split; [discriminate|]. now intros ? ? [= <- <-].
  - eexists. split; [reflexivity|]. split; [discriminate|]. discriminate.
Qed.

(** X24: [extractDocumentInformation] makes its six retrievals, which all
    return, then asks once for the extraction; if that request fails it
    fails; an answer that is not JSON gives the record of the default
    texts; an answer that parses to [null] makes it fail, since the fields
    are read from [null]; any other parsed answer gives a record whose six
    fields are all truthy: a field that is missing, empty or falsy is
    replaced by its default text. *)
Theorem extraction_outcomes (JSON_parse : str -> option json) (groq : service)
    (bm : BM25M.BM25) (docs : list str) (s0 : VectorStore) (cs : list TaggedChunk) :
  exists results history,
    retrievals groq (searcher_over bm docs s0 cs) [] queries = Some (results, history) /\
    length results = 6%nat /\
    (groq history (finalPrompt results) = Failure ->
     extractDocumentInformation JSON_parse groq (searcher_over bm docs s0 cs) = None) /\
    (forall body,
       groq history (finalPrompt results) = Message body ->
       (JSON_parse (cleaned (default [] body)) = None ->
        extractDocumentInformation JSON_parse groq (searcher_over bm docs s0 cs)
        = Some defaults) /\
       (JSON_parse (cleaned (default [] body)) = Some JNull ->
        extractDocumentInformation JSON_parse groq (searcher_over bm docs s0 cs) = None) /\
       (forall data,
          JSON_parse (cleaned (default [] body)) = Some data -> data <> JNull ->
          exists r,
            extractDocumentInformation JSON_parse groq (searcher_over bm docs s0 cs) = Some r /\
            filled r)).
Proof.
  destruct (retrievals_total groq bm docs s0 cs queries []) as (results & history & Hr & Hlen).
  exists results, history. split; [exact Hr|]. split; [exact Hlen|].
  unfold extractDocumentInformation. rewrite Hr.
  split; [now intros ->|]. intros body ->. cbv zeta. split_and!.
  - now intros ->.
  - now intros ->.
  - intros data -> Hd. now apply extraction_of_filled.
Qed.

Lemma section_length (title : string) (text : str) :
  len (section title text) = len (section title []) + len text.
Proof. unfold section, len. rewrite !length_app. cbn [length]. lia. Qed.

(** X25: whatever the retrievals returned, the prompt of the extraction is
    at most 18000 code units longer than its fixed text: each of the six
    contexts is cut, to 2000, 2000, 3000, 4000, 4000 and 3000 code units. *)
Theorem extraction_prompt_is_bounded (results : list CorrectiveRAGResult) :
  len (finalPrompt results) <= len (finalPrompt []) + 18000.
Proof.
  change (finalPrompt [])
    with (instructions ++ section "AUTHORS" [] ++ section "DATE" []
          ++ section "DOCUMENT TYPE" [] ++ section "SUMMARY" []
          ++ section "METHODS" [] ++ section "FINDINGS" []).
  unfold finalPrompt. cbv zeta.
  set (d := {| Types.query := []; finalQuery := []; iterations := 0;
               relevantChunks := []; totalFound := 0 |}).
  pose proof (slice_bound (context (nth 0 results d) 3 2000) 2000 ltac:(lia)) as H0.
  pose proof (slice_bound (context (nth 1 results d) 3 2000) 2000 ltac:(lia)) as H1.
  pose proof (slice_bound (context (nth 2 results d) 3 2500) 3000 ltac:(lia)) as H2.
  pose proof (slice_bound (context (nth 3 results d) 3 2500) 4000 ltac:(lia)) as H3.
  pose proof (slice_bound (context (nth 4 results d) 3 2500) 4000 ltac:(lia)) as H4.
  pose proof (slice_bound (context (nth 5 results d) 3 2500) 3000 ltac:(lia)) as H5.
  revert H0 H1 H2 H3 H4 H5.
  generalize (slice (context (nth 0 results d) 3 2000) 0 (Some 2000)).
  generalize (slice (context (nth 1 results d) 3 2000) 0 (Some 2000)).
  generalize (slice (context (nth 2 results d) 3 2500) 0 (Some 3000)).
  generalize (slice (context (nth 3 results d) 3 2500) 0 (Some 4000)).
  generalize (slice (context (nth 4 results d) 3 2500) 0 (Some 4000)).
  generalize (slice (context (nth 5 results d) 3 2500) 0 (Some 3000)).
  intros x5 x4 x3 x2 x1 x0 H0 H1 H2 H3 H4 H5.
  assert (Happ : forall a b : str, len (a ++ b) = len a + len b)
    by (intros; unfold len; rewrite length_app; lia).
  rewrite !Happ.
  rewrite (section_length "AUTHORS" x0), (section_length "DATE" x1),
    (section_length "DOCUMENT TYPE" x2), (section_length "SUMMARY" x3),
    (section_length "METHODS" x4), (section_length "FINDINGS" x5).
  lia.
Qed.

End ExtractionResults.

Module CliFacts.
Import JS Regex Types Chunking Spec SegmentationTerms Pipeline Cli CliTerms.
Import JSFacts RegexFacts ChunkingFacts SectionFacts HeadingFacts SegmentationFacts.

(** The option loop reads its arguments two by two. *)
Lemma read_options_app (pairs rest : list str) : forall opts,
  Nat.even (length pairs) = true ->
  read_options (pairs ++ rest) opts = read_options rest (read_options pairs opts).
Proof.
  induction pairs as [pairs IH] using (induction_ltof1 _ (@length str)). unfold ltof in IH.
  intros opts He. destruct pairs as [|k [|v pairs]]; [reflexivity | discriminate |].
  cbn [app read_options]. apply IH; [cbn; lia | exact He].
Qed.

Lemma set_groq_key (value : option str) (opts : options) :
  set_option (lit "--groq-key") value opts
  = {| opt_doclingApiUrl := opt_doclingApiUrl opts; opt_groqApiKey := value;
       opt_outputPath := opt_outputPath opts; opt_query := opt_query opts |}.
Proof. reflexivity. Qed.

End CliFacts.

Module PipelineResults.
Import JS Regex Types Chunking Spec SegmentationTerms Pipeline Cli CliTerms.
Import JSFacts RegexFacts ChunkingFacts SegmentationFacts CliFacts.

(** X26: the pipeline keeps the chunks of the markdown text unless there is
    exactly one: a blank markdown text gives no chunk, and the pipeline goes
    on with none, whatever the HTML text holds. *)
Theorem blank_markdown_is_kept (markdown html : str) (config : ChunkingConfig) :
  trim markdown = [] ->
  chunks_of_document markdown html config = Some [].
Proof.
  intros H. unfold chunks_of_document. now rewrite (blank_text_chunks _ _ H).
Qed.

Lemma blank_markdown_is_kept_witness :
  trim (lit "  ") = [] /\
  chunks_of_document (lit "  ") (lit "<p>text</p>") chunkingConfig = Some [].
Proof.
  assert (H : trim (lit "  ") = []) by reflexivity.
  split; [exact H|].
  exact (blank_markdown_is_kept (lit "  ") (lit "<p>text</p>") chunkingConfig H).
Defined.

(** X27: a markdown text that is not blank, is no longer than
    [maxChunkSize], and holds no capital Z and no line break followed by
    [#], is one chunk, so the pipeline drops it and chunks the HTML text
    instead: it returns the chunks of the HTML text when there are some, and
    throws when the HTML text is blank. *)
Theorem short_markdown_is_replaced_by_html (markdown html : str) (config : ChunkingConfig) :
  trim markdown <> [] ->
  len markdown <= maxChunkSize config ->
  Forall (fun c => c <> "Z"%char) markdown ->
  heading_inside markdown = false ->
  (trim html = [] -> chunks_of_document markdown html config = None) /\
  (forall chunks, chunkDocument html config = Some chunks -> chunks <> [] ->
     chunks_of_document markdown html config = Some chunks).
Proof.
  intros H1 H2 H3 H4. unfold chunks_of_document.
  rewrite (short_text_chunks _ _ H1 H2 H3 H4). change (len [_] =? 1) with true. cbv iota.
  split.
  - intros Hb. now rewrite (blank_text_chunks _ _ Hb).
  - intros chunks -> Hne. destruct chunks as [|c chunks]; [congruence|].
    replace (len (c :: chunks) =? 0) with false; [reflexivity|].
    symmetry. apply Z.eqb_neq. unfold len. cbn [length]. lia.
Qed.

Lemma short_markdown_is_replaced_by_html_witness :
  trim titled_note <> [] /\ len titled_note <= maxChunkSize chunkingConfig /\
  Forall (fun c => c <> "Z"%char) titled_note /\ heading_inside titled_note = false /\
  (trim (lit " ") = [] -> chunks_of_document titled_note (lit " ") chunkingConfig = None) /\
  (forall chunks, chunkDocument (lit " ") chunkingConfig = Some chunks -> chunks <> [] ->
     chunks_of_document titled_note (lit " ") chunkingConfig = Some chunks).
Proof.
  assert (H1 : trim titled_note <> []) by (vm_compute; discriminate).
  assert (H2 : len titled_note <= maxChunkSize chunkingConfig) by (vm_compute; discriminate).
  assert (H3 : Forall (fun c => c <> "Z"%char) titled_note)
    by (repeat constructor; discriminate).
  assert (H4 : heading_inside titled_note = false) by (vm_compute; reflexivity).
  split_and!; try assumption;
    apply (short_markdown_is_replaced_by_html titled_note (lit " ") chunkingConfig H1 H2 H3 H4).
Defined.

(** X28: when help is not asked for and the options before it are whole
    pairs, the last [--groq-key] decides: with a value that is not empty,
    [parseArgs] returns the path and that value as the key, whatever the
    environment and the earlier options gave; with an empty value, or
    without a value as the last argument, it makes [parseArgs] exit with
    code 1 even when the environment holds a key. *)
Theorem last_groq_key_decides (GROQ_API_KEY : option str) (pdf : str) (pairs : list str)
    (value : option str) :
  Nat.even (length pairs) = true ->
  no_help (pdf :: pairs ++ lit "--groq-key" :: option_list value) ->
  match value with
  | Some (c :: key) =>
      exists args,
        parseArgs GROQ_API_KEY (pdf :: pairs ++ lit "--groq-key" :: option_list value)
        = Parsed args /\
        pdfPath args = pdf /\ groqApiKey args = c :: key
  | _ =>
      parseArgs GROQ_API_KEY (pdf :: pairs ++ lit "--groq-key" :: option_list value) = Exit 1
  end.
Proof.
  intros He [Hh1 Hh2]. unfold parseArgs.
  rewrite (bool_decide_eq_false_2 _ Hh1), (bool_decide_eq_false_2 _ Hh2). cbn [orb].
  cbv zeta. rewrite (read_options_app _ _ _ He).
  destruct value as [[|c key]|]; cbn [option_list read_options]; rewrite set_groq_key;
    cbn [opt_groqApiKey]; try reflexivity.
  eexists. split; [reflexivity|]. now split.
Qed.

Lemma last_groq_key_decides_witness :
  Nat.even (length sample_arguments) = true /\
  no_help (lit "a.pdf" :: sample_arguments ++ lit "--groq-key" :: option_list (Some (lit "new"))) /\
  no_help (lit "a.pdf" :: sample_arguments ++ lit "--groq-key" :: option_list None) /\
  (exists args,
     parseArgs (Some (lit "env")) (lit "a.pdf" :: sample_arguments ++ [lit "--groq-key"; lit "new"])
     = Parsed args /\
     pdfPath args = lit "a.pdf" /\ groqApiKey args = lit "new") /\
  parseArgs (Some (lit "env")) (lit "a.pdf" :: sample_arguments ++ [lit "--groq-key"]) = Exit 1.
Proof.
  assert (H : Nat.even (length sample_arguments) = true) by reflexivity.
  assert (H1 : no_help (lit "a.pdf" :: sample_arguments
                        ++ lit "--groq-key" :: option_list (Some (lit "new")))).
  { split; unfold sample_arguments; cbn [app option_list];
      repeat (apply not_elem_of_cons; split; [discriminate|]); apply not_elem_of_nil. }
  assert (H2 : no_help (lit "a.pdf" :: sample_arguments ++ lit "--groq-key" :: option_list None)).
  { split; unfold sample_arguments; cbn [app option_list];
      repeat (apply not_elem_of_cons; split; [discriminate|]); apply not_elem_of_nil. }
  split_and!; try assumption.
  - exact (last_groq_key_decides (Some (lit "env")) (lit "a.pdf") sample_arguments
             (Some (lit "new")) H H1).
  - exact (last_groq_key_decides (Some (lit "env")) (lit "a.pdf") sample_arguments None H H2).
Defined.

End PipelineResults.
